(** * pychess: the network session layer of [src/pychess/main.py]

    A shallow embedding of the peer-to-peer machinery of the program:
    - [NetPlay], the TCP helper with its background accept and read threads,
      its inbox queue and its [send]/[poll]/[close] operations;
    - the JSON records written to the wire by [json.dumps];
    - [color_select_screen], the colour negotiation between the two peers;
    - the play loop of [main_game]: inbox draining with move replay and clock
      override, the elapsed-time clock step, and local move input;
    - around them: the mapping between squares and pixels
      ([board_to_screen_rc], [mouse_to_square]), the host's waiting loop,
      [promotion_dialog] and [splash_screen].

    What lives outside the repository is taken as an interface: the
    python-chess rules engine ([RulesEngine]), IEEE floats as produced by
    [time.time()] ([PyFloat]) and the decoder [json.loads] (a parameter of
    the read thread).  Sounds are left out, and of rendering and animation
    only what can raise on the state of the game is kept: the clock display
    of [draw_sidebar] and the piece lookup of [animate_move].  [tick] is an
    iteration of the play loop up to its drawing, [iteration] the whole of
    it; a run of [main_loop] that does not raise is a run of [ticks]. *)

From Stdlib Require Import List String Ascii ZArith Bool Lia Arith.
From Stdlib Require Import Strings.Byte DecimalString.
From Equations Require Import Equations.
From Equations.Prop Require Import Logic.
Import ListNotations.

Local Open Scope string_scope.
Local Open Scope list_scope.

(* ===================================================================== *)
(** * Python values *)
(* ===================================================================== *)

(** Exceptions the modelled code can raise, and results that carry them. *)
Inductive exn : Type :=
| AttributeError
| KeyError
| ValueError
| TypeError
| OverflowError.

Inductive res (A : Type) : Type :=
| Ok (a : A)
| Raise (e : exn).
Arguments Ok {A} a.
Arguments Raise {A} e.

Definition bind {A B} (r : res A) (k : A -> res B) : res B :=
  match r with
  | Ok a => k a
  | Raise e => Raise e
  end.

(** Python floats.  The program subtracts them, compares them with zero,
    converts ints and strings to them, truncates them to ints for the
    clock display, and prints them in JSON. *)
Class PyFloat (F : Type) : Type := {
  f_fits : Z -> bool;                 (* float(n) does not overflow *)
  f_of_Z : Z -> F;                    (* float(n) for an int n that fits *)
  f_sub : F -> F -> F;                (* a - b *)
  f_le0 : F -> bool;                  (* a <= 0 *)
  f_gt0 : F -> bool;                  (* a > 0 *)
  f_is_zero : F -> bool;              (* a == 0, the falsy floats *)
  f_int : F -> res Z;                 (* int(a): ValueError for NaN,
                                         OverflowError for an infinity *)
  f_parse : string -> option F;       (* float(s) for a str s; None: ValueError *)
  f_repr : F -> string;               (* float.__repr__, as json.dumps prints it *)
  f_eq_dec : forall a b : F, {a = b} + {a <> b};
  f_repr_line : forall a c, In c (list_ascii_of_string (f_repr a)) ->
                            c <> "010"%char
}.

Section Values.
Context {F : Type} `{PyFloat F}.

(** A Python number is an int or a float; the clocks start as ints
    ([w_time * 60]) and become floats at the first [-= dt]. *)
Inductive pynum : Type :=
| PInt (z : Z)
| PFloat (x : F).

(** The value of [float(n)], where it has one. *)
Definition to_float (n : pynum) : F :=
  match n with
  | PInt z => f_of_Z z
  | PFloat x => x
  end.

(** [float(n)]: an int beyond the range of floats raises
    [OverflowError]. *)
Definition float_of (n : pynum) : res F :=
  match n with
  | PInt z => if f_fits z then Ok (f_of_Z z) else Raise OverflowError
  | PFloat x => Ok x
  end.

(** The value of [n - dt] for a float [dt], a float; Python converts an
    int [n] with [float(n)] first, so the subtraction exists where
    [float_of n] does. *)
Definition num_sub (n : pynum) (dt : F) : pynum :=
  PFloat (f_sub (to_float n) dt).

(** [n <= 0] *)
Definition num_le0 (n : pynum) : bool :=
  match n with
  | PInt z => (z <=? 0)%Z
  | PFloat x => f_le0 x
  end.

(** [max(0, n)]: Python keeps the first argument unless a later one is
    strictly greater. *)
Definition max0 (n : pynum) : pynum :=
  match n with
  | PInt z => if (0 <? z)%Z then n else PInt 0
  | PFloat x => if f_gt0 x then n else PInt 0
  end.

(** The values [json.loads] produces.  [JNull] is Python's [None];
    an object keeps its pairs in insertion order. *)
#[local] Unset Elimination Schemes.
Inductive json : Type :=
| JNull
| JBool (b : bool)
| JNum (n : pynum)
| JStr (s : string)
| JArr (l : list json)
| JObj (kv : list (string * json)).
#[local] Set Elimination Schemes.

(** Induction on decoded values, through arrays and objects. *)
Lemma json_induction (P : json -> Prop) :
  P JNull ->
  (forall b, P (JBool b)) ->
  (forall n, P (JNum n)) ->
  (forall s, P (JStr s)) ->
  (forall l, Forall P l -> P (JArr l)) ->
  (forall kv, Forall (fun p => P (snd p)) kv -> P (JObj kv)) ->
  forall v, P v.
Proof.
  intros Hnull Hbool Hnum Hstr Harr Hobj.
  fix IH 1. intros [ | b | n | s | l | kv ].
  - exact Hnull.
  - apply Hbool.
  - apply Hnum.
  - apply Hstr.
  - apply Harr. induction l as [|x l IHl]; constructor.
    + apply IH.
    + exact IHl.
  - apply Hobj. induction kv as [|[k x] kv IHkv]; constructor.
    + apply IH.
    + exact IHkv.
Qed.

(** Truthiness, as [if v] and [a and b] test it. *)
Definition truthy (v : json) : bool :=
  match v with
  | JNull => false
  | JBool b => b
  | JNum (PInt z) => negb (z =? 0)%Z
  | JNum (PFloat x) => negb (f_is_zero x)
  | JStr s => negb (s =? EmptyString)
  | JArr l => match l with [] => false | _ => true end
  | JObj kv => match kv with [] => false | _ => true end
  end.

(** [v == s] for a str [s]: only an equal str compares equal. *)
Definition eq_str (v : json) (s : string) : bool :=
  match v with
  | JStr t => (t =? s)
  | _ => false
  end.

(** Lookup in a dict decoded from JSON (its keys are distinct). *)
Fixpoint lookup (k : string) (kv : list (string * json)) : option json :=
  match kv with
  | [] => None
  | (k', v) :: r => if (k' =? k) then Some v else lookup k r
  end.

(** [d.get(k)]: [None] when the key is missing. *)
Definition dict_get (k : string) (kv : list (string * json)) : json :=
  match lookup k kv with
  | Some v => v
  | None => JNull
  end.

(** [payload.get(k)] on an arbitrary decoded value: only dicts have [get]. *)
Definition py_get (payload : json) (k : string) : res json :=
  match payload with
  | JObj kv => Ok (dict_get k kv)
  | _ => Raise AttributeError
  end.

(** [float(v)] on a decoded value. *)
Definition py_float (v : json) : res F :=
  match v with
  | JNum n => float_of n
  | JBool b => Ok (f_of_Z (if b then 1 else 0))
  | JStr s => match f_parse s with
              | Some x => Ok x
              | None => Raise ValueError
              end
  | JNull | JArr _ | JObj _ => Raise TypeError
  end.

End Values.

Arguments pynum F : clear implicits.
Arguments json F : clear implicits.

(* ===================================================================== *)
(** * [json.dumps] *)
(* ===================================================================== *)

Module Dumps.
Section Dumps.
Context {F : Type} `{PyFloat F}.
Local Open Scope string_scope.

Definition newline : ascii := "010"%char.

Definition dquote : ascii := "034"%char.
Definition backslash : ascii := "092"%char.

Definition hex_digit (n : nat) : ascii :=
  match n with
  | 0 => "0" | 1 => "1" | 2 => "2" | 3 => "3" | 4 => "4" | 5 => "5"
  | 6 => "6" | 7 => "7" | 8 => "8" | 9 => "9" | 10 => "a" | 11 => "b"
  | 12 => "c" | 13 => "d" | 14 => "e" | _ => "f"
  end%char.

(** One character of [py_encode_basestring_ascii]: the seven short
    escapes, [\u00xx] for everything else outside [' '..'~'].  A character
    is a code point below 256 here. *)
Definition escape_char (c : ascii) : string :=
  let n := nat_of_ascii c in
  if (n =? 34)%nat then String backslash (String dquote EmptyString)
  else if (n =? 92)%nat then String backslash (String backslash EmptyString)
  else if (n =? 10)%nat then "\n"
  else if (n =? 13)%nat then "\r"
  else if (n =? 9)%nat then "\t"
  else if (n =? 8)%nat then "\b"
  else if (n =? 12)%nat then "\f"
  else if ((32 <=? n) && (n <=? 126))%nat then String c EmptyString
  else "\u00" ++ String (hex_digit (n / 16)) (String (hex_digit (n mod 16)) EmptyString).

Fixpoint escape (s : string) : string :=
  match s with
  | EmptyString => EmptyString
  | String c r => escape_char c ++ escape r
  end.

Definition quote (s : string) : string :=
  String dquote (escape s ++ String dquote EmptyString).

(** [int.__repr__] *)
Definition int_repr (z : Z) : string :=
  NilZero.string_of_int (Z.to_int z).

Definition num_repr (n : pynum F) : string :=
  match n with
  | PInt z => int_repr z
  | PFloat x => f_repr x
  end.

(** [json.dumps(v)] with the default separators [", "] and [": "]. *)
Fixpoint dumps (v : json F) : string :=
  match v with
  | JNull => "null"
  | JBool true => "true"
  | JBool false => "false"
  | JNum n => num_repr n
  | JStr s => quote s
  | JArr l =>
      "[" ++
      (fix items (l : list (json F)) : string :=
         match l with
         | [] => EmptyString
         | x :: r =>
             match r with
             | [] => dumps x
             | _ :: _ => dumps x ++ ", " ++ items r
             end
         end) l ++ "]"
  | JObj kv =>
      "{" ++
      (fix members (kv : list (string * json F)) : string :=
         match kv with
         | [] => EmptyString
         | (k, x) :: r =>
             match r with
             | [] => quote k ++ ": " ++ dumps x
             | _ :: _ => quote k ++ ": " ++ dumps x ++ ", " ++ members r
             end
         end) kv ++ "}"
  end.

(** [(json.dumps(d) + '\n')], the text [send] encodes and writes. *)
Definition frame_record (d : json F) : string :=
  dumps d ++ String newline EmptyString.

End Dumps.
End Dumps.

(* ===================================================================== *)
(** * [class NetPlay] *)
(* ===================================================================== *)

Module NetPlay.

(** [buf.split(b'\n', 1)] when [b'\n' in buf]: the bytes before the first
    newline and the bytes after it; [None] when there is no newline. *)
Fixpoint split_nl (buf : list byte) : option (list byte * list byte) :=
  match buf with
  | [] => None
  | b :: r =>
      if Byte.eqb b x0a then Some ([], r)
      else match split_nl r with
           | Some (line, rest) => Some (b :: line, rest)
           | None => None
           end
  end.

Lemma split_nl_shorter buf line rest :
  split_nl buf = Some (line, rest) -> List.length rest < List.length buf.
Proof.
  revert line rest; induction buf as [|b r IH]; intros line rest; simpl.
  - discriminate.
  - destruct (Byte.eqb b x0a).
    + intros E; inversion E; subst; lia.
    + destruct (split_nl r) as [[l' r']|] eqn:E; [|discriminate].
      intros E'; inversion E'; subst.
      specialize (IH _ _ eq_refl); lia.
Qed.

Section NetPlay.
Context {F : Type} `{PyFloat F}.

(** [json.loads(line.decode('utf-8'))]: [None] stands for any exception
    ([UnicodeDecodeError], [JSONDecodeError], ...). *)
Variable loads : list byte -> option (json F).

(** What the queue holds: [('connected', {'peer': addr})], [('msg', d)]
    and [('closed', None)]. *)
Inductive event : Type :=
| Connected (addr : string * Z)
| Msg (d : json F)
| Closed.

(** The three places that call [self.q.put]. *)
Inductive producer : Type :=
| Acceptor      (* _accept *)
| Reader        (* _recv *)
| Sender.       (* send *)

(** Where the [_recv] thread stands. *)
Inductive reader_state : Type :=
| NotStarted
| AtLoopHead (buf : list byte)     (* about to test [self.alive] *)
| InRecv (buf : list byte)         (* blocked in [s.recv(4096)] *)
| Finished.                        (* left through [finally] *)

Record netplay : Type := mkNetPlay {
  host_mode : bool;                (* mode == 'host' *)
  q : list event;                  (* self.q, oldest first *)
  alive : bool;                    (* self.alive *)
  has_sock : bool;                 (* self.sock is not None *)
  sock_closed : bool;              (* self.sock.close() was called *)
  listener_closed : bool;          (* self.listener.close() was called *)
  accepting : bool;                (* the _accept thread has not returned *)
  reader : reader_state;
  wire : list string;              (* texts handed to a successful sendall *)
  puts : list (producer * event)   (* every q.put so far, in order *)
}.

Definition set_q c v := mkNetPlay (host_mode c) v (alive c) (has_sock c)
  (sock_closed c) (listener_closed c) (accepting c) (reader c) (wire c) (puts c).
Definition set_reader c v := mkNetPlay (host_mode c) (q c) (alive c) (has_sock c)
  (sock_closed c) (listener_closed c) (accepting c) v (wire c) (puts c).

(** [self.q.put(e)], remembering who called it. *)
Definition put (who : producer) (e : event) (c : netplay) : netplay :=
  mkNetPlay (host_mode c) (q c ++ [e]) (alive c) (has_sock c)
    (sock_closed c) (listener_closed c) (accepting c) (reader c) (wire c)
    (puts c ++ [(who, e)]).

(** [NetPlay('host', port=...)] once [bind] and [listen] succeeded. *)
Definition host_init : netplay :=
  mkNetPlay true [] true false false false true NotStarted [] [].

(** [NetPlay('join', ip, port)] once [connect] succeeded. *)
Definition join_init : netplay :=
  mkNetPlay false [] true true false false false (AtLoopHead []) [] [].

(** ** [send]

    [sendall_ok] is the environment's answer to [self.sock.sendall(raw)]
    on an open socket; on a socket object that was closed, [sendall]
    raises [OSError] whatever the peer does. *)
Definition send (d : json F) (sendall_ok : bool) (c : netplay) : netplay :=
  if negb (has_sock c) then c
  else
    let raw := Dumps.frame_record d in
    if negb (sock_closed c) && sendall_ok
    then mkNetPlay (host_mode c) (q c) (alive c) (has_sock c)
           (sock_closed c) (listener_closed c) (accepting c) (reader c)
           (wire c ++ [raw]) (puts c)
    else put Sender Closed c.

(** ** [poll] *)
Definition poll (c : netplay) : option event * netplay :=
  match q c with
  | [] => (None, c)
  | e :: r => (Some e, set_q c r)
  end.

(** ** [close]

    Both inner [close()] calls sit in [try ... except Exception: pass], so
    nothing they raise leaves the method. *)
Definition close (c : netplay) : netplay :=
  mkNetPlay (host_mode c) (q c) false (has_sock c)
    (if has_sock c then true else sock_closed c)
    (if host_mode c then true else listener_closed c)
    (accepting c) (reader c) (wire c) (puts c).

(** ** [_accept] *)
Definition accept_step (r : option (string * Z)) (c : netplay) : option netplay :=
  if accepting c then
    match r with
    | None =>
        let c1 := put Acceptor Closed c in
        Some (mkNetPlay (host_mode c1) (q c1) (alive c1) (has_sock c1)
                (sock_closed c1) (listener_closed c1) false (reader c1)
                (wire c1) (puts c1))
    | Some addr =>
        let c1 := put Acceptor (Connected addr) c in
        Some (mkNetPlay (host_mode c1) (q c1) (alive c1) true
                false (listener_closed c1) false (AtLoopHead [])
                (wire c1) (puts c1))
    end
  else None.

(** ** [_recv]

    The inner loop [while b'\n' in buf]: takes the records off the front
    of the buffer one by one and returns what is left of the buffer with
    the messages to enqueue, oldest first. *)
Equations? take_records (buf : list byte) : list byte * list event
  by wf (List.length buf) lt :=
  take_records buf with inspect (split_nl buf) := {
    | exist _ None _ => (buf, [])
    | exist _ (Some (line, rest)) _ =>
        match line with
        | [] => take_records rest                       (* continue *)
        | _ :: _ =>
            match loads line with
            | Some msg =>
                let '(buf', out) := take_records rest in
                (buf', Msg msg :: out)
            | None => take_records rest                  (* except: pass *)
            end
        end
    }.
Proof. all: eapply split_nl_shorter; eassumption. Qed.

Definition put_all (who : producer) (es : list event) (c : netplay) : netplay :=
  fold_left (fun c e => put who e c) es c.

(** The loop test [while self.alive]. *)
Definition reader_head (c : netplay) : option netplay :=
  match reader c with
  | AtLoopHead buf =>
      if alive c then Some (set_reader c (InRecv buf))
      else Some (put Reader Closed (set_reader c Finished))
  | _ => None
  end.

(** [s.recv(4096)] returns: [Some data] (empty at end of stream) or
    [None] when it raises.  The records of one read are enqueued in one
    step; [poll] calls that fall between two of these [put]s see a prefix
    and change nothing in the order of what is enqueued. *)
Definition reader_recv (r : option (list byte)) (c : netplay) : option netplay :=
  match reader c with
  | InRecv buf =>
      match r with
      | None | Some [] => Some (put Reader Closed (set_reader c Finished))
      | Some data =>
          let '(buf', out) := take_records (buf ++ data) in
          Some (put_all Reader out (set_reader c (AtLoopHead buf')))
      end
  | _ => None
  end.

(** ** Executions: the calls of the session loop interleaved with the
    steps of the two background threads. *)
Inductive action : Type :=
| ASend (d : json F) (sendall_ok : bool)
| APoll
| AClose
| AAccept (r : option (string * Z))
| AHead
| ARecv (r : option (list byte)).

Definition step (a : action) (c : netplay) : option netplay :=
  match a with
  | ASend d ok => Some (send d ok c)
  | APoll => Some (snd (poll c))
  | AClose => Some (close c)
  | AAccept r => accept_step r c
  | AHead => reader_head c
  | ARecv r => reader_recv r c
  end.

Fixpoint run (acts : list action) (c : netplay) : option netplay :=
  match acts with
  | [] => Some c
  | a :: rest =>
      match step a c with
      | Some c' => run rest c'
      | None => None
      end
  end.

Definition is_closed (e : event) : bool :=
  match e with Closed => true | _ => false end.

Definition by_reader (p : producer * event) : bool :=
  match p with (Reader, Closed) => true | _ => false end.

Definition closed_count (l : list (producer * event)) : nat :=
  List.length (filter (fun p => is_closed (snd p)) l).

End NetPlay.
End NetPlay.

Arguments NetPlay.event F : clear implicits.
Arguments NetPlay.netplay F : clear implicits.
Arguments NetPlay.action F : clear implicits.

(** What the session loop does to its channel, in order. *)
Inductive netop (F : Type) : Type :=
| OpSend (d : json F)      (* net.send(d) *)
| OpClose.                 (* net.close() *)
Arguments OpSend {F} d.
Arguments OpClose {F}.

(* ===================================================================== *)
(** * The rules engine (python-chess) *)
(* ===================================================================== *)

(** [chess.Move]: squares are ints 0..63, [promotion] a piece type. *)
Record move : Type := mkMove {
  from_square : Z;
  to_square : Z;
  promotion : option Z
}.

Definition move_eqb (a b : move) : bool :=
  (from_square a =? from_square b)%Z && (to_square a =? to_square b)%Z &&
  match promotion a, promotion b with
  | None, None => true
  | Some x, Some y => (x =? y)%Z
  | _, _ => false
  end.

(** The capabilities of [chess.Board] the program consumes, with two laws:
    [Board.push] hands the turn to the other side, and a legal move starts
    on a square that holds a piece. *)
Class RulesEngine (Board : Type) : Type := {
  start_position : Board;                      (* chess.Board() *)
  turn : Board -> bool;                        (* board.turn == chess.WHITE *)
  legal_moves : Board -> list move;            (* board.legal_moves *)
  push : Board -> move -> Board;               (* board.push(m) *)
  piece_at : Board -> Z -> option (Z * bool);  (* (piece_type, color) *)
  is_checkmate : Board -> bool;
  is_stalemate : Board -> bool;
  from_uci : string -> option move;            (* None: InvalidMoveError *)
  (* what chess.Move.from_uci raises when its argument is not a str *)
  from_uci_error : forall F : Type, json F -> exn;
  uci : move -> string;                        (* m.uci() *)
  push_turn : forall b m, turn (push b m) = negb (turn b);
  legal_from_occupied : forall b m,
    existsb (move_eqb m) (legal_moves b) = true ->
    piece_at b (from_square m) <> None
}.

(** [m in board.legal_moves] *)
Definition is_legal {Board} `{RulesEngine Board} (b : Board) (m : move) : bool :=
  existsb (move_eqb m) (legal_moves b).

(* ===================================================================== *)
(** * [main_game]: the play loop *)
(* ===================================================================== *)

Module MainGame.
Section MainGame.
Context {F : Type} `{PyFloat F} {Board : Type} `{RulesEngine Board}.
Import NetPlay.

Record game : Type := mkGame {
  board : Board;
  selected_square : option Z;
  valid_moves : list Z;
  game_over : bool;
  white_time : pynum F;
  black_time : pynum F;
  last_tick : F;
  white_to_move : bool;
  last_move : option (Z * Z);
  peer_left : bool;
  hint_enabled : bool;
  net_on : bool;                  (* net is not None *)
  local_color : option bool       (* Some true: chess.WHITE; None: solo *)
}.

(** The state [main_game] enters its loop with. *)
Definition new_game (w_time_sec b_time_sec : Z) (now : F)
    (net : bool) (color : option bool) : game :=
  mkGame start_position None [] false (PInt w_time_sec) (PInt b_time_sec)
    now true None false false net color.

(** ** What drawing can raise

    Of the drawing code only the exceptions matter here, and the one
    place that can raise on the state of the game is the clock display. *)

(** [fmt(t)] in [draw_sidebar]: [t = max(0, int(t))], then minutes and
    seconds; the seconds shown. *)
Definition fmt (t : pynum F) : res Z :=
  match t with
  | PInt z => Ok (Z.max 0 z)
  | PFloat x => bind (f_int x) (fun z => Ok (Z.max 0 z))
  end.

(** [draw_sidebar(white_time, black_time, ...)] *)
Definition draw_sidebar (g : game) : res unit :=
  bind (fmt (white_time g)) (fun _ =>
  bind (fmt (black_time g)) (fun _ => Ok tt)).

(** [animate_move(board, start, end, white_time, black_time, ...)]: the
    image of the piece on [start] is looked up, then every one of the 25
    frames draws the sidebar with the clocks as they are. *)
Definition animate_move (g : game) (start : Z) : res unit :=
  match piece_at (board g) start with
  | None => Raise AttributeError          (* None.symbol() *)
  | Some _ => draw_sidebar g
  end.

(** ** Network receive *)

(** The body of [if m in board.legal_moves:] for an inbound move: the
    animation, the push, then the clocks. *)
Definition apply_remote (g : game) (kv : list (string * json F)) (m : move)
  : res game :=
  bind (animate_move g (from_square m)) (fun _ =>
  let b' := push (board g) m in
  bind (match lookup "wtime" kv with              (* payload.get('wtime', white_time) *)
        | Some v => py_float v
        | None => float_of (white_time g)
        end) (fun wt =>
  bind (match lookup "btime" kv with
        | Some v => py_float v
        | None => float_of (black_time g)
        end) (fun bt =>
  Ok (mkGame b' (selected_square g) (valid_moves g)
        (if is_checkmate b' || is_stalemate b' then true else game_over g)
        (PFloat wt) (PFloat bt) (last_tick g)
        (turn b')
        (Some (from_square m, to_square m))
        (peer_left g) (hint_enabled g) (net_on g) (local_color g))))).

(** The branch [kind == 'msg' and payload.get('type') == 'move']. *)
Definition on_msg (g : game) (payload : json F) : res game :=
  bind (py_get payload "type") (fun ty =>
  if eq_str ty "move" then
    match payload with
    | JObj kv =>
        match lookup "uci" kv with
        | None => Raise KeyError                        (* payload['uci'] *)
        | Some (JStr u) =>
            match from_uci u with
            | None => Raise ValueError
            | Some m => if is_legal (board g) m then apply_remote g kv m
                        else Ok g
            end
        | Some v => Raise (from_uci_error F v)          (* from_uci(u), u not a str *)
        end
    | _ => Raise AttributeError
    end
  else Ok g).

(** The branch [kind == 'closed']. *)
Definition on_closed (g : game) : game :=
  mkGame (board g) (selected_square g) (valid_moves g) (game_over g)
    (white_time g) (black_time g) (last_tick g) (white_to_move g)
    (last_move g) true (hint_enabled g) false (local_color g).

(** One inbound event; the channel operations it causes come with it. *)
Definition on_event (g : game) (evt : event F) : res (game * list (netop F)) :=
  match evt with
  | Msg payload => bind (on_msg g payload) (fun g' => Ok (g', []))
  | Closed => Ok (on_closed g, [OpClose])
  | Connected _ => Ok (g, [])
  end.

(** The drain loop: [inbox] lists what [net.poll()] has to give, oldest
    first.  [evt = net.poll() if net else None]: after a ['closed'] event
    [net] is [None] and the loop ends. *)
Fixpoint drain_loop (g : game) (inbox : list (event F))
  : res (game * list (netop F)) :=
  if net_on g then
    match inbox with
    | [] => Ok (g, [])
    | evt :: rest =>
        bind (on_event g evt) (fun '(g', ops) =>
        bind (drain_loop g' rest) (fun '(g'', ops') => Ok (g'', ops ++ ops')))
    end
  else Ok (g, []).

(** [if net and not peer_left: ...] *)
Definition drain (g : game) (inbox : list (event F))
  : res (game * list (netop F)) :=
  if net_on g && negb (peer_left g) then drain_loop g inbox else Ok (g, []).

(** ** Clocks

    [white_time -= dt] on a clock that is still an int converts it with
    [float] first, which can raise. *)
Definition clock_step (dt : F) (g : game) : res game :=
  if negb (game_over g) && negb (peer_left g) then
    if white_to_move g then
      bind (float_of (white_time g)) (fun _ =>
      let wt := num_sub (white_time g) dt in
      Ok (mkGame (board g) (selected_square g) (valid_moves g)
            (if num_le0 wt then true else game_over g)
            wt (black_time g) (last_tick g) (white_to_move g)
            (last_move g) (peer_left g) (hint_enabled g) (net_on g)
            (local_color g)))
    else
      bind (float_of (black_time g)) (fun _ =>
      let bt := num_sub (black_time g) dt in
      Ok (mkGame (board g) (selected_square g) (valid_moves g)
            (if num_le0 bt then true else game_over g)
            (white_time g) bt (last_tick g) (white_to_move g)
            (last_move g) (peer_left g) (hint_enabled g) (net_on g)
            (local_color g)))
  else Ok g.

(** ** Local input *)

(** A mouse click, as the loop looks at it: which rectangles contain the
    pointer, the square under it ([mouse_to_square]), and what the
    promotion dialog answers if it is opened ([None]: the window is closed
    while the dialog is up).  The pointer is read with
    [pygame.mouse.get_pos()] when the event is handled, so the clicks of
    one frame normally carry one and the same position; event lists in
    which they differ are more than the program can meet. *)
Record click : Type := mkClick {
  in_leave : bool;                (* LEAVE_BTN *)
  in_exit : bool;                 (* EXIT_BTN_RECT *)
  in_new : bool;                  (* NEW_BTN_RECT *)
  in_hint : bool;                 (* HINT_BTN_RECT *)
  in_sidebar : bool;              (* pos[0] >= BOARD_SIZE *)
  square : option Z;
  promo : option Z
}.

Inductive ui_event : Type :=
| Quit                            (* pygame.QUIT *)
| MouseDown (c : click)           (* pygame.MOUSEBUTTONDOWN *)
| OtherEvent.

(** How an iteration of the loop, or a step inside it, ends. *)
Inductive outcome : Type :=
| Continue (g : game) (ops : list (netop F))
| Returned (ret : string) (ops : list (netop F))     (* return "exit" / "new" *)
| Exited (ops : list (netop F)).                     (* sys.exit() *)

Definition close_if_net (g : game) : list (netop F) :=
  if net_on g then [OpClose] else [].

(** The record a local move is announced with. *)
Definition move_record (g : game) (m : move) : json F :=
  JObj [("type", JStr "move"); ("uci", JStr (uci m));
        ("wtime", JNum (max0 (white_time g)));
        ("btime", JNum (max0 (black_time g)))].

(** The body of [if move in board.legal_moves:] for a local move: the
    animation, the push, the send, then the bookkeeping. *)
Definition play_local (g : game) (m : move) (sel sq : Z)
  : res (game * list (netop F)) :=
  bind (animate_move g sel) (fun _ =>
  let b' := push (board g) m in
  Ok (mkGame b' None []
        (if is_checkmate b' then true
         else if is_stalemate b' then true else game_over g)
        (white_time g) (black_time g) (last_tick g)
        (negb (white_to_move g))
        (Some (sel, sq))
        (peer_left g) (hint_enabled g) (net_on g) (local_color g),
      if net_on g && negb (peer_left g) then [OpSend (move_record g m)] else [])).

Definition set_selection (g : game) (sel : option Z) (vm : list Z) : game :=
  mkGame (board g) sel vm (game_over g) (white_time g) (black_time g)
    (last_tick g) (white_to_move g) (last_move g) (peer_left g)
    (hint_enabled g) (net_on g) (local_color g).

Definition toggle_hint (g : game) : game :=
  mkGame (board g) (selected_square g) (valid_moves g) (game_over g)
    (white_time g) (black_time g) (last_tick g) (white_to_move g)
    (last_move g) (peer_left g) (negb (hint_enabled g)) (net_on g)
    (local_color g).

(** A click on the board at square [sq], once the buttons, the game-over
    test and the turn test let it through. *)
Definition on_square (g : game) (c : click) (sq : Z) : res outcome :=
  match selected_square g with
  | None =>
      match piece_at (board g) sq with
      | Some (_, color) =>
          if Bool.eqb color (turn (board g)) then
            Ok (Continue
                  (set_selection g (Some sq)
                     (map to_square
                        (filter (fun m => (from_square m =? sq)%Z)
                           (legal_moves (board g))))) [])
          else Ok (Continue g [])
      | None => Ok (Continue g [])
      end
  | Some sel =>
      if existsb (Z.eqb sq) (valid_moves g) then
        match piece_at (board g) sel with
        | None => Raise AttributeError
        | Some (ptype, _) =>
            let try_move (m : move) : res outcome :=
              if is_legal (board g) m then
                bind (play_local g m sel sq) (fun '(g', ops) =>
                Ok (Continue g' ops))
              else Ok (Continue g []) in
            if (ptype =? 1)%Z && ((sq / 8 =? 0)%Z || (sq / 8 =? 7)%Z) then
              match promo c with
              | None => Ok (Exited [])
              | Some p => try_move (mkMove sel sq (Some p))
              end
            else try_move (mkMove sel sq None)
        end
      else Ok (Continue (set_selection g None []) [])
  end.

(** One event of [for event in pygame.event.get():]. *)
Definition on_ui (g : game) (e : ui_event) : res outcome :=
  match e with
  | Quit => Ok (Exited (close_if_net g))
  | OtherEvent => Ok (Continue g [])
  | MouseDown c =>
      if peer_left g then
        if in_leave c || in_exit c then Ok (Returned "exit" [])
        else Ok (Continue g [])
      else if in_new c then Ok (Returned "new" (close_if_net g))
      else if in_hint c then Ok (Continue (toggle_hint g) [])
      else if in_exit c then Ok (Returned "exit" (close_if_net g))
      else if in_sidebar c then Ok (Continue g [])
      else if game_over g then Ok (Continue g [])
      else if match local_color g with
              | Some col => negb (Bool.eqb (turn (board g)) col)
              | None => false
              end then Ok (Continue g [])
      else match square c with
           | None => Ok (Continue g [])
           | Some sq => on_square g c sq
           end
  end.

Fixpoint ui_loop (g : game) (es : list ui_event) : res outcome :=
  match es with
  | [] => Ok (Continue g [])
  | e :: rest =>
      bind (on_ui g e) (fun o =>
      match o with
      | Continue g' ops =>
          bind (ui_loop g' rest) (fun o' =>
          Ok match o' with
             | Continue g'' ops' => Continue g'' (ops ++ ops')
             | Returned r ops' => Returned r (ops ++ ops')
             | Exited ops' => Exited (ops ++ ops')
             end)
      | _ => Ok o
      end)
  end.

Definition set_last_tick (g : game) (now : F) : game :=
  mkGame (board g) (selected_square g) (valid_moves g) (game_over g)
    (white_time g) (black_time g) now (white_to_move g) (last_move g)
    (peer_left g) (hint_enabled g) (net_on g) (local_color g).

(** ** One iteration of [while True:] in [main_game], up to the drawing:
    the inbox is drained, then the clock of the side to move runs down,
    then local input is handled. *)
Definition tick (now : F) (inbox : list (event F)) (es : list ui_event)
    (g : game) : res outcome :=
  let dt := f_sub now (last_tick g) in
  let g0 := set_last_tick g now in
  bind (drain g0 inbox) (fun '(g1, ops1) =>
  bind (clock_step dt g1) (fun g2 =>
  bind (ui_loop g2 es) (fun o =>
  Ok match o with
     | Continue g3 ops => Continue g3 (ops1 ++ ops)
     | Returned r ops => Returned r (ops1 ++ ops)
     | Exited ops => Exited (ops1 ++ ops)
     end))).

(** Several iterations with the drawing left out: each takes the time,
    what the inbox yields and the pending input events.  The run stops at
    the first iteration that leaves the loop.  Every run of [main_loop]
    below that does not raise is a run of [ticks]. *)
Fixpoint ticks (frames : list (F * list (event F) * list ui_event))
    (g : game) : res outcome :=
  match frames with
  | [] => Ok (Continue g [])
  | (now, inbox, es) :: rest =>
      bind (tick now inbox es g) (fun o =>
      match o with
      | Continue g' ops =>
          bind (ticks rest g') (fun o' =>
          Ok match o' with
             | Continue g'' ops' => Continue g'' (ops ++ ops')
             | Returned r ops' => Returned r (ops ++ ops')
             | Exited ops' => Exited (ops ++ ops')
             end)
      | _ => Ok o
      end)
  end.

(** The drawing that ends an iteration ([# ---- DRAW FRAME ----]): the
    board, the overlays and the sidebar with both clocks. *)
Definition draw_frame (g : game) : res unit := draw_sidebar g.

(** One whole iteration of [while True:]: [tick], and the drawing when the
    loop was not left. *)
Definition iteration (now : F) (inbox : list (event F)) (es : list ui_event)
    (g : game) : res outcome :=
  bind (tick now inbox es g) (fun o =>
  match o with
  | Continue g' _ => bind (draw_frame g') (fun _ => Ok o)
  | _ => Ok o
  end).

(** The loop of [main_game]. *)
Fixpoint main_loop (frames : list (F * list (event F) * list ui_event))
    (g : game) : res outcome :=
  match frames with
  | [] => Ok (Continue g [])
  | (now, inbox, es) :: rest =>
      bind (iteration now inbox es g) (fun o =>
      match o with
      | Continue g' ops =>
          bind (main_loop rest g') (fun o' =>
          Ok match o' with
             | Continue g'' ops' => Continue g'' (ops ++ ops')
             | Returned r ops' => Returned r (ops ++ ops')
             | Exited ops' => Exited (ops ++ ops')
             end)
      | _ => Ok o
      end)
  end.

End MainGame.
End MainGame.

Arguments MainGame.game F Board : clear implicits.
Arguments MainGame.outcome F Board : clear implicits.

(* ===================================================================== *)
(** * [color_select_screen] *)
(* ===================================================================== *)

Module ColorSelect.
Section ColorSelect.
Context {F : Type} `{PyFloat F}.
Import NetPlay.

(** The local variables of the screen.  The three counters are
    instrumentation: how often a colour button was pressed, and how often
    each of the three places that turn a choice around did so. *)
Record screen : Type := mkScreen {
  local_choice : option string;
  remote_choice : json F;
  sent : bool;
  picks : nat;              (* colour buttons pressed *)
  pick_flips : nat;         (* [if remote_choice == desired] taken *)
  rx_flips : nat;           (* collision found when the peer's choice arrived *)
  final_flips : nat         (* collision found at resolution *)
}.

Definition screen_init : screen :=
  mkScreen None JNull false 0 0 0 0.

(** ['black' if c == 'white' else 'white'] *)
Definition other_side (c : string) : string :=
  if (c =? "white") then "black" else "white".

(** Truthiness of [local_choice]. *)
Definition chosen (l : option string) : bool :=
  match l with
  | Some s => negb (s =? EmptyString)
  | None => false
  end.

(** [local_choice == v] *)
Definition same_choice (l : option string) (v : json F) : bool :=
  match l with
  | Some s => eq_str v s
  | None => false
  end.

Definition choose_record (c : string) : json F :=
  JObj [("type", JStr "choose"); ("color", JStr c)].

(** How the poll loop, the event loop or a whole frame ends. *)
Inductive outcome : Type :=
| Continue (s : screen) (ops : list (netop F))
| Returned (r : option string) (s : screen) (ops : list (netop F))
| Exited (ops : list (netop F)).

(** The branch [kind == 'msg' and payload.get('type') == 'choose']. *)
Definition on_msg (s : screen) (payload : json F) : res screen :=
  bind (py_get payload "type") (fun ty =>
  if eq_str ty "choose" then
    bind (py_get payload "color") (fun r =>
    if chosen (local_choice s) && same_choice (local_choice s) r then
      Ok (mkScreen (option_map other_side (local_choice s)) r (sent s)
            (picks s) (pick_flips s) (S (rx_flips s)) (final_flips s))
    else
      Ok (mkScreen (local_choice s) r (sent s)
            (picks s) (pick_flips s) (rx_flips s) (final_flips s)))
  else Ok s).

(** The poll loop of one frame. *)
Fixpoint poll_loop (s : screen) (inbox : list (event F)) : res outcome :=
  match inbox with
  | [] => Ok (Continue s [])
  | Msg payload :: rest => bind (on_msg s payload) (fun s' => poll_loop s' rest)
  | Closed :: _ => Ok (Returned None s [OpClose])
  | Connected _ :: rest => poll_loop s rest
  end.

Inductive ui_event : Type :=
| Quit                 (* pygame.QUIT *)
| ClickWhite           (* mouse down inside WHITE_BTN *)
| ClickBlack           (* ... inside BLACK_BTN *)
| ClickCancel          (* ... inside CANCEL_BTN *)
| ClickElsewhere       (* mouse down anywhere else *)
| OtherEvent.

(** The body of [if desired:]. *)
Definition pick (s : screen) (desired : string) : screen * list (netop F) :=
  let taken := eq_str (remote_choice s) desired in
  let mine := if taken then other_side desired else desired in
  (mkScreen (Some mine) (remote_choice s) true
     (S (picks s))
     (if taken then S (pick_flips s) else pick_flips s)
     (rx_flips s) (final_flips s),
   if sent s then [] else [OpSend (choose_record mine)]).

Definition on_ui (s : screen) (e : ui_event) : outcome :=
  match e with
  | Quit => Exited [OpClose]
  | ClickWhite => let '(s', ops) := pick s "white" in Continue s' ops
  | ClickBlack => let '(s', ops) := pick s "black" in Continue s' ops
  | ClickCancel => Returned None s [OpClose]
  | ClickElsewhere | OtherEvent => Continue s []
  end.

Definition prepend (ops : list (netop F)) (o : outcome) : outcome :=
  match o with
  | Continue s ops' => Continue s (ops ++ ops')
  | Returned r s ops' => Returned r s (ops ++ ops')
  | Exited ops' => Exited (ops ++ ops')
  end.

Fixpoint ui_loop (s : screen) (es : list ui_event) : outcome :=
  match es with
  | [] => Continue s []
  | e :: rest =>
      match on_ui s e with
      | Continue s' ops => prepend ops (ui_loop s' rest)
      | o => o
      end
  end.

(** The test at the bottom of the frame: [if local_choice and
    remote_choice: ...; return local_choice]. *)
Definition resolve (s : screen) : outcome :=
  if chosen (local_choice s) && truthy (remote_choice s) then
    if same_choice (local_choice s) (remote_choice s) then
      let s' := mkScreen (option_map other_side (local_choice s))
                  (remote_choice s) (sent s) (picks s) (pick_flips s)
                  (rx_flips s) (S (final_flips s)) in
      Returned (local_choice s') s' []
    else Returned (local_choice s) s []
  else Continue s [].

(** One iteration of the screen's [while True:]: [inbox] is what
    [net.poll()] yields during the poll loop, [es] the pending input. *)
Definition frame (s : screen) (inbox : list (event F)) (es : list ui_event)
  : res outcome :=
  bind (poll_loop s inbox) (fun o =>
  match o with
  | Continue s1 ops1 =>
      match ui_loop s1 es with
      | Continue s2 ops2 => Ok (prepend (ops1 ++ ops2) (resolve s2))
      | o2 => Ok (prepend ops1 o2)
      end
  | _ => Ok o
  end).

(** The whole screen on a sequence of frames; [None] when the frames run
    out before the screen is left. *)
Fixpoint color_select_screen (s : screen)
    (frames : list (list (event F) * list ui_event))
  : res (option outcome) :=
  match frames with
  | [] => Ok None
  | (inbox, es) :: rest =>
      bind (frame s inbox es) (fun o =>
      match o with
      | Continue s' ops =>
          bind (color_select_screen s' rest) (fun r =>
          Ok (option_map (prepend ops) r))
      | _ => Ok (Some o)
      end)
  end.

End ColorSelect.
End ColorSelect.

Arguments ColorSelect.screen F : clear implicits.
Arguments ColorSelect.outcome F : clear implicits.

(* ===================================================================== *)
(** * Two peers negotiating *)
(* ===================================================================== *)

(** Both peers run [color_select_screen] over one connection.  What a peer
    sends is appended to the other peer's inbox; a frame polls some prefix
    of the inbox (whatever has arrived by then).  When a peer closes its
    channel the other one reads end of stream after the data in flight. *)
Module Negotiation.
Section Negotiation.
Context {F : Type} `{PyFloat F}.
Import NetPlay ColorSelect.

Inductive status : Type :=
| Running
| Done (r : option string)       (* the screen returned [r] *)
| Gone                           (* sys.exit() *)
| Crashed (e : exn).

Record peer : Type := mkPeer {
  scr : screen F;
  inbox : list (event F);
  stat : status;
  announced : list string;       (* colours sent, oldest first *)
  heard : list (event F)         (* events polled so far *)
}.

Definition peer_init : peer := mkPeer screen_init [] Running [] [].

(** The colour of a choose record. *)
Definition sent_color (d : json F) : list string :=
  match d with
  | JObj [(_, _); (_, JStr c)] => [c]
  | _ => []
  end.

Fixpoint colors_of (ops : list (netop F)) : list string :=
  match ops with
  | [] => []
  | OpSend d :: r => sent_color d ++ colors_of r
  | OpClose :: r => colors_of r
  end.

(** What the other side receives for a list of channel operations. *)
Fixpoint deliveries (ops : list (netop F)) : list (event F) :=
  match ops with
  | [] => []
  | OpSend d :: r => Msg d :: deliveries r
  | OpClose :: r => Closed :: deliveries r
  end.

(** One frame of a peer that polls the first [k] pending events. *)
Definition peer_frame (k : nat) (es : list ui_event) (p : peer)
  : peer * list (netop F) :=
  match stat p with
  | Running =>
      let polled := firstn k (inbox p) in
      let left := skipn k (inbox p) in
      match frame (scr p) polled es with
      | Raise e => (mkPeer (scr p) left (Crashed e) (announced p)
                      (heard p ++ polled), [])
      | Ok (Continue s ops) =>
          (mkPeer s left Running (announced p ++ colors_of ops)
             (heard p ++ polled), ops)
      | Ok (Returned r s ops) =>
          (mkPeer s left (Done r) (announced p ++ colors_of ops)
             (heard p ++ polled), ops)
      | Ok (Exited ops) =>
          (mkPeer (scr p) left Gone (announced p ++ colors_of ops)
             (heard p ++ polled), ops)
      end
  | _ => (p, [])
  end.

Definition receive (es : list (event F)) (p : peer) : peer :=
  mkPeer (scr p) (inbox p ++ es) (stat p) (announced p) (heard p).

(** A scheduling choice: which peer runs a frame ([true]: the first), how
    many pending events it polls, and its input events. *)
Definition choice : Type := bool * nat * list ui_event.

Definition sys_step (c : choice) (sys : peer * peer) : peer * peer :=
  let '(who, k, es) := c in
  let '(a, b) := sys in
  if who then
    let '(a', ops) := peer_frame k es a in (a', receive (deliveries ops) b)
  else
    let '(b', ops) := peer_frame k es b in (receive (deliveries ops) a, b').

Definition negotiate (sched : list choice) : peer * peer :=
  fold_left (fun sys c => sys_step c sys) sched (peer_init, peer_init).

(** Both peers turned their choice around on receipt of the other's
    announcement: the simultaneous-flip race. *)
Definition race (sys : peer * peer) : Prop :=
  rx_flips (scr (fst sys)) >= 1 /\ rx_flips (scr (snd sys)) >= 1.

Definition flips (p : peer) : nat :=
  pick_flips (scr p) + rx_flips (scr p) + final_flips (scr p).

End Negotiation.
End Negotiation.

(* ===================================================================== *)
(** * Instances used in the examples *)
(* ===================================================================== *)

(** A text holds no newline character. *)
Definition one_line (s : string) : Prop :=
  forall c, In c (list_ascii_of_string s) -> c <> "010"%char.

Lemma one_line_app s t : one_line s -> one_line t -> one_line (s ++ t)%string.
Proof.
  unfold one_line; induction s as [|a s IH]; simpl; intros Hs Ht c Hc.
  - now apply Ht.
  - destruct Hc as [Hc|Hc].
    + apply Hs. left. exact Hc.
    + apply IH; auto.
Qed.

Lemma one_line_cons a s :
  a <> "010"%char -> one_line s -> one_line (String a s).
Proof.
  intros Ha Hs c [<-|Hc]; [exact Ha|now apply Hs].
Qed.

Lemma one_line_empty : one_line EmptyString.
Proof. intros c []. Qed.

Create HintDb oneline.
#[local] Hint Resolve one_line_app one_line_cons one_line_empty : oneline.

Lemma one_line_uint d : one_line (NilEmpty.string_of_uint d).
Proof.
  induction d; simpl; auto with oneline;
    apply one_line_cons; auto; discriminate.
Qed.

Lemma one_line_int z : one_line (Dumps.int_repr z).
Proof.
  unfold Dumps.int_repr, NilZero.string_of_int, NilZero.string_of_uint.
  destruct (Z.to_int z) as [d|d].
  - destruct d; try (apply one_line_cons; [discriminate|]);
      try apply one_line_uint. apply one_line_empty.
  - apply one_line_cons; [discriminate|].
    destruct d; try (apply one_line_cons; [discriminate|]);
      try apply one_line_uint. apply one_line_empty.
Qed.

(** Floats that hold whole numbers, which [float] arithmetic treats exactly
    below 2^53: [repr(300.0)] is ['300.0'], [float('12')] is [12.0]. *)
Definition whole_repr (z : Z) : string := (Dumps.int_repr z ++ ".0")%string.

Definition whole_parse (s : string) : option Z :=
  option_map Z.of_int (NilZero.int_of_string s).

Lemma whole_repr_line a c :
  In c (list_ascii_of_string (whole_repr a)) -> c <> "010"%char.
Proof.
  apply (one_line_app (Dumps.int_repr a) ".0").
  - apply one_line_int.
  - repeat (apply one_line_cons; [discriminate|]). apply one_line_empty.
Qed.

#[global] Instance WholeFloat : PyFloat Z := {
  f_fits := fun z => (Z.abs z <? 2 ^ 1024)%Z;
  f_of_Z := fun z => z;
  f_sub := Z.sub;
  f_le0 := fun z => (z <=? 0)%Z;
  f_gt0 := fun z => (0 <? z)%Z;
  f_is_zero := fun z => (z =? 0)%Z;
  f_int := fun z => Ok z;
  f_parse := whole_parse;
  f_repr := whole_repr;
  f_eq_dec := Z.eq_dec;
  f_repr_line := whole_repr_line
}.

(** Whole floats together with the special values: the two infinities and
    NaN, which [json.loads] reads from [Infinity], [-Infinity] and [NaN]
    and [float] from ['inf'], ['-inf'] and ['nan'] (of the spellings
    [float] accepts these three are read here).  A comparison with NaN is
    false, [int] raises on NaN and on an infinity. *)
Inductive special : Type :=
| Whole (z : Z)
| Inf (negative : bool)
| NaN.

Definition special_sub (a b : special) : special :=
  match a, b with
  | NaN, _ | _, NaN => NaN
  | Whole x, Whole y => Whole (x - y)
  | Whole _, Inf n => Inf (negb n)
  | Inf n, Whole _ => Inf n
  | Inf n, Inf m => if Bool.eqb n m then NaN else Inf n
  end.

Definition special_int (a : special) : res Z :=
  match a with
  | Whole z => Ok z
  | Inf _ => Raise OverflowError
  | NaN => Raise ValueError
  end.

Definition special_parse (s : string) : option special :=
  if (s =? "nan")%string then Some NaN
  else if (s =? "inf")%string then Some (Inf false)
  else if (s =? "-inf")%string then Some (Inf true)
  else option_map Whole (whole_parse s).

Definition special_repr (a : special) : string :=
  match a with
  | Whole z => whole_repr z
  | Inf false => "Infinity"
  | Inf true => "-Infinity"
  | NaN => "NaN"
  end.

Lemma special_eq_dec (a b : special) : {a = b} + {a <> b}.
Proof. decide equality; [apply Z.eq_dec|apply Bool.bool_dec]. Defined.

Lemma special_repr_line a c :
  In c (list_ascii_of_string (special_repr a)) -> c <> "010"%char.
Proof.
  destruct a as [z|[|]|]; simpl.
  - apply whole_repr_line.
  - intros Hc. repeat (destruct Hc as [<-|Hc]; [discriminate|]). destruct Hc.
  - intros Hc. repeat (destruct Hc as [<-|Hc]; [discriminate|]). destruct Hc.
  - intros Hc. repeat (destruct Hc as [<-|Hc]; [discriminate|]). destruct Hc.
Qed.

#[global] Instance SpecialFloat : PyFloat special := {
  f_fits := fun z => (Z.abs z <? 2 ^ 1024)%Z;
  f_of_Z := Whole;
  f_sub := special_sub;
  f_le0 := fun a => match a with
                    | Whole z => (z <=? 0)%Z
                    | Inf n => n
                    | NaN => false
                    end;
  f_gt0 := fun a => match a with
                    | Whole z => (0 <? z)%Z
                    | Inf n => negb n
                    | NaN => false
                    end;
  f_is_zero := fun a => match a with
                        | Whole z => (z =? 0)%Z
                        | _ => false
                        end;
  f_int := special_int;
  f_parse := special_parse;
  f_repr := special_repr;
  f_eq_dec := special_eq_dec;
  f_repr_line := special_repr_line
}.

(** A small rules engine: the position is the list of moves played, White
    may open with e2e4 or d2d4 and Black may answer e7e5; nothing else is
    legal.  Moves are written in UCI: file letter and rank digit of both
    squares, then the promotion letter. *)
Module Opening.

Definition file_of (c : ascii) : option Z :=
  let n := Z.of_nat (nat_of_ascii c) in
  if ((97 <=? n) && (n <=? 104))%Z then Some (n - 97)%Z else None.

Definition rank_of (c : ascii) : option Z :=
  let n := Z.of_nat (nat_of_ascii c) in
  if ((49 <=? n) && (n <=? 56))%Z then Some (n - 49)%Z else None.

Definition square_of (f r : ascii) : option Z :=
  match file_of f, rank_of r with
  | Some x, Some y => Some (y * 8 + x)%Z
  | _, _ => None
  end.

Definition piece_of (c : ascii) : option Z :=
  match c with
  | "n" => Some 2 | "b" => Some 3 | "r" => Some 4 | "q" => Some 5
  | _ => None
  end%char%Z.

Definition parse_uci (s : string) : option move :=
  match s with
  | String f1 (String r1 (String f2 (String r2 rest))) =>
      match square_of f1 r1, square_of f2 r2 with
      | Some a, Some b =>
          match rest with
          | EmptyString => Some (mkMove a b None)
          | String p EmptyString =>
              match piece_of p with
              | Some t => Some (mkMove a b (Some t))
              | None => None
              end
          | _ => None
          end
      | _, _ => None
      end
  | _ => None
  end.

Definition square_name (sq : Z) : string :=
  String (ascii_of_nat (Z.to_nat (97 + sq mod 8)))
    (String (ascii_of_nat (Z.to_nat (49 + sq / 8))) EmptyString).

Definition print_uci (m : move) : string :=
  (square_name (from_square m) ++ square_name (to_square m) ++
   match promotion m with
   | Some 2%Z => "n" | Some 3%Z => "b" | Some 4%Z => "r" | Some _ => "q"
   | None => EmptyString
   end)%string.

Definition e2e4 : move := mkMove 12 28 None.
Definition d2d4 : move := mkMove 11 27 None.
Definition e7e5 : move := mkMove 52 36 None.

Definition white_turn (b : list move) : bool := Nat.even (List.length b).

Definition moves (b : list move) : list move :=
  match b with
  | [] => [e2e4; d2d4]
  | [_] => [e7e5]
  | _ => []
  end.

Definition pieces (b : list move) (sq : Z) : option (Z * bool) :=
  if existsb (fun m => (from_square m =? sq)%Z) (moves b)
  then Some (1%Z, white_turn b) else None.

Lemma push_flips (b : list move) (m : move) :
  white_turn (b ++ [m]) = negb (white_turn b).
Proof.
  unfold white_turn. rewrite length_app. simpl.
  now rewrite Nat.add_1_r, Nat.even_succ, <- Nat.negb_even.
Qed.

Lemma moves_start_on_pieces (b : list move) (m : move) :
  existsb (move_eqb m) (moves b) = true -> pieces b (from_square m) <> None.
Proof.
  intros Hm. unfold pieces.
  replace (existsb (fun m' => (from_square m' =? from_square m)%Z) (moves b))
    with true; [discriminate|].
  symmetry. apply existsb_exists. apply existsb_exists in Hm as (m' & Hin & E).
  exists m'. split; [exact Hin|].
  unfold move_eqb in E. apply andb_true_iff in E as [E _].
  apply andb_true_iff in E as [E _].
  apply Z.eqb_eq in E. apply Z.eqb_eq. congruence.
Qed.

(** What this engine raises on a value that is not a str: a list or a
    dict passes the length test of [from_uci] and ends in
    [InvalidMoveError], a [ValueError], as it does in python-chess when
    the length is not 4 or 5; the other values have no length. *)
Definition uci_error (F : Type) (v : json F) : exn :=
  match v with
  | JArr _ | JObj _ => ValueError
  | _ => TypeError
  end.

#[global] Instance engine : RulesEngine (list move) := {
  start_position := [];
  turn := white_turn;
  legal_moves := moves;
  push := fun b m => b ++ [m];
  piece_at := pieces;
  is_checkmate := fun _ => false;
  is_stalemate := fun b => match b with [_; _] => true | _ => false end;
  from_uci := parse_uci;
  from_uci_error := uci_error;
  uci := print_uci;
  push_turn := push_flips;
  legal_from_occupied := moves_start_on_pieces
}.

End Opening.

(* ===================================================================== *)
(** * Properties of the wire format *)
(* ===================================================================== *)

Section DumpsFacts.
Context {F : Type} `{PyFloat F}.
Import Dumps.

Lemma hex_digit_line n : hex_digit n <> "010"%char.
Proof.
  unfold hex_digit.
  do 15 (destruct n as [|n]; [discriminate|]). discriminate.
Qed.

Lemma one_line_escape_char c : one_line (escape_char c).
Proof.
  unfold escape_char.
  repeat match goal with
         | |- one_line (if ?b then _ else _) => destruct b eqn:?
         end;
    try (repeat (apply one_line_cons; [discriminate|]); apply one_line_empty).
  - apply one_line_cons; [|apply one_line_empty].
    intros ->. cbn in *. discriminate.
  - cbn [append].
    do 4 (apply one_line_cons; [discriminate|]).
    do 2 (apply one_line_cons; [apply hex_digit_line|]).
    apply one_line_empty.
Qed.

Lemma one_line_escape s : one_line (escape s).
Proof.
  induction s as [|c s IH]; simpl.
  - apply one_line_empty.
  - apply one_line_app; [apply one_line_escape_char | exact IH].
Qed.

Lemma one_line_quote s : one_line (quote s).
Proof.
  unfold quote. apply one_line_cons; [discriminate|].
  apply one_line_app; [apply one_line_escape|].
  apply one_line_cons; [discriminate|apply one_line_empty].
Qed.

Lemma one_line_num n : one_line (num_repr n).
Proof.
  destruct n as [z|x]; simpl.
  - apply one_line_int.
  - intros c Hc. exact (f_repr_line x c Hc).
Qed.

Lemma one_line_lit (s : string) :
  forallb (fun c => negb (Ascii.eqb c "010"%char)) (list_ascii_of_string s) = true ->
  one_line s.
Proof.
  intros Hall c Hc. rewrite forallb_forall in Hall.
  specialize (Hall c Hc). intros ->. discriminate.
Qed.

(** [json.dumps] never emits a raw newline, whatever the value. *)
Lemma one_line_dumps (v : json F) : one_line (dumps v).
Proof.
  induction v as [ | b | n | s | l IHl | kv IHkv ] using json_induction.
  - now apply one_line_lit.
  - destruct b; now apply one_line_lit.
  - apply one_line_num.
  - apply one_line_quote.
  - cbn [dumps]. apply one_line_app; [now apply one_line_lit|].
    apply one_line_app; [|now apply one_line_lit].
    induction IHl as [|x l Hx Hl IH]; [apply one_line_empty|].
    destruct l as [|y l']; [exact Hx|].
    apply one_line_app; [exact Hx|].
    apply one_line_app; [now apply one_line_lit|exact IH].
  - cbn [dumps]. apply one_line_app; [now apply one_line_lit|].
    apply one_line_app; [|now apply one_line_lit].
    induction IHkv as [|[k x] kv Hx Hkv IH]; [apply one_line_empty|].
    simpl in Hx.
    destruct kv as [|y kv'].
    + apply one_line_app; [apply one_line_quote|].
      apply one_line_app; [now apply one_line_lit|exact Hx].
    + apply one_line_app; [apply one_line_quote|].
      apply one_line_app; [now apply one_line_lit|].
      apply one_line_app; [exact Hx|].
      apply one_line_app; [now apply one_line_lit|exact IH].
Qed.

End DumpsFacts.

(* ===================================================================== *)
(** * Properties of the channel *)
(* ===================================================================== *)

Module NetPlayFacts.
Section NetPlayFacts.
Context {F : Type} `{PyFloat F}.
Variable loads : list byte -> option (json F).
Import NetPlay.

(** ** The record loop *)

(** Bytes of one record: no delimiter inside. *)
Definition record_bytes (r : list byte) : Prop :=
  forallb (fun b => negb (Byte.eqb b x0a)) r = true.

(** Records as they sit in the buffer: each followed by the delimiter,
    then the beginning of a record that is not complete yet. *)
Definition buffered (rs : list (list byte)) (partial : list byte) : list byte :=
  flat_map (fun r => r ++ [x0a]) rs ++ partial.

(** What a record contributes to the inbox: nothing when it is empty or
    does not decode, its message otherwise. *)
Definition decoded (r : list byte) : list (event F) :=
  match r with
  | [] => []
  | _ :: _ => match loads r with
              | Some msg => [Msg msg]
              | None => []
              end
  end.

Lemma take_records_unfold buf :
  take_records loads buf =
  match split_nl buf with
  | None => (buf, [])
  | Some (line, rest) =>
      match line with
      | [] => take_records loads rest
      | _ :: _ =>
          match loads line with
          | Some msg =>
              let '(buf', out) := take_records loads rest in
              (buf', Msg msg :: out)
          | None => take_records loads rest
          end
      end
  end.
Proof.
  rewrite take_records_equation_1. unfold take_records_unfold_clause_1 at 1.
  simpl. destruct (split_nl buf) as [[line rest]|]; reflexivity.
Qed.

Lemma split_nl_record r tail :
  record_bytes r -> split_nl (r ++ x0a :: tail) = Some (r, tail).
Proof.
  unfold record_bytes. induction r as [|b r IH]; simpl; intros Hr.
  - reflexivity.
  - apply andb_true_iff in Hr as [Hb Hr].
    destruct (Byte.eqb b x0a); [discriminate|].
    now rewrite (IH Hr).
Qed.

Lemma split_nl_partial r : record_bytes r -> split_nl r = None.
Proof.
  unfold record_bytes. induction r as [|b r IH]; simpl; intros Hr.
  - reflexivity.
  - apply andb_true_iff in Hr as [Hb Hr].
    destruct (Byte.eqb b x0a); [discriminate|].
    now rewrite (IH Hr).
Qed.

(** The loop takes every complete record off the buffer, decodes each one
    on its own and keeps the incomplete rest. *)
Lemma take_records_buffered rs partial :
  Forall record_bytes rs -> record_bytes partial ->
  take_records loads (buffered rs partial) = (partial, flat_map decoded rs).
Proof.
  intros Hrs Hp. induction Hrs as [|r rs Hr Hrs IH].
  - unfold buffered; simpl. rewrite take_records_unfold.
    now rewrite (split_nl_partial _ Hp).
  - unfold buffered in *; simpl. rewrite take_records_unfold.
    rewrite <- !app_assoc. simpl.
    rewrite (split_nl_record _ _ Hr), IH.
    destruct r as [|b r]; [reflexivity|].
    change (decoded (b :: r))
      with (match loads (b :: r) with Some msg => [Msg msg] | None => [] end).
    destruct (loads (b :: r)); reflexivity.
Qed.

(** Every buffer is a sequence of complete records and an incomplete rest,
    so the lemma above covers whatever [recv] returns. *)
Lemma buffered_total (buf : list byte) :
  exists rs partial,
    buf = buffered rs partial /\
    Forall record_bytes rs /\ record_bytes partial.
Proof.
  induction buf as [|b buf (rs & partial & -> & Hrs & Hp)].
  - exists [], []. repeat split; constructor.
  - destruct (Byte.eqb b x0a) eqn:Eb.
    + apply Byte.byte_dec_bl in Eb. subst b.
      exists ([] :: rs), partial.
      split; [reflexivity|]. split; [|exact Hp].
      constructor; [reflexivity|exact Hrs].
    + destruct rs as [|r rs].
      * exists [], (b :: partial).
        split; [reflexivity|]. split; [constructor|].
        unfold record_bytes in *. simpl. now rewrite Eb.
      * exists ((b :: r) :: rs), partial.
        split; [reflexivity|]. split; [|exact Hp].
        inversion Hrs; subst. constructor; auto.
        unfold record_bytes in *. simpl. now rewrite Eb.
Qed.

Definition is_msg (e : event F) : bool :=
  match e with Msg _ => true | _ => false end.

Lemma take_records_msgs buf :
  forallb is_msg (snd (take_records loads buf)) = true.
Proof.
  remember (List.length buf) as n eqn:Hn.
  revert buf Hn. induction n as [n IH] using lt_wf_ind. intros buf ->.
  rewrite take_records_unfold.
  destruct (split_nl buf) as [[line rest]|] eqn:E; [|reflexivity].
  pose proof (split_nl_shorter _ _ _ E) as Hlt.
  pose proof (IH _ Hlt rest eq_refl) as IHrest.
  destruct line as [|b line]; [exact IHrest|].
  destruct (loads (b :: line)); [|exact IHrest].
  destruct (take_records loads rest) as [buf' out]. exact IHrest.
Qed.

(** ** Who enqueues what *)

Definition sender_closed (p : producer * event F) : bool :=
  match p with (Sender, Closed) => true | _ => false end.

Definition acceptor_closed (p : producer * event F) : bool :=
  match p with (Acceptor, Closed) => true | _ => false end.

Definition reader_closed_count (l : list (producer * event F)) : nat :=
  List.length (filter by_reader l).

(** What was enqueued after the read thread's ['closed']. *)
Fixpoint after_reader_closed (l : list (producer * event F))
  : list (producer * event F) :=
  match l with
  | [] => []
  | p :: r => if by_reader p then r else after_reader_closed r
  end.

Definition init (host : bool) : netplay F :=
  if host then host_init else join_init.

(** The shape of every reachable channel. *)
Definition channel_inv (c : netplay F) : Prop :=
  match reader c with
  | NotStarted =>
      has_sock c = false /\
      (if accepting c then puts c = [] else puts c = [(Acceptor, Closed)])
  | AtLoopHead _ | InRecv _ =>
      has_sock c = true /\ accepting c = false /\
      filter by_reader (puts c) = [] /\
      filter acceptor_closed (puts c) = []
  | Finished =>
      has_sock c = true /\ accepting c = false /\
      reader_closed_count (puts c) = 1 /\
      filter acceptor_closed (puts c) = [] /\
      forallb sender_closed (after_reader_closed (puts c)) = true
  end.

Lemma puts_put_all who es (c : netplay F) :
  puts (put_all who es c) = puts c ++ map (pair who) es.
Proof.
  revert c; induction es as [|e es IH]; intros c; simpl.
  - now rewrite app_nil_r.
  - rewrite IH. simpl. now rewrite <- app_assoc.
Qed.

Lemma q_put_all who es (c : netplay F) : q (put_all who es c) = q c ++ es.
Proof.
  revert c; induction es as [|e es IH]; intros c; simpl.
  - now rewrite app_nil_r.
  - rewrite IH. simpl. now rewrite <- app_assoc.
Qed.

Lemma put_all_frame who es (c : netplay F) :
  reader (put_all who es c) = reader c /\
  has_sock (put_all who es c) = has_sock c /\
  accepting (put_all who es c) = accepting c /\
  alive (put_all who es c) = alive c /\
  sock_closed (put_all who es c) = sock_closed c /\
  wire (put_all who es c) = wire c.
Proof.
  revert c; induction es as [|e es IH]; intros c; simpl; [tauto|].
  destruct (IH (put who e c)) as (-> & -> & -> & -> & -> & ->). simpl. tauto.
Qed.

Lemma filter_msgs_none (f : producer * event F -> bool) who es :
  (forall w d, f (w, Msg d) = false) ->
  forallb is_msg es = true ->
  filter f (map (pair who) es) = [].
Proof.
  intros Hf. induction es as [|e es IH]; simpl; [reflexivity|].
  intros Hes. apply andb_true_iff in Hes as [He Hes].
  destruct e; try discriminate. rewrite Hf. now apply IH.
Qed.

Lemma after_reader_closed_app l m :
  filter by_reader l <> [] ->
  after_reader_closed (l ++ m) = after_reader_closed l ++ m.
Proof.
  induction l as [|p l IH]; simpl; [congruence|].
  destruct (by_reader p); [reflexivity|exact IH].
Qed.

Lemma after_reader_closed_first l :
  filter by_reader l = [] ->
  after_reader_closed (l ++ [(Reader, Closed)]) = [].
Proof.
  induction l as [|p l IH]; simpl; [reflexivity|].
  destruct (by_reader p); [discriminate|exact IH].
Qed.

Lemma channel_inv_init host : channel_inv (init host).
Proof. destruct host; cbv; auto. Qed.

Lemma channel_inv_finish (c : netplay F) :
  has_sock c = true -> accepting c = false ->
  filter by_reader (puts c) = [] ->
  filter acceptor_closed (puts c) = [] ->
  channel_inv (put Reader Closed (set_reader c Finished)).
Proof.
  intros Hs Ha Hr Hc. unfold channel_inv; simpl.
  repeat split; auto.
  - unfold reader_closed_count. now rewrite filter_app, Hr.
  - now rewrite filter_app, Hc.
  - now rewrite after_reader_closed_first.
Qed.

Lemma channel_inv_step a c c' :
  channel_inv c -> step loads a c = Some c' -> channel_inv c'.
Proof.
  intros Hinv Hstep. destruct a as [d ok| | |r| |r]; simpl in Hstep.
  - (* send *)
    inversion Hstep; subst c'; clear Hstep. unfold send.
    destruct (has_sock c) eqn:Hs; simpl; [|exact Hinv].
    destruct (negb (sock_closed c) && ok).
    + unfold channel_inv in *; simpl. rewrite Hs in Hinv. exact Hinv.
    + unfold channel_inv in *; simpl.
      destruct (reader c); rewrite ?Hs in *.
      * destruct Hinv; discriminate.
      * destruct Hinv as (_ & Ha & Hr & Hc).
        rewrite !filter_app, Hr, Hc. auto.
      * destruct Hinv as (_ & Ha & Hr & Hc).
        rewrite !filter_app, Hr, Hc. auto.
      * destruct Hinv as (_ & Ha & Hn & Hc & Hall).
        unfold reader_closed_count in *.
        rewrite !filter_app, Hc. simpl. rewrite length_app, Hn. simpl.
        repeat split; auto.
        rewrite after_reader_closed_app.
        -- rewrite forallb_app, Hall. reflexivity.
        -- intros E. rewrite E in Hn. discriminate.
  - (* poll *)
    inversion Hstep; subst c'; clear Hstep. unfold poll.
    destruct (q c); exact Hinv.
  - (* close *)
    inversion Hstep; subst c'; clear Hstep. exact Hinv.
  - (* accept *)
    unfold accept_step in Hstep. unfold channel_inv in Hinv.
    destruct (accepting c) eqn:Ha; [|discriminate].
    destruct (reader c) eqn:Hr;
      try (destruct Hinv as (_ & Hf & _); discriminate).
    destruct Hinv as (Hs & Hp).
    destruct r as [addr|]; inversion Hstep; subst c'; clear Hstep;
      unfold channel_inv; simpl; rewrite ?Hr, Hp; simpl; auto.
  - (* loop head *)
    unfold reader_head in Hstep. unfold channel_inv in Hinv.
    destruct (reader c) eqn:Hr; try discriminate.
    destruct Hinv as (Hs & Ha & Hrc & Hac).
    destruct (alive c); inversion Hstep; subst c'; clear Hstep.
    + unfold channel_inv; simpl; auto.
    + now apply channel_inv_finish.
  - (* recv *)
    unfold reader_recv in Hstep. unfold channel_inv in Hinv.
    destruct (reader c) eqn:Hr; try discriminate.
    destruct Hinv as (Hs & Ha & Hrc & Hac).
    destruct r as [[|b data]|].
    + inversion Hstep; subst c'. now apply channel_inv_finish.
    + pose proof (take_records_msgs (buf ++ b :: data)) as Hmsgs.
      destruct (take_records loads (buf ++ b :: data)) as [buf' out].
      inversion Hstep; subst c'; clear Hstep. simpl in Hmsgs.
      unfold channel_inv.
      destruct (put_all_frame Reader out (set_reader c (AtLoopHead buf')))
        as (-> & -> & -> & _).
      rewrite puts_put_all. simpl.
      rewrite !filter_app, Hrc, Hac.
      rewrite !filter_msgs_none; auto; intros [] ?; reflexivity.
    + inversion Hstep; subst c'. now apply channel_inv_finish.
Qed.

Lemma channel_inv_run acts c c' :
  channel_inv c -> run loads acts c = Some c' -> channel_inv c'.
Proof.
  revert c; induction acts as [|a acts IH]; intros c Hinv; simpl.
  - now intros [= <-].
  - destruct (step loads a c) as [c1|] eqn:E; [|discriminate].
    apply IH. eapply channel_inv_step; eauto.
Qed.

(** No [accept] has returned a connection in these steps. *)
Definition no_peer_yet (acts : list (action F)) : bool :=
  forallb (fun a => match a with
                    | AAccept (Some _) => false
                    | _ => true
                    end) acts.

Lemma unconnected_run acts (c c' : netplay F) :
  has_sock c = false -> reader c = NotStarted ->
  no_peer_yet acts = true ->
  run loads acts c = Some c' ->
  has_sock c' = false /\ reader c' = NotStarted.
Proof.
  revert c; induction acts as [|a acts IH]; intros c Hs Hr Hno; simpl.
  - intros [= <-]; auto.
  - simpl in Hno. apply andb_true_iff in Hno as [Ha Hno].
    destruct (step loads a c) as [c1|] eqn:E; [|discriminate].
    apply IH; auto;
      destruct a as [d ok| | |[addr|]| |r]; simpl in E; try discriminate;
      try (inversion E; subst c1; clear E).
    all: try (unfold send; rewrite Hs; simpl; assumption).
    all: try (unfold poll; destruct (q c); simpl; assumption).
    all: try (simpl; assumption).
    all: try (unfold accept_step in E; destruct (accepting c);
              inversion E; subst c1; simpl; assumption).
    all: try (unfold reader_head in E; rewrite Hr in E; discriminate).
    all: try (unfold reader_recv in E; rewrite Hr in E; discriminate).
Qed.

(** C10.  On the listening side, as long as no peer has connected,
    [send] leaves the channel exactly as it was: nothing is written,
    nothing is enqueued, and the call returns normally. *)
Theorem send_before_connection_is_discarded acts (c : netplay F) d ok :
  run loads acts host_init = Some c ->
  no_peer_yet acts = true ->
  send d ok c = c.
Proof.
  intros Hrun Hno.
  destruct (unconnected_run acts host_init c eq_refl eq_refl Hno Hrun) as [Hs _].
  unfold send. now rewrite Hs.
Qed.



(** C2, as the code has it.  The read thread enqueues at most one
    ['closed'] event; whatever is enqueued after it is a ['closed'] event
    of a failed [send]; and when the accept thread enqueues ['closed'],
    that is the only event the channel ever enqueues.  The read thread is
    not the only producer: a write that fails in [send] enqueues ['closed'],
    and so does a failed [accept]. *)
Theorem closed_events_of_a_channel :
  (forall host acts (c : netplay F),
     run loads acts (init host) = Some c ->
     reader_closed_count (puts c) <= 1 /\
     forallb sender_closed (after_reader_closed (puts c)) = true /\
     (existsb acceptor_closed (puts c) = false \/
      puts c = [(Acceptor, Closed)])) /\
  (forall (c : netplay F) d,
     has_sock c = true ->
     puts (send d false c) = puts c ++ [(Sender, Closed)]) /\
  (forall c : netplay F,
     accepting c = true ->
     option_map puts (accept_step None c) = Some (puts c ++ [(Acceptor, Closed)])).
Proof.
  split; [|split].
  - intros host acts c Hrun.
    pose proof (channel_inv_run acts _ _ (channel_inv_init host) Hrun) as Hinv.
    unfold channel_inv in Hinv. unfold reader_closed_count.
    assert (Hnone : forall l : list (producer * event F),
               filter acceptor_closed l = [] -> existsb acceptor_closed l = false).
    { induction l as [|p l IH]; simpl; [reflexivity|].
      destruct (acceptor_closed p); [discriminate|exact IH]. }
    assert (Hafter : forall l : list (producer * event F),
               filter by_reader l = [] -> after_reader_closed l = []).
    { induction l as [|p l IH]; simpl; [reflexivity|].
      destruct (by_reader p); [discriminate|exact IH]. }
    destruct (reader c).
    + destruct Hinv as (_ & Hp). destruct (accepting c); rewrite Hp; simpl; auto.
    + destruct Hinv as (_ & _ & Hr & Ha). rewrite Hr, (Hafter _ Hr); simpl; auto.
    + destruct Hinv as (_ & _ & Hr & Ha). rewrite Hr, (Hafter _ Hr); simpl; auto.
    + destruct Hinv as (_ & _ & Hn & Ha & Hall).
      unfold reader_closed_count in Hn. rewrite Hn. auto.
  - intros c d Hs. unfold send. rewrite Hs, andb_false_r. reflexivity.
  - intros c Ha. unfold accept_step. rewrite Ha. reflexivity.
Qed.

(** C7.  When [recv] returns data, every complete record of the buffer is
    decoded on its own: the records that decode are enqueued in order, the
    others leave no trace, the incomplete rest stays in the buffer and the
    thread goes back to reading. *)
Theorem records_decoded_independently (c : netplay F) buf data rs partial :
  reader c = InRecv buf ->
  data <> [] ->
  buf ++ data = buffered rs partial ->
  Forall record_bytes rs ->
  record_bytes partial ->
  reader_recv loads (Some data) c =
    Some (put_all Reader (flat_map decoded rs)
            (set_reader c (AtLoopHead partial))) /\
  (forall c', reader_recv loads (Some data) c = Some c' ->
     q c' = q c ++ flat_map decoded rs /\
     reader c' = AtLoopHead partial /\
     filter (fun p => is_closed (snd p)) (puts c') =
       filter (fun p => is_closed (snd p)) (puts c)).
Proof.
  intros Hr Hdata Hbuf Hrs Hp.
  assert (E : reader_recv loads (Some data) c =
              Some (put_all Reader (flat_map decoded rs)
                      (set_reader c (AtLoopHead partial)))).
  { unfold reader_recv. rewrite Hr.
    destruct data as [|b data]; [congruence|].
    rewrite Hbuf, (take_records_buffered rs partial Hrs Hp). reflexivity. }
  split; [exact E|].
  intros c' Hc'. rewrite E in Hc'. inversion Hc'; subst c'; clear Hc'.
  rewrite q_put_all, puts_put_all.
  destruct (put_all_frame Reader (flat_map decoded rs)
              (set_reader c (AtLoopHead partial))) as (-> & _).
  simpl. repeat split.
  rewrite filter_app.
  assert (Hnone : filter (fun p : producer * event F => is_closed (snd p))
                    (map (pair Reader) (flat_map decoded rs)) = []).
  { clear. induction rs as [|r rs IH]; simpl; [reflexivity|].
    rewrite map_app, filter_app, IH, app_nil_r.
    destruct r as [|b r]; simpl; [reflexivity|].
    destruct (loads (b :: r)); reflexivity. }
  rewrite Hnone. apply app_nil_r.
Qed.

End NetPlayFacts.

(** ** The theorems at work *)

(** A decoder that knows one record, the move e2e4 with both clocks. *)
Definition e2e4_msg : json Z :=
  JObj [("type", JStr "move"); ("uci", JStr "e2e4");
        ("wtime", JNum (PFloat 299%Z)); ("btime", JNum (PInt 300))]%string.

Definition e2e4_bytes : list byte :=
  list_byte_of_string (Dumps.dumps e2e4_msg).

Definition sample_loads (line : list byte) : option (json Z) :=
  if list_eq_dec Byte.byte_eq_dec line e2e4_bytes then Some e2e4_msg else None.

(** Half a record, not valid JSON. *)
Definition garbage : list byte := list_byte_of_string "{oops".

(** The listening channel after a poll, a send and a close, with no peer
    in sight. *)
Definition lonely_host : NetPlay.netplay Z :=
  NetPlay.close NetPlay.host_init.

Lemma send_before_connection_witness :
  NetPlay.run sample_loads
    [NetPlay.APoll; NetPlay.ASend e2e4_msg true; NetPlay.AClose]
    NetPlay.host_init = Some lonely_host /\
  NetPlay.send e2e4_msg true lonely_host = lonely_host.
Proof.
  split; [reflexivity|].
  apply (send_before_connection_is_discarded sample_loads
           [NetPlay.APoll; NetPlay.ASend e2e4_msg true; NetPlay.AClose]
           lonely_host e2e4_msg true); reflexivity.
Defined.

(** A failed [send] followed by end of stream: two ['closed'] events, the
    first of them not from the read thread. *)
Lemma two_closed_events :
  option_map (@NetPlay.puts Z)
    (NetPlay.run sample_loads
       [NetPlay.ASend e2e4_msg false; NetPlay.AHead; NetPlay.ARecv (Some [])]
       NetPlay.join_init)
  = Some [(NetPlay.Sender, NetPlay.Closed); (NetPlay.Reader, NetPlay.Closed)] /\
  option_map (fun c => NetPlay.closed_count (NetPlay.puts c))
    (NetPlay.run sample_loads
       [NetPlay.ASend e2e4_msg false; NetPlay.AHead; NetPlay.ARecv (Some [])]
       NetPlay.join_init)
  = Some 2.
Proof. split; reflexivity. Qed.

Definition broken_pipe : list (NetPlay.action Z) :=
  [NetPlay.ASend e2e4_msg false; NetPlay.AHead; NetPlay.ARecv (Some [])].

Definition after_broken_pipe : NetPlay.netplay Z :=
  NetPlay.put NetPlay.Reader NetPlay.Closed
    (NetPlay.set_reader
       (NetPlay.put NetPlay.Sender NetPlay.Closed NetPlay.join_init)
       NetPlay.Finished).

Lemma closed_events_witness :
  NetPlay.run sample_loads broken_pipe (init false) = Some after_broken_pipe /\
  reader_closed_count (NetPlay.puts after_broken_pipe) <= 1 /\
  forallb sender_closed (after_reader_closed (NetPlay.puts after_broken_pipe))
    = true /\
  (existsb acceptor_closed (NetPlay.puts after_broken_pipe) = false \/
   NetPlay.puts after_broken_pipe = [(NetPlay.Acceptor, NetPlay.Closed)]).
Proof.
  split; [reflexivity|].
  apply (proj1 (closed_events_of_a_channel sample_loads) false broken_pipe).
  reflexivity.
Defined.





(** A malformed record right before a valid one, in one read. *)
Definition two_records : list byte :=
  garbage ++ [x0a] ++ e2e4_bytes ++ [x0a].

Definition reading : NetPlay.netplay Z :=
  NetPlay.set_reader NetPlay.join_init (NetPlay.InRecv []).

Definition after_two_records : NetPlay.netplay Z :=
  NetPlay.put NetPlay.Reader (NetPlay.Msg e2e4_msg)
    (NetPlay.set_reader reading (NetPlay.AtLoopHead [])).

Lemma records_decoded_witness :
  NetPlay.reader_recv sample_loads (Some two_records) reading
    = Some after_two_records /\
  NetPlay.q after_two_records = [NetPlay.Msg e2e4_msg] /\
  NetPlay.reader after_two_records = NetPlay.AtLoopHead [] /\
  filter (fun p => NetPlay.is_closed (snd p)) (NetPlay.puts after_two_records)
    = [].
Proof.
  assert (Hrs : Forall record_bytes [garbage; e2e4_bytes])
    by (repeat constructor).
  assert (Hdata : two_records <> []) by discriminate.
  destruct (records_decoded_independently sample_loads reading [] two_records
              [garbage; e2e4_bytes] [] eq_refl Hdata eq_refl Hrs eq_refl)
    as [E Hall].
  split; [exact E|]. exact (Hall _ E).
Defined.

End NetPlayFacts.

(* ===================================================================== *)
(** * Properties of the play loop *)
(* ===================================================================== *)

Module MainGameFacts.
Section MainGameFacts.
Context {F : Type} `{PyFloat F} {Board : Type} `{RulesEngine Board}.
Import NetPlay MainGame.

#[local] Abbreviation game := (MainGame.game F Board).
#[local] Abbreviation outcome := (MainGame.outcome F Board).

Definition clocks (g : game) : pynum F * pynum F :=
  (white_time g, black_time g).

(** What the elapsed-time step is expected to leave on the clocks. *)
Definition ran_down (dt : F) (g : game) : pynum F * pynum F :=
  if negb (game_over g) && negb (peer_left g) then
    if white_to_move g then (num_sub (white_time g) dt, black_time g)
    else (white_time g, num_sub (black_time g) dt)
  else clocks g.

(** The move record of the program, with its three payload fields. *)
Definition move_shaped (d : json F) : Prop :=
  exists u wt bt,
    d = JObj [("type", JStr "move"); ("uci", JStr u);
              ("wtime", JNum wt); ("btime", JNum bt)].

Definition ops_of (o : outcome) : list (netop F) :=
  match o with
  | Continue _ ops | Returned _ ops | Exited ops => ops
  end.

(** An operation list that sends nothing but move records. *)
Definition sends_moves (ops : list (netop F)) : Prop :=
  forall d, In (OpSend d) ops -> move_shaped d.

Lemma sends_moves_nil : sends_moves [].
Proof. intros d []. Qed.

Lemma sends_moves_app a b :
  sends_moves a -> sends_moves b -> sends_moves (a ++ b).
Proof.
  intros Ha Hb d Hd. apply in_app_or in Hd as [Hd|Hd]; auto.
Qed.

Lemma sends_moves_close : sends_moves [OpClose].
Proof. intros d [Hd|[]]. discriminate. Qed.

Lemma sends_moves_close_if_net (g : game) : sends_moves (close_if_net g).
Proof.
  unfold close_if_net. destruct (net_on g);
    [apply sends_moves_close|apply sends_moves_nil].
Qed.

Create HintDb sends.
Hint Resolve sends_moves_nil sends_moves_app sends_moves_close
  sends_moves_close_if_net : sends.

(** ** The clock step *)

Lemma clock_step_clocks dt (g g' : game) :
  clock_step dt g = Ok g' -> clocks g' = ran_down dt g.
Proof.
  unfold clock_step, ran_down, clocks.
  destruct (negb (game_over g) && negb (peer_left g)); [|now intros [= <-]].
  destruct (white_to_move g).
  - destruct (float_of (white_time g)); simpl; [|discriminate].
    now intros [= <-].
  - destruct (float_of (black_time g)); simpl; [|discriminate].
    now intros [= <-].
Qed.

Lemma clock_step_flags dt (g g' : game) :
  clock_step dt g = Ok g' ->
  peer_left g' = peer_left g /\
  (game_over g = true -> game_over g' = true).
Proof.
  unfold clock_step.
  destruct (negb (game_over g) && negb (peer_left g)) eqn:E.
  - apply andb_true_iff in E as [Eg Ep]. apply negb_true_iff in Eg.
    destruct (white_to_move g);
      [destruct (float_of (white_time g))|destruct (float_of (black_time g))];
      simpl; try discriminate; intros [= <-]; simpl;
      (split; [reflexivity|]); rewrite Eg; discriminate.
  - intros [= <-]. split; auto.
Qed.

(** ** Local input never touches the clocks *)

Definition same_clocks_flags (g g' : game) : Prop :=
  clocks g' = clocks g /\ peer_left g' = peer_left g /\
  (game_over g = true -> game_over g' = true).

Lemma same_clocks_flags_refl (g : game) : same_clocks_flags g g.
Proof. repeat split; auto. Qed.

Lemma same_clocks_flags_trans (a b c : game) :
  same_clocks_flags a b -> same_clocks_flags b c -> same_clocks_flags a c.
Proof.
  intros (E1 & P1 & G1) (E2 & P2 & G2). repeat split; try congruence; auto.
Qed.

Lemma on_square_ok (g : game) c sq (o : outcome) :
  on_square g c sq = Ok o ->
  sends_moves (ops_of o) /\
  forall g' ops, o = Continue g' ops -> same_clocks_flags g g'.
Proof.
  unfold on_square.
  assert (Htry : forall m sel o',
             (if is_legal (board g) m
              then bind (play_local g m sel sq) (fun '(g', ops) =>
                   Ok (Continue g' ops))
              else Ok (Continue g [])) = Ok o' ->
             sends_moves (ops_of o') /\
             forall g' ops, o' = Continue g' ops -> same_clocks_flags g g').
  { intros m sel o'. destruct (is_legal (board g) m).
    - unfold play_local.
      destruct (animate_move g sel); simpl; [|discriminate].
      intros [= <-]. split.
      + simpl. destruct (net_on g && negb (peer_left g)); auto with sends.
        intros d [[= <-]|[]]. unfold move_record, move_shaped. eauto.
      + intros g' ops [= <- _]. repeat split; simpl.
        intros Hg.
        repeat match goal with
               | |- context [if ?x then _ else _] => destruct x
               end; auto.
    - intros [= <-]. split; [apply sends_moves_nil|].
      intros g' ops [= <- _]. apply same_clocks_flags_refl. }
  destruct (selected_square g) as [sel|].
  - destruct (existsb (Z.eqb sq) (valid_moves g)).
    + destruct (piece_at (board g) sel) as [[ptype col]|]; [|discriminate].
      destruct ((ptype =? 1)%Z && ((sq / 8 =? 0)%Z || (sq / 8 =? 7)%Z)).
      * destruct (promo c) as [p|]; [apply Htry|].
        intros [= <-]. split; [apply sends_moves_nil|]. discriminate.
      * apply Htry.
    + intros [= <-]. split; [apply sends_moves_nil|].
      intros g' ops [= <- _]. repeat split; auto.
  - destruct (piece_at (board g) sq) as [[ptype col]|].
    + destruct (Bool.eqb col (turn (board g))); intros [= <-];
        (split; [apply sends_moves_nil|]); intros g' ops [= <- _];
        repeat split; auto.
    + intros [= <-]. split; [apply sends_moves_nil|].
      intros g' ops [= <- _]. apply same_clocks_flags_refl.
Qed.

Lemma on_ui_ok (g : game) e (o : outcome) :
  on_ui g e = Ok o ->
  sends_moves (ops_of o) /\
  forall g' ops, o = Continue g' ops -> same_clocks_flags g g'.
Proof.
  assert (Hstay : forall o', Ok (Continue g []) = Ok o' ->
             sends_moves (ops_of o') /\
             forall g' ops, o' = Continue g' ops -> same_clocks_flags g g').
  { intros o' [= <-]. split; [apply sends_moves_nil|].
    intros g' ops [= <- _]. apply same_clocks_flags_refl. }
  assert (Hleave : forall r ops o', Ok (Returned r ops) = Ok o' ->
             sends_moves ops ->
             sends_moves (ops_of o') /\
             forall g' ops, o' = Continue g' ops -> same_clocks_flags g g').
  { intros r ops o' [= <-] Hops. split; [exact Hops|]. discriminate. }
  destruct e as [|c|]; simpl.
  - intros [= <-]. split; [apply sends_moves_close_if_net|]. discriminate.
  - destruct (peer_left g).
    + destruct (in_leave c || in_exit c); [|apply Hstay].
      intros E; eapply Hleave; eauto with sends.
    + destruct (in_new c); [intros E; eapply Hleave; eauto with sends|].
      destruct (in_hint c).
      { intros [= <-]. split; [apply sends_moves_nil|].
        intros g' ops [= <- _]. repeat split; auto. }
      destruct (in_exit c); [intros E; eapply Hleave; eauto with sends|].
      destruct (in_sidebar c); [apply Hstay|].
      destruct (game_over g); [apply Hstay|].
      destruct (match local_color g with
                | Some col => negb (Bool.eqb (turn (board g)) col)
                | None => false
                end); [apply Hstay|].
      destruct (square c) as [sq|]; [apply on_square_ok|apply Hstay].
  - apply Hstay.
Qed.

Lemma ui_loop_ok es : forall (g : game) (o : outcome),
  ui_loop g es = Ok o ->
  sends_moves (ops_of o) /\
  forall g' ops, o = Continue g' ops -> same_clocks_flags g g'.
Proof.
  induction es as [|e es IH]; intros g o; simpl.
  - intros [= <-]. split; [apply sends_moves_nil|].
    intros g' ops [= <- _]. apply same_clocks_flags_refl.
  - destruct (on_ui g e) as [o1|] eqn:E1; simpl; [|discriminate].
    destruct (on_ui_ok _ _ _ E1) as [Hs1 Hc1].
    destruct o1 as [g1 ops1|r ops1|ops1];
      try (intros [= <-]; split; [exact Hs1|discriminate]).
    destruct (ui_loop g1 es) as [o2|] eqn:E2; simpl; [|discriminate].
    destruct (IH _ _ E2) as [Hs2 Hc2].
    intros [= <-]. simpl in Hs1.
    destruct o2 as [g2 ops2|r ops2|ops2]; simpl in *;
      (split; [auto with sends|]); try discriminate.
    intros g' ops [= <- _].
    eapply same_clocks_flags_trans; [eapply Hc1|eapply Hc2]; reflexivity.
Qed.

(** ** Draining the inbox *)

Definition flags_kept (g g' : game) : Prop :=
  (peer_left g = true -> peer_left g' = true) /\
  (game_over g = true -> game_over g' = true).

Lemma apply_remote_flags (g : game) kv m g' :
  apply_remote g kv m = Ok g' ->
  peer_left g' = peer_left g /\ (game_over g = true -> game_over g' = true).
Proof.
  unfold apply_remote.
  destruct (animate_move g (from_square m)); simpl; [|discriminate].
  destruct (match lookup "wtime" kv with
            | Some v => py_float v
            | None => float_of (white_time g)
            end) as [wt|]; simpl; [|discriminate].
  destruct (match lookup "btime" kv with
            | Some v => py_float v
            | None => float_of (black_time g)
            end) as [bt|]; simpl; [|discriminate].
  intros [= <-]; simpl. split; [reflexivity|].
  intros ->. now destruct (_ || _).
Qed.

Lemma on_msg_flags (g : game) payload g' :
  on_msg g payload = Ok g' ->
  peer_left g' = peer_left g /\ (game_over g = true -> game_over g' = true).
Proof.
  unfold on_msg.
  destruct (py_get payload "type") as [ty|]; simpl; [|discriminate].
  destruct (eq_str ty "move"); [|intros [= <-]; auto].
  destruct payload as [ | | | | |kv]; try discriminate.
  destruct (lookup "uci" kv) as [[ | | |u| | ]|]; try discriminate.
  destruct (from_uci u) as [m|]; [|discriminate].
  destruct (is_legal (board g) m); [apply apply_remote_flags|].
  intros [= <-]; auto.
Qed.

Lemma on_event_ok (g : game) evt g' ops :
  on_event g evt = Ok (g', ops) ->
  sends_moves ops /\ flags_kept g g'.
Proof.
  destruct evt as [addr|payload|]; simpl.
  - intros [= <- <-]. split; [apply sends_moves_nil|]. split; auto.
  - destruct (on_msg g payload) as [g1|] eqn:E; simpl; [|discriminate].
    intros [= <- <-]. split; [apply sends_moves_nil|].
    destruct (on_msg_flags _ _ _ E) as [Hp Hg]. split; [congruence|exact Hg].
  - intros [= <- <-]. split; [apply sends_moves_close|]. split; auto.
Qed.

Lemma drain_loop_ok inbox : forall (g : game) g' ops,
  drain_loop g inbox = Ok (g', ops) ->
  sends_moves ops /\ flags_kept g g'.
Proof.
  induction inbox as [|evt rest IH]; intros g g' ops; simpl.
  - destruct (net_on g); intros [= <- <-];
      (split; [apply sends_moves_nil|split; auto]).
  - destruct (net_on g);
      [|intros [= <- <-]; split; [apply sends_moves_nil|split; auto]].
    destruct (on_event g evt) as [[g1 ops1]|] eqn:E1; simpl; [|discriminate].
    destruct (drain_loop g1 rest) as [[g2 ops2]|] eqn:E2; simpl; [|discriminate].
    intros [= <- <-].
    destruct (on_event_ok _ _ _ _ E1) as (Hs1 & Hp1 & Hg1).
    destruct (IH _ _ _ E2) as (Hs2 & Hp2 & Hg2).
    split; [auto with sends|]. split; auto.
Qed.

Lemma drain_ok (g : game) inbox g' ops :
  drain g inbox = Ok (g', ops) ->
  sends_moves ops /\ flags_kept g g' /\
  (peer_left g = true -> g' = g).
Proof.
  unfold drain. destruct (peer_left g) eqn:Hp.
  - rewrite andb_false_r. intros [= <- <-].
    split; [apply sends_moves_nil|]. repeat split; auto.
  - destruct (net_on g); simpl.
    + intros E. destruct (drain_loop_ok _ _ _ _ E) as (Hs & Hp' & Hg).
      repeat split; auto; discriminate.
    + intros [= <- <-]. split; [apply sends_moves_nil|].
      repeat split; auto; discriminate.
Qed.

(** ** What one iteration does *)

Lemma tick_ok now inbox es (g : game) (o : outcome) :
  tick now inbox es g = Ok o ->
  exists g1 ops1 g2 o2,
    drain (set_last_tick g now) inbox = Ok (g1, ops1) /\
    clock_step (f_sub now (last_tick g)) g1 = Ok g2 /\
    ui_loop g2 es = Ok o2 /\
    o = match o2 with
        | Continue g3 ops => Continue g3 (ops1 ++ ops)
        | Returned r ops => Returned r (ops1 ++ ops)
        | Exited ops => Exited (ops1 ++ ops)
        end /\
    ops_of o = ops1 ++ ops_of o2 /\
    (forall g3 ops, o = Continue g3 ops ->
       exists ops2, o2 = Continue g3 ops2).
Proof.
  unfold tick.
  destruct (drain (set_last_tick g now) inbox) as [[g1 ops1]|] eqn:E1;
    simpl; [|discriminate].
  destruct (clock_step (f_sub now (last_tick g)) g1) as [g2|] eqn:Ec;
    simpl; [|discriminate].
  destruct (ui_loop g2 es) as [o2|] eqn:E2; simpl; [|discriminate].
  intros [= <-]. exists g1, ops1, g2, o2.
  split; [reflexivity|]. split; [exact Ec|]. split; [exact E2|].
  split; [reflexivity|]. split.
  - destruct o2; reflexivity.
  - intros g3 ops. destruct o2; intros [= <- _]; eauto.
Qed.

Lemma tick_clocks now inbox es (g g3 : game) ops :
  tick now inbox es g = Ok (Continue g3 ops) ->
  exists g1 ops1,
    drain (set_last_tick g now) inbox = Ok (g1, ops1) /\
    clocks g3 = ran_down (f_sub now (last_tick g)) g1 /\
    (game_over g = true -> clocks g3 = clocks g1) /\
    (peer_left g = true -> clocks g3 = clocks g) /\
    flags_kept g g3.
Proof.
  intros Htick.
  destruct (tick_ok _ _ _ _ _ Htick)
    as (g1 & ops1 & g2 & o2 & Hd & Hcs & Hu & _ & _ & Hc).
  destruct (Hc _ _ eq_refl) as [ops2 ->].
  destruct (ui_loop_ok _ _ _ Hu) as [_ Hsame].
  destruct (Hsame _ _ eq_refl) as (Hclk & Hpl & Hgo).
  destruct (drain_ok _ _ _ _ Hd) as (_ & (Hp1 & Hg1) & Hfrozen).
  destruct (clock_step_flags _ _ _ Hcs) as [Hp2 Hg2].
  simpl in Hp1, Hg1, Hfrozen.
  rewrite (clock_step_clocks _ _ _ Hcs) in Hclk.
  exists g1, ops1. split; [exact Hd|]. split; [exact Hclk|].
  split; [|split; [|split]].
  - intros Hg. rewrite Hclk. unfold ran_down. rewrite (Hg1 Hg). reflexivity.
  - intros Hp. rewrite Hclk. unfold ran_down.
    rewrite (Hp1 Hp), andb_false_r. now rewrite (Hfrozen Hp).
  - intros Hp. rewrite Hpl, Hp2. auto.
  - intros Hg. auto.
Qed.

Lemma ticks_frozen frames : forall (g g' : game) ops,
  ticks frames g = Ok (Continue g' ops) ->
  flags_kept g g' /\ (peer_left g = true -> clocks g' = clocks g).
Proof.
  induction frames as [|[[now inbox] es] rest IH]; intros g g' ops; simpl.
  - intros [= <- _]. repeat split; auto.
  - destruct (tick now inbox es g) as [o|] eqn:E; simpl; [|discriminate].
    destruct o as [g1 ops1|r ops1|ops1]; try discriminate.
    destruct (ticks rest g1) as [o'|] eqn:E'; simpl; [|discriminate].
    destruct o' as [g2 ops2|r ops2|ops2]; try discriminate.
    intros [= <- _].
    destruct (tick_clocks _ _ _ _ _ _ E) as (_ & _ & _ & _ & _ & Hfr & Hp & Hg).
    destruct (IH _ _ _ E') as ((Hp' & Hg') & Hfr').
    repeat split; auto.
    intros Hpl. rewrite (Hfr' (Hp Hpl)). auto.
Qed.

(** C8, as the code has it.  In every iteration the clocks end up as the
    drained inbox left them, except that the elapsed time is taken off
    the clock of the side to move, and only while neither [game_over] nor
    [peer_left] holds once the inbox is drained.  Once [game_over] holds
    the elapsed time is never taken off again, once [peer_left] holds no
    clock changes at all, and neither flag is ever reset. *)
Theorem elapsed_time_runs_one_clock :
  (forall now inbox es (g g3 : game) ops,
     tick now inbox es g = Ok (Continue g3 ops) ->
     exists g1 ops1,
       drain (set_last_tick g now) inbox = Ok (g1, ops1) /\
       clocks g3 = ran_down (f_sub now (last_tick g)) g1 /\
       (game_over g = true -> clocks g3 = clocks g1) /\
       (peer_left g = true -> clocks g3 = clocks g) /\
       flags_kept g g3) /\
  (forall frames (g g' : game) ops,
     ticks frames g = Ok (Continue g' ops) ->
     flags_kept g g' /\ (peer_left g = true -> clocks g' = clocks g)).
Proof.
  split.
  - exact tick_clocks.
  - intros frames. exact (ticks_frozen frames).
Qed.

(** ** Inbound moves *)

(** What the receiver reads for a clock:
    [float(payload.get(key, local))]. *)
Definition transmitted (key : string) (kv : list (string * json F))
    (local : pynum F) : res F :=
  match lookup key kv with
  | Some v => py_float v
  | None => float_of local
  end.

Lemma float_of_value (n : pynum F) x : float_of n = Ok x -> x = to_float n.
Proof.
  destruct n as [z|y]; simpl; [|now intros [= <-]].
  destruct (f_fits z); [now intros [= <-]|discriminate].
Qed.

(** The animation of a legal move finds its piece. *)
Lemma animate_legal (g : game) m :
  is_legal (board g) m = true ->
  animate_move g (from_square m) = draw_sidebar g.
Proof.
  intros Hm. unfold animate_move.
  pose proof (legal_from_occupied (board g) m Hm) as Hp.
  destruct (piece_at (board g) (from_square m)); [reflexivity|congruence].
Qed.

Lemma draw_sidebar_unit (g : game) (u : unit) :
  draw_sidebar g = Ok u -> draw_sidebar g = Ok tt.
Proof. now destruct u. Qed.

(** How a legal ['move'] message is processed, step by step. *)
Lemma legal_move_event (g : game) kv u m :
  eq_str (dict_get "type" kv) "move" = true ->
  lookup "uci" kv = Some (JStr u) ->
  from_uci u = Some m ->
  is_legal (board g) m = true ->
  on_event g (Msg (JObj kv)) =
    bind (draw_sidebar g) (fun _ =>
    bind (transmitted "wtime" kv (white_time g)) (fun wt =>
    bind (transmitted "btime" kv (black_time g)) (fun bt =>
    Ok (mkGame (push (board g) m) (selected_square g) (valid_moves g)
          (if is_checkmate (push (board g) m) || is_stalemate (push (board g) m)
           then true else game_over g)
          (PFloat wt) (PFloat bt) (last_tick g)
          (turn (push (board g) m))
          (Some (from_square m, to_square m))
          (peer_left g) (hint_enabled g) (net_on g) (local_color g), [])))).
Proof.
  intros Hty Huci Hm Hlegal.
  unfold on_event, on_msg, py_get. simpl.
  rewrite Hty, Huci, Hm, Hlegal. unfold apply_remote.
  rewrite (animate_legal g m Hlegal). unfold transmitted.
  destruct (draw_sidebar g); simpl; [|reflexivity].
  destruct (match lookup "wtime" kv with
            | Some v => py_float v
            | None => float_of (white_time g)
            end); simpl; [|reflexivity].
  destruct (match lookup "btime" kv with
            | Some v => py_float v
            | None => float_of (black_time g)
            end); reflexivity.
Qed.

(** C1, as the code has it.  A ['move'] message whose move is legal is
    applied to the board, both local clocks become [float] of what the
    payload carries under [wtime] and [btime], whatever they were, and the
    side to move is the one opposite to the side that moved, provided the
    local clocks can be displayed and [float] accepts what the payload
    carries (for a number: the number itself, the int within the range of
    floats; a missing key stands for the local clock).  In every other
    case the processing raises, and [main_game] ends with it: before the
    move is played when a local clock cannot be displayed, after it when a
    transmitted clock cannot be converted. *)
Theorem remote_move_applied (g : game) kv u m :
  eq_str (dict_get "type" kv) "move" = true ->
  lookup "uci" kv = Some (JStr u) ->
  from_uci u = Some m ->
  is_legal (board g) m = true ->
  (forall wt bt,
     draw_sidebar g = Ok tt ->
     transmitted "wtime" kv (white_time g) = Ok wt ->
     transmitted "btime" kv (black_time g) = Ok bt ->
     exists g',
       on_event g (Msg (JObj kv)) = Ok (g', []) /\
       board g' = push (board g) m /\
       white_time g' = PFloat wt /\
       black_time g' = PFloat bt /\
       white_to_move g' = negb (turn (board g)) /\
       turn (board g') = negb (turn (board g))) /\
  (forall w, lookup "wtime" kv = Some (JNum w) ->
     transmitted "wtime" kv (white_time g) = float_of w /\
     forall wt, float_of w = Ok wt -> wt = to_float w) /\
  (forall b, lookup "btime" kv = Some (JNum b) ->
     transmitted "btime" kv (black_time g) = float_of b /\
     forall bt, float_of b = Ok bt -> bt = to_float b) /\
  (forall e, draw_sidebar g = Raise e ->
     on_event g (Msg (JObj kv)) = Raise e) /\
  (forall e, draw_sidebar g = Ok tt ->
     transmitted "wtime" kv (white_time g) = Raise e ->
     on_event g (Msg (JObj kv)) = Raise e) /\
  (forall wt e, draw_sidebar g = Ok tt ->
     transmitted "wtime" kv (white_time g) = Ok wt ->
     transmitted "btime" kv (black_time g) = Raise e ->
     on_event g (Msg (JObj kv)) = Raise e).
Proof.
  intros Hty Huci Hm Hlegal.
  pose proof (legal_move_event g kv u m Hty Huci Hm Hlegal) as Hev.
  split; [|split; [|split; [|split; [|split]]]].
  - intros wt bt Hd Hw Hb. rewrite Hev, Hd, Hw, Hb. simpl.
    eexists; split; [reflexivity|]. simpl.
    rewrite push_turn. repeat split; reflexivity.
  - intros w Hw. unfold transmitted. rewrite Hw. simpl.
    split; [reflexivity|]. intros wt. apply float_of_value.
  - intros b Hb. unfold transmitted. rewrite Hb. simpl.
    split; [reflexivity|]. intros bt. apply float_of_value.
  - intros e Hd. now rewrite Hev, Hd.
  - intros e Hd Hw. now rewrite Hev, Hd, Hw.
  - intros wt e Hd Hw Hb. now rewrite Hev, Hd, Hw, Hb.
Qed.

(** C6.  A ['move'] message whose move is not legal changes nothing: the
    state is the same, nothing is sent or closed, no exception is raised
    and the drain loop goes on with the next event. *)
Theorem illegal_remote_move_discarded (g : game) kv u m rest :
  eq_str (dict_get "type" kv) "move" = true ->
  lookup "uci" kv = Some (JStr u) ->
  from_uci u = Some m ->
  is_legal (board g) m = false ->
  on_event g (Msg (JObj kv)) = Ok (g, []) /\
  drain_loop g (Msg (JObj kv) :: rest) = drain_loop g rest.
Proof.
  intros Hty Huci Hm Hlegal.
  assert (E : on_event g (Msg (JObj kv)) = Ok (g, [])).
  { unfold on_event, on_msg, py_get. simpl.
    now rewrite Hty, Huci, Hm, Hlegal. }
  split; [exact E|].
  cbn [drain_loop]. rewrite E. simpl.
  destruct rest as [|e rest]; simpl.
  - now destruct (net_on g).
  - destruct (net_on g); [|reflexivity].
    destruct (on_event g e) as [[g1 ops1]|]; simpl; [|reflexivity].
    destruct (drain_loop g1 rest) as [[g2 ops2]|]; reflexivity.
Qed.

(** ** The loop with its drawing *)

(** An iteration that does not raise is its [tick], and it leaves clocks
    that could be displayed. *)
Lemma iteration_tick now inbox es (g : game) (o : outcome) :
  iteration now inbox es g = Ok o ->
  tick now inbox es g = Ok o /\
  forall g' ops, o = Continue g' ops -> draw_sidebar g' = Ok tt.
Proof.
  unfold iteration.
  destruct (tick now inbox es g) as [o1|]; simpl; [|discriminate].
  destruct o1 as [g1 ops1|r ops1|ops1];
    try (intros [= <-]; split; [reflexivity|discriminate]).
  unfold draw_frame.
  destruct (draw_sidebar g1) as [[]|] eqn:Ed; simpl; [|discriminate].
  intros [= <-]. split; [reflexivity|].
  intros g' ops [= <- _]. exact Ed.
Qed.

Lemma main_loop_ticks frames : forall (g : game) (o : outcome),
  main_loop frames g = Ok o -> ticks frames g = Ok o.
Proof.
  induction frames as [|[[now inbox] es] rest IH]; intros g o; simpl.
  - auto.
  - destruct (iteration now inbox es g) as [o1|] eqn:E; simpl; [|discriminate].
    destruct (iteration_tick _ _ _ _ _ E) as [-> _]. simpl.
    destruct o1 as [g1 ops1|r ops1|ops1]; auto.
    destruct (main_loop rest g1) as [o2|] eqn:E2; simpl; [|discriminate].
    now rewrite (IH _ _ E2).
Qed.

End MainGameFacts.

(** ** The theorems at work *)

Import MainGame.

(** The board of the joining side, which plays Black here, at the start. *)
Definition black_start : game Z (list move) :=
  new_game 300 300 0%Z true (Some false).

Definition e2e4_kv : list (string * json Z) :=
  [("type", JStr "move"); ("uci", JStr "e2e4");
   ("wtime", JNum (PFloat 299%Z)); ("btime", JNum (PInt 300))]%string.

Lemma remote_move_witness :
  exists g',
    on_event black_start (NetPlay.Msg (JObj e2e4_kv)) = Ok (g', []) /\
    board g' = [Opening.e2e4] /\
    white_time g' = PFloat 299%Z /\
    black_time g' = PFloat 300%Z /\
    white_to_move g' = false /\
    turn (board g') = false.
Proof.
  exact (proj1 (remote_move_applied black_start e2e4_kv "e2e4" Opening.e2e4
                  eq_refl eq_refl eq_refl eq_refl)
           299%Z 300%Z eq_refl eq_refl eq_refl).
Defined.

(** White's e2e4 with a white clock of 10^400 seconds, a number that JSON
    carries and no float holds, and the same move with no number at all
    for the black clock. *)
Definition huge_clock_kv : list (string * json Z) :=
  [("type", JStr "move"); ("uci", JStr "e2e4");
   ("wtime", JNum (PInt (10 ^ 400))); ("btime", JNum (PInt 300))]%string.

Definition null_clock_kv : list (string * json Z) :=
  [("type", JStr "move"); ("uci", JStr "e2e4");
   ("wtime", JNum (PInt 300)); ("btime", JNull)]%string.

(** Both messages are ['move'] messages with a legal move, and neither is
    applied: the receiver's [float] raises and [main_game] ends. *)
Lemma unconvertible_clock_raises :
  is_legal (board black_start) Opening.e2e4 = true /\
  from_uci "e2e4" = Some Opening.e2e4 /\
  on_event black_start (NetPlay.Msg (JObj huge_clock_kv)) = Raise OverflowError /\
  on_event black_start (NetPlay.Msg (JObj null_clock_kv)) = Raise TypeError /\
  tick 1%Z [NetPlay.Msg (JObj huge_clock_kv)] [] black_start
    = Raise OverflowError.
Proof. repeat split. Qed.

(** The same game over floats with special values.  White's e2e4 arrives
    with NaN for the white clock, which [float] accepts; the clock cannot
    be displayed after that.  A second move in the same inbox is then not
    played, its animation raises before the push, and with the first move
    alone in the inbox the drawing that ends the iteration raises. *)
Definition special_start : game special (list move) :=
  new_game 300 300 (Whole 0) true (Some false).

Definition nan_clock_kv : list (string * json special) :=
  [("type", JStr "move"); ("uci", JStr "e2e4");
   ("wtime", JNum (PFloat NaN)); ("btime", JNum (PInt 300))]%string.

Definition reply_kv : list (string * json special) :=
  [("type", JStr "move"); ("uci", JStr "e7e5");
   ("wtime", JNum (PInt 299)); ("btime", JNum (PInt 299))]%string.

Definition nan_on_the_clock : game special (list move) :=
  mkGame [Opening.e2e4] None [] false (PFloat NaN) (PFloat (Whole 300))
    (Whole 0) false (Some (12, 28)%Z) false false true (Some false).

Lemma undisplayable_clock_raises :
  on_event special_start (NetPlay.Msg (JObj nan_clock_kv))
    = Ok (nan_on_the_clock, []) /\
  is_legal (board nan_on_the_clock) Opening.e7e5 = true /\
  draw_sidebar nan_on_the_clock = Raise ValueError /\
  on_event nan_on_the_clock (NetPlay.Msg (JObj reply_kv)) = Raise ValueError /\
  drain special_start
    [NetPlay.Msg (JObj nan_clock_kv); NetPlay.Msg (JObj reply_kv)]
    = Raise ValueError /\
  (exists g ops,
     tick (Whole 1) [NetPlay.Msg (JObj nan_clock_kv)] [] special_start
       = Ok (Continue g ops)) /\
  iteration (Whole 1) [NetPlay.Msg (JObj nan_clock_kv)] [] special_start
    = Raise ValueError.
Proof.
  repeat split. eexists; eexists; reflexivity.
Qed.

(** Black's e7e5 is not legal before White has moved. *)
Definition e7e5_kv : list (string * json Z) :=
  [("type", JStr "move"); ("uci", JStr "e7e5");
   ("wtime", JNum (PFloat 10%Z)); ("btime", JNum (PFloat 10%Z))]%string.

Lemma illegal_remote_move_witness :
  on_event black_start (NetPlay.Msg (JObj e7e5_kv)) = Ok (black_start, []) /\
  drain_loop black_start
    [NetPlay.Msg (JObj e7e5_kv); NetPlay.Msg (JObj e2e4_kv)]
  = drain_loop black_start [NetPlay.Msg (JObj e2e4_kv)].
Proof.
  exact (illegal_remote_move_discarded black_start e7e5_kv "e7e5"
           Opening.e7e5 [NetPlay.Msg (JObj e2e4_kv)]
           eq_refl eq_refl eq_refl eq_refl).
Defined.

(** One iteration in which White's move arrives with clocks that are both
    below the local ones: both clocks go down in the same iteration. *)
Definition low_clocks_kv : list (string * json Z) :=
  [("type", JStr "move"); ("uci", JStr "e2e4");
   ("wtime", JNum (PFloat 100%Z)); ("btime", JNum (PFloat 200%Z))]%string.

Definition state_of (r : res (outcome Z (list move)))
  : option (game Z (list move)) :=
  match r with
  | Ok (Continue g _) => Some g
  | _ => None
  end.

Lemma both_clocks_drop_in_one_tick :
  clocks black_start = (PInt 300, PInt 300) /\
  option_map clocks
    (state_of (tick 1%Z [NetPlay.Msg (JObj low_clocks_kv)] [] black_start))
  = Some (PFloat 100%Z, PFloat 199%Z).
Proof. split; reflexivity. Qed.

Definition after_five_seconds : game Z (list move) :=
  mkGame [] None [] false (PFloat 295%Z) (PInt 300) 5%Z true None false false
    true (Some false).

Lemma elapsed_time_witness :
  exists g1 ops1,
    drain (set_last_tick black_start 5%Z) [] = Ok (g1, ops1) /\
    clocks after_five_seconds = ran_down (5 - 0)%Z g1 /\
    (game_over black_start = true -> clocks after_five_seconds = clocks g1) /\
    (peer_left black_start = true ->
     clocks after_five_seconds = clocks black_start) /\
    flags_kept black_start after_five_seconds.
Proof.
  exact (proj1 elapsed_time_runs_one_clock 5%Z [] [] black_start
           after_five_seconds [] eq_refl).
Defined.

End MainGameFacts.

(* ===================================================================== *)
(** * Properties of the colour screen *)
(* ===================================================================== *)

Module ColorSelectFacts.
Section ColorSelectFacts.
Context {F : Type} `{PyFloat F}.
Import NetPlay ColorSelect.

#[local] Abbreviation screen := (ColorSelect.screen F).
#[local] Abbreviation outcome := (ColorSelect.outcome F).

Definition ops_of (o : outcome) : list (netop F) :=
  match o with
  | Continue _ ops | Returned _ _ ops | Exited ops => ops
  end.

(** The choose record of the program, for one of its two colour names. *)
Definition choose_shaped (d : json F) : Prop :=
  d = choose_record "white" \/ d = choose_record "black".

Definition sends_choices (ops : list (netop F)) : Prop :=
  forall d, In (OpSend d) ops -> choose_shaped d.

Lemma sends_choices_nil : sends_choices [].
Proof. intros d []. Qed.

Lemma sends_choices_close : sends_choices [OpClose].
Proof. intros d [Hd|[]]. discriminate. Qed.

Lemma sends_choices_app a b :
  sends_choices a -> sends_choices b -> sends_choices (a ++ b).
Proof. intros Ha Hb d Hd. apply in_app_or in Hd as [Hd|Hd]; auto. Qed.

Lemma ops_of_prepend ops (o : outcome) :
  ops_of (prepend ops o) = ops ++ ops_of o.
Proof. destruct o; reflexivity. Qed.

Lemma other_side_differs c : (c =? other_side c) = false.
Proof.
  unfold other_side. destruct (c =? "white") eqn:E; [|exact E].
  apply String.eqb_eq in E. subst c. reflexivity.
Qed.

(** ** Resolution *)

Lemma resolve_returned (s : screen) r s' ops :
  resolve s = Returned r s' ops ->
  exists c, r = Some c /\ local_choice s' = Some c /\
            remote_choice s' = remote_choice s /\
            eq_str (remote_choice s') c = false /\ ops = [].
Proof.
  unfold resolve.
  destruct (local_choice s) as [l|] eqn:El; simpl; [|discriminate].
  destruct (negb (l =? EmptyString) && truthy (remote_choice s)); [|discriminate].
  destruct (eq_str (remote_choice s) l) eqn:Eq.
  - intros [= <- <- <-]. simpl.
    exists (other_side l). repeat split.
    destruct (remote_choice s); try reflexivity. simpl in *.
    apply String.eqb_eq in Eq. subst. apply other_side_differs.
  - intros [= <- <- <-]. exists l. repeat split; auto.
Qed.

Lemma poll_loop_returned inbox : forall (s : screen) r s' ops,
  poll_loop s inbox = Ok (Returned r s' ops) -> r = None.
Proof.
  induction inbox as [|e rest IH]; intros s r s' ops; simpl.
  - discriminate.
  - destruct e as [addr|payload|].
    + apply IH.
    + destruct (on_msg s payload) as [s1|]; simpl; [apply IH|discriminate].
    + now intros [= <- _ _].
Qed.

Lemma ui_loop_returned es : forall (s : screen) r s' ops,
  ui_loop s es = Returned r s' ops -> r = None.
Proof.
  induction es as [|e rest IH]; intros s r s' ops; simpl; [discriminate|].
  destruct e; simpl;
    try (destruct (ui_loop _ rest) eqn:E; simpl; try discriminate;
         intros [= <- <- _]; eapply IH; exact E);
    try discriminate.
  now intros [= <- _ _].
Qed.

Lemma frame_returned (s : screen) inbox es c s' ops :
  frame s inbox es = Ok (Returned (Some c) s' ops) ->
  local_choice s' = Some c /\ eq_str (remote_choice s') c = false.
Proof.
  unfold frame.
  destruct (poll_loop s inbox) as [o1|] eqn:E1; simpl; [|discriminate].
  destruct o1 as [s1 ops1|r1 s1 ops1|ops1].
  - destruct (ui_loop s1 es) as [s2 ops2|r2 s2 ops2|ops2] eqn:E2.
    + destruct (resolve s2) as [s3 ops3|r3 s3 ops3|ops3] eqn:E3; simpl;
        try discriminate.
      intros [= -> <- _].
      destruct (resolve_returned _ _ _ _ E3) as (c' & [= <-] & Hl & _ & Hr & _).
      auto.
    + simpl. intros [= -> _ _].
      pose proof (ui_loop_returned _ _ _ _ _ E2). discriminate.
    + discriminate.
  - intros [= -> _ _].
    pose proof (poll_loop_returned _ _ _ _ _ E1). discriminate.
  - discriminate.
Qed.






(** ** The flips before the resolution

    The flip on receipt and the flip on picking leave a local choice that
    differs from the recorded one, so a run of the screen from its initial
    state never reaches the resolution test with the two equal. *)
Definition apart (s : screen) : Prop :=
  chosen (local_choice s) && same_choice (local_choice s) (remote_choice s)
    = false /\
  final_flips s = 0%nat.

Lemma eq_str_other (v : json F) c :
  eq_str v c = true -> eq_str v (other_side c) = false.
Proof.
  destruct v; simpl; try discriminate.
  intros E. apply String.eqb_eq in E. subst. apply other_side_differs.
Qed.

Lemma on_msg_apart (s : screen) payload s' :
  apart s -> on_msg s payload = Ok s' -> apart s'.
Proof.
  intros [Ha Hf]. unfold on_msg.
  destruct (py_get payload "type") as [ty|]; simpl; [|discriminate].
  destruct (eq_str ty "choose"); [|intros [= <-]; split; auto].
  destruct (py_get payload "color") as [r|]; simpl; [|discriminate].
  destruct (chosen (local_choice s) && same_choice (local_choice s) r) eqn:E;
    intros [= <-]; split; simpl; auto.
  apply andb_true_iff in E as [_ E].
  destruct (local_choice s) as [l|]; simpl in *; [|reflexivity].
  rewrite (eq_str_other _ _ E). apply andb_false_r.
Qed.

Lemma poll_loop_apart inbox : forall (s : screen) s' ops,
  apart s -> poll_loop s inbox = Ok (Continue s' ops) -> apart s'.
Proof.
  induction inbox as [|e rest IH]; intros s s' ops Ha; simpl.
  - now intros [= <- _].
  - destruct e as [addr|payload|].
    + now apply IH.
    + destruct (on_msg s payload) as [s1|] eqn:E; simpl; [|discriminate].
      apply IH. eapply on_msg_apart; eauto.
    + discriminate.
Qed.

Lemma pick_apart (s : screen) desired :
  apart s -> apart (fst (pick s desired)).
Proof.
  intros [_ Hf]. unfold pick, apart; simpl. split; [|exact Hf].
  destruct (eq_str (remote_choice s) desired) eqn:E.
  - rewrite (eq_str_other _ _ E). apply andb_false_r.
  - rewrite E. apply andb_false_r.
Qed.

Lemma ui_loop_apart es : forall (s : screen) s' ops,
  apart s -> ui_loop s es = Continue s' ops -> apart s'.
Proof.
  induction es as [|e rest IH]; intros s s' ops Ha; simpl.
  - now intros [= <- _].
  - destruct e; simpl; try discriminate;
      destruct (ui_loop _ rest) eqn:E; simpl; try discriminate;
      intros [= <- _]; eapply IH; try exact E; auto;
      apply pick_apart; exact Ha.
Qed.

Lemma resolve_apart (s : screen) :
  apart s ->
  match resolve s with
  | Continue s' _ | Returned _ s' _ => s' = s
  | Exited _ => False
  end.
Proof.
  intros [Ha _]. unfold resolve.
  destruct (chosen (local_choice s)) eqn:Ec; simpl in *; [|reflexivity].
  rewrite Ha. destruct (truthy (remote_choice s)); reflexivity.
Qed.

Lemma frame_apart (s : screen) inbox es o :
  apart s -> frame s inbox es = Ok o ->
  match o with
  | Continue s' _ => apart s'
  | Returned (Some _) s' _ => apart s'
  | _ => True
  end.
Proof.
  intros Ha. unfold frame.
  destruct (poll_loop s inbox) as [o1|] eqn:E1; simpl; [|discriminate].
  destruct o1 as [s1 ops1|r1 s1 ops1|ops1].
  - pose proof (poll_loop_apart _ _ _ _ Ha E1) as H1.
    destruct (ui_loop s1 es) as [s2 ops2|r2 s2 ops2|ops2] eqn:E2.
    + pose proof (ui_loop_apart _ _ _ _ H1 E2) as H2.
      pose proof (resolve_apart _ H2) as H3.
      intros [= <-].
      destruct (resolve s2) as [s3 ops3|r3 s3 ops3|ops3]; simpl;
        [now subst| |exact I].
      subst. now destruct r3.
    + intros [= <-]. simpl.
      pose proof (ui_loop_returned _ _ _ _ _ E2) as ->. exact I.
    + intros [= <-]. exact I.
  - intros [= <-].
    pose proof (poll_loop_returned _ _ _ _ _ E1) as ->. exact I.
  - intros [= <-]. exact I.
Qed.

(** From the initial state the resolution test never has to turn the
    choice around: the colour returned is the local choice as the frame's
    input left it. *)
Lemma no_flip_at_resolution frames : forall (s : screen) c s' ops,
  apart s ->
  color_select_screen s frames = Ok (Some (Returned (Some c) s' ops)) ->
  final_flips s' = 0%nat.
Proof.
  induction frames as [|[inbox es] rest IH]; intros s c s' ops Ha; simpl.
  - discriminate.
  - destruct (frame s inbox es) as [o|] eqn:E; simpl; [|discriminate].
    pose proof (frame_apart _ _ _ _ Ha E) as Ho.
    destruct o as [s1 ops1|r1 s1 ops1|ops1].
    + destruct (color_select_screen s1 rest) as [[o'|]|] eqn:E';
        simpl; try discriminate.
      destruct o' as [s2 ops2|r2 s2 ops2|ops2]; simpl; try discriminate.
      intros [= -> <- _]. eapply IH; eauto.
    + intros [= -> <- _]. apply Ho.
    + discriminate.
Qed.

Lemma screen_init_apart : apart screen_init.
Proof. split; reflexivity. Qed.

(** ** What the screen sends *)

Lemma pick_sends (s : screen) desired :
  desired = "white" \/ desired = "black" ->
  sends_choices (snd (pick s desired)).
Proof.
  intros Hd d. unfold pick; simpl.
  destruct (sent s); [intros []|].
  intros [[= <-]|[]]. unfold choose_shaped.
  destruct (eq_str (remote_choice s) desired), Hd as [-> | ->]; auto.
Qed.

Lemma ui_loop_sends es : forall s : screen, sends_choices (ops_of (ui_loop s es)).
Proof.
  induction es as [|e rest IH]; intros s; simpl; [apply sends_choices_nil|].
  destruct e; simpl; try apply sends_choices_close; try apply IH;
    rewrite ops_of_prepend; apply sends_choices_app; try apply IH;
    try apply sends_choices_nil.
  - apply (pick_sends s "white"); auto.
  - apply (pick_sends s "black"); auto.
Qed.

Lemma poll_loop_sends inbox : forall (s : screen) o,
  poll_loop s inbox = Ok o -> sends_choices (ops_of o).
Proof.
  induction inbox as [|e rest IH]; intros s o; simpl.
  - intros [= <-]. apply sends_choices_nil.
  - destruct e as [addr|payload|].
    + apply IH.
    + destruct (on_msg s payload) as [s1|]; simpl; [apply IH|discriminate].
    + intros [= <-]. apply sends_choices_close.
Qed.

Lemma resolve_sends (s : screen) : ops_of (resolve s) = [].
Proof.
  unfold resolve.
  destruct (chosen (local_choice s) && truthy (remote_choice s)); [|reflexivity].
  destruct (same_choice (local_choice s) (remote_choice s)); reflexivity.
Qed.

Lemma frame_sends (s : screen) inbox es o :
  frame s inbox es = Ok o -> sends_choices (ops_of o).
Proof.
  unfold frame.
  destruct (poll_loop s inbox) as [o1|] eqn:E1; simpl; [|discriminate].
  pose proof (poll_loop_sends _ _ _ E1) as H1.
  destruct o1 as [s1 ops1|r1 s1 ops1|ops1]; try (intros [= <-]; exact H1).
  pose proof (ui_loop_sends es s1) as H2.
  destruct (ui_loop s1 es) as [s2 ops2|r2 s2 ops2|ops2]; intros [= <-].
  - rewrite ops_of_prepend, resolve_sends, app_nil_r.
    now apply sends_choices_app.
  - simpl. now apply sends_choices_app.
  - simpl. now apply sends_choices_app.
Qed.

End ColorSelectFacts.

(** ** The theorem at work *)

Import ColorSelect.

(** The local side presses White; then the peer's White arrives. *)
Definition late_collision
  : list (list (NetPlay.event Z) * list ui_event) :=
  [([], [ClickWhite]); ([NetPlay.Msg (choose_record "white")], [])].

Definition turned_black : screen Z :=
  mkScreen (Some "black"%string) (JStr "white") true 1 0 1 0.

(** On that run the flip on receipt has already settled the matter when
    the resolution test is reached. *)
Lemma late_collision_returns_black :
  color_select_screen screen_init late_collision
    = Ok (Some (Returned (Some "black"%string) turned_black
                  [OpSend (choose_record "white")])) /\
  final_flips turned_black = 0%nat.
Proof. split; reflexivity. Qed.




End ColorSelectFacts.

(* ===================================================================== *)
(** * Properties of the negotiation *)
(* ===================================================================== *)

Module NegotiationFacts.

(** The two colours, and where a peer that presses a colour button at
    most once can be. *)
Inductive side : Type := White | Black.

Definition name (c : side) : string :=
  match c with White => "white" | Black => "black" end.

Definition other (c : side) : side :=
  match c with White => Black | Black => White end.

Inductive phase : Type :=
| Idle (h : option side)             (* nothing pressed; heard [h] *)
| Announced (a : side)               (* pressed and sent [a], nothing heard *)
| Apart (c : side) (avoided : bool)  (* heard [c], holds the other colour *)
| Swapped (a : side).                (* sent [a], heard [a], turned around *)

Definition ann_of (ph : phase) : list string :=
  match ph with
  | Idle _ => []
  | Announced a => [name a]
  | Apart c _ => [name (other c)]
  | Swapped a => [name a]
  end.

Definition hs_of (ph : phase) : list string :=
  match ph with
  | Idle None => []
  | Idle (Some c) => [name c]
  | Announced _ => []
  | Apart c _ => [name c]
  | Swapped a => [name a]
  end.

(** The colour a settled peer holds. *)
Definition holds (ph : phase) : option string :=
  match ph with
  | Apart c _ => Some (name (other c))
  | Swapped a => Some (name (other a))
  | _ => None
  end.

Definition hear (ph : phase) (c : side) : phase :=
  match ph with
  | Idle _ => Idle (Some c)
  | Announced a =>
      match a, c with
      | White, White | Black, Black => Swapped a
      | _, _ => Apart c false
      end
  | _ => ph
  end.

Definition press (h : option side) (d : side) : phase :=
  match h with
  | None => Announced d
  | Some c =>
      match c, d with
      | White, White | Black, Black => Apart c true
      | _, _ => Apart c false
      end
  end.

Section NegotiationFacts.
Context {F : Type} `{PyFloat F}.
Import NetPlay ColorSelect Negotiation ColorSelectFacts.

#[local] Abbreviation screen := (ColorSelect.screen F).
#[local] Abbreviation outcome := (ColorSelect.outcome F).

Definition screen_of (ph : phase) : screen :=
  match ph with
  | Idle None => mkScreen None JNull false 0 0 0 0
  | Idle (Some c) => mkScreen None (JStr (name c)) false 0 0 0 0
  | Announced a => mkScreen (Some (name a)) JNull true 1 0 0 0
  | Apart c avoided =>
      mkScreen (Some (name (other c))) (JStr (name c)) true 1
        (if avoided then 1 else 0) 0 0
  | Swapped a =>
      mkScreen (Some (name (other a))) (JStr (name a)) true 1 0 1 0
  end.

(** The events two negotiating peers can find in their inbox. *)
Definition good (e : event F) : Prop :=
  e = Closed \/ exists c, e = Msg (choose_record (name c)).

(** The colours announced by a list of events. *)
Definition ev_colors (es : list (event F)) : list string :=
  flat_map (fun e => match e with
                     | Msg d => sent_color d
                     | _ => []
                     end) es.

Lemma ev_colors_app a b : ev_colors (a ++ b) = ev_colors a ++ ev_colors b.
Proof. apply flat_map_app. Qed.

Lemma hear_msg ph c :
  hs_of ph = [] ->
  on_msg (screen_of ph) (choose_record (name c)) = Ok (screen_of (hear ph c)) /\
  ann_of (hear ph c) = ann_of ph /\
  hs_of (hear ph c) = [name c].
Proof.
  destruct ph as [[h|]|a|c' av|a]; simpl; try discriminate; intros _.
  - destruct c; repeat split.
  - destruct a, c; repeat split.
Qed.

Lemma press_pick h d :
  exists a,
    pick (screen_of (Idle h)) (name d) =
      (screen_of (press h d), [OpSend (choose_record a)]) /\
    ann_of (press h d) = [a] /\
    hs_of (press h d) = hs_of (Idle h).
Proof.
  destruct h as [c|]; [destruct c, d|destruct d]; cbv; eauto.
Qed.

Lemma resolve_phase ph :
  resolve (screen_of ph) =
    match holds ph with
    | Some r => Returned (Some r) (screen_of ph) []
    | None => Continue (screen_of ph) []
    end.
Proof.
  destruct ph as [[[]|]|[]|[] av|[]]; reflexivity.
Qed.

(** ** What a frame does, whatever the state *)

Lemma colors_of_app (a b : list (netop F)) :
  colors_of (a ++ b) = colors_of a ++ colors_of b.
Proof.
  induction a as [|[d|] a IH]; simpl; [reflexivity| |exact IH].
  now rewrite IH, app_assoc.
Qed.

Lemma prepend_nil (o : outcome) : prepend [] o = o.
Proof. destruct o; reflexivity. Qed.

Lemma on_msg_good (s : screen) c :
  exists s', on_msg s (choose_record (name c)) = Ok s' /\
             picks s' = picks s /\ sent s' = sent s.
Proof.
  unfold on_msg; simpl.
  match goal with
  | |- context [if ?b then _ else _] => destruct b
  end; eexists; repeat split.
Qed.

(** What is known of a frame's outcome: it keeps the button count and the
    [sent] flag from going down. *)
Definition grows (s : screen) (o : outcome) : Prop :=
  match o with
  | Continue s' _ | Returned _ s' _ =>
      picks s <= picks s' /\ (sent s = true -> sent s' = true)
  | Exited _ => True
  end.

Lemma grows_trans (s s1 : screen) ops (o : outcome) :
  picks s <= picks s1 -> (sent s = true -> sent s1 = true) ->
  grows s1 o -> grows s (prepend ops o).
Proof.
  intros Hp Hs. destruct o; simpl; auto; intros [Hp' Hs']; split; auto; lia.
Qed.

Lemma poll_loop_good polled : forall s : screen,
  Forall good polled ->
  exists o, poll_loop s polled = Ok o /\ grows s o /\
            colors_of (ops_of o) = [] /\
            match o with
            | Continue s' ops => sent s' = sent s /\ ops = []
            | Returned r _ _ => r = None
            | Exited _ => False
            end.
Proof.
  induction polled as [|e rest IH]; intros s Hgood; simpl.
  - eexists; repeat split; auto.
  - inversion Hgood as [|e' rest' [->|[c ->]] Hrest]; subst.
    + eexists; repeat split; auto.
    + destruct (on_msg_good s c) as (s1 & -> & Hp & Hs). simpl.
      destruct (IH s1 Hrest) as (o & -> & Hg & Hc & Ho).
      exists o. repeat split; auto.
      * destruct o; simpl in *; auto; rewrite <- Hp, <- Hs; exact Hg.
      * destruct o; auto. destruct Ho as [Ho ->]. split; congruence.
Qed.

Lemma pick_facts (s : screen) d :
  picks (fst (pick s d)) = S (picks s) /\
  sent (fst (pick s d)) = true /\
  (sent s = true -> snd (pick s d) = []) /\
  List.length (colors_of (snd (pick s d))) <= 1.
Proof.
  unfold pick; simpl. repeat split.
  - now intros ->.
  - destruct (sent s); simpl; auto.
Qed.

(** The colours a frame sends: none once [sent] is set, one at most. *)
Definition sends_once (s : screen) (o : outcome) : Prop :=
  (sent s = true -> colors_of (ops_of o) = []) /\
  List.length (colors_of (ops_of o)) <= 1 /\
  match o with
  | Continue s' _ => colors_of (ops_of o) <> [] -> sent s' = true
  | _ => True
  end.

Lemma ui_loop_general es : forall s : screen,
  grows s (ui_loop s es) /\ sends_once s (ui_loop s es).
Proof.
  induction es as [|e rest IH]; intros s.
  - simpl. repeat split; auto.
  - assert (Hskip : grows s (prepend [] (ui_loop s rest)) /\
                    sends_once s (prepend [] (ui_loop s rest)))
      by (rewrite prepend_nil; apply IH).
    assert (Hpick : forall d,
               grows s (prepend (snd (pick s d)) (ui_loop (fst (pick s d)) rest)) /\
               sends_once s (prepend (snd (pick s d))
                               (ui_loop (fst (pick s d)) rest))).
    { intros d. destruct (pick_facts s d) as (Hp & Hs & Hnone & Hlen).
      destruct (IH (fst (pick s d))) as [Hg (Hq & _ & Hc)].
      split.
      - apply (grows_trans s (fst (pick s d))); [lia|auto|exact Hg].
      - unfold sends_once. rewrite ops_of_prepend, colors_of_app.
        rewrite (Hq Hs), app_nil_r. repeat split; auto.
        + intros Hsent. now rewrite (Hnone Hsent).
        + destruct (ui_loop (fst (pick s d)) rest); simpl; auto.
          intros _. destruct Hg as [_ Hg]. auto. }
    destruct e; simpl; try exact Hskip.
    + repeat split; auto.
    + exact (Hpick "white").
    + exact (Hpick "black").
    + repeat split; auto.
Qed.

Lemma resolve_general (s : screen) :
  grows s (resolve s) /\ ops_of (resolve s) = [].
Proof.
  split; [|apply resolve_sends].
  unfold resolve.
  destruct (chosen (local_choice s) && truthy (remote_choice s));
    [|simpl; auto].
  destruct (same_choice (local_choice s) (remote_choice s)); simpl; auto.
Qed.

Lemma frame_general (s : screen) polled es :
  Forall good polled ->
  exists o, frame s polled es = Ok o /\ grows s o /\ sends_once s o.
Proof.
  intros Hgood. unfold frame.
  destruct (poll_loop_good polled s Hgood) as (o1 & -> & Hg1 & Hc1 & Ho1).
  simpl. destruct o1 as [s1 ops1|r1 s1 ops1|ops1]; [| |tauto].
  - destruct Ho1 as [Hs1 ->]. destruct Hg1 as [Hp1 Hq1].
    destruct (ui_loop_general es s1) as [Hg2 (Hn2 & Hl2 & Hc2)].
    rewrite Hs1 in Hn2.
    destruct (ui_loop s1 es) as [s2 ops2|r2 s2 ops2|ops2] eqn:E2;
      (eexists; split; [reflexivity|]).
    + destruct (resolve_general s2) as [Hg3 Ho3]. simpl in Hg2, Hn2, Hl2, Hc2.
      split.
      * apply (grows_trans s s2); [lia|intuition|exact Hg3].
      * unfold sends_once. rewrite ops_of_prepend, Ho3, app_nil_r.
        split; [exact Hn2|]. split; [exact Hl2|].
        destruct (resolve s2) as [s3 ops3|r3 s3 ops3|ops3]; simpl; auto.
        intros Hne. destruct Hg3 as [_ Hg3]. auto.
    + simpl in *. split; [split; [lia|intuition]|].
      unfold sends_once; simpl. auto.
    + simpl in *. split; [exact I|].
      unfold sends_once; simpl. auto.
  - eexists; split; [reflexivity|].
    split; [exact Hg1|]. unfold sends_once. rewrite Hc1. simpl.
    repeat split; auto.
Qed.

(** ** What a frame does to a peer that presses at most once *)

Lemma poll_phase polled : forall ph,
  Forall good polled ->
  List.length (ev_colors polled) + List.length (hs_of ph) <= 1 ->
  (exists ph',
      poll_loop (screen_of ph) polled = Ok (Continue (screen_of ph') []) /\
      ann_of ph' = ann_of ph /\
      hs_of ph' = hs_of ph ++ ev_colors polled) \/
  (exists s', poll_loop (screen_of ph) polled = Ok (Returned None s' [OpClose])).
Proof.
  induction polled as [|e rest IH]; intros ph Hgood Hlen.
  - left. exists ph. simpl. now rewrite app_nil_r.
  - inversion Hgood as [|e' rest' [->|[c ->]] Hrest]; subst.
    + right. eexists. reflexivity.
    + simpl in Hlen.
      assert (Hhs : hs_of ph = []) by (destruct (hs_of ph); [reflexivity|simpl in Hlen; lia]).
      destruct (hear_msg ph c Hhs) as (Hmsg & Hann & Hh).
      cbn [poll_loop]. rewrite Hmsg. cbn [bind].
      destruct (IH (hear ph c) Hrest) as [(ph' & Hp & Ha & Hs)|[s' Hp]].
      * rewrite Hh. simpl. rewrite Hhs in Hlen. simpl in Hlen. lia.
      * left. exists ph'. rewrite Hp. repeat split; [congruence|].
        rewrite Hs, Hh, Hhs. reflexivity.
      * right. exists s'. exact Hp.
Qed.

Lemma ui_loop_pick (s : screen) rest :
  ui_loop s (ClickWhite :: rest) =
    prepend (snd (pick s "white")) (ui_loop (fst (pick s "white")) rest) /\
  ui_loop s (ClickBlack :: rest) =
    prepend (snd (pick s "black")) (ui_loop (fst (pick s "black")) rest).
Proof. split; reflexivity. Qed.

Definition phase_after (ph : phase) (ops : list (netop F)) (heard : list string)
    (s' : screen) (ph' : phase) : Prop :=
  s' = screen_of ph' /\
  ann_of ph' = ann_of ph ++ colors_of ops /\
  hs_of ph' = hs_of ph ++ heard.

Lemma ui_phase es : forall ph,
  match ui_loop (screen_of ph) es with
  | Continue s' ops =>
      picks s' <= 1 -> exists ph', phase_after ph ops [] s' ph'
  | _ => True
  end.
Proof.
  induction es as [|e rest IH]; intros ph.
  - simpl. intros _. exists ph. unfold phase_after. now rewrite !app_nil_r.
  - assert (Hskip : match prepend [] (ui_loop (screen_of ph) rest) with
                    | Continue s' ops =>
                        picks s' <= 1 -> exists ph', phase_after ph ops [] s' ph'
                    | _ => True
                    end) by (rewrite prepend_nil; apply IH).
    assert (Hpick : forall d,
               match prepend (snd (pick (screen_of ph) (name d)))
                       (ui_loop (fst (pick (screen_of ph) (name d))) rest) with
               | Continue s' ops =>
                   picks s' <= 1 -> exists ph', phase_after ph ops [] s' ph'
               | _ => True
               end).
    { intros d.
      destruct (ui_loop_general rest (fst (pick (screen_of ph) (name d))))
        as [Hg _].
      destruct (pick_facts (screen_of ph) (name d)) as (Hp & _).
      clear Hskip.
      destruct ph as [h|a|c av|a];
        [|match goal with Hg : grows _ ?o |- _ => destruct o end;
          simpl in *; auto; destruct Hg; lia ..].
      destruct (press_pick h d) as (a & Hpk & Hann & Hhs).
      rewrite Hpk. simpl fst. simpl snd.
      specialize (IH (press h d)).
      destruct (ui_loop (screen_of (press h d)) rest) as [s' ops'| |];
        simpl; auto.
      intros Hle. destruct (IH Hle) as (ph' & -> & Ha & Hh).
      exists ph'. unfold phase_after. rewrite Ha, Hh, Hann, Hhs.
      repeat split. }
    destruct e; try exact I; try exact Hskip.
    + rewrite (proj1 (ui_loop_pick _ _)). exact (Hpick White).
    + rewrite (proj2 (ui_loop_pick _ _)). exact (Hpick Black).
Qed.

(** One whole frame from a known phase. *)
Lemma frame_phase ph polled es :
  Forall good polled ->
  List.length (ev_colors polled) + List.length (hs_of ph) <= 1 ->
  exists o, frame (screen_of ph) polled es = Ok o /\
    match o with
    | Continue s' ops =>
        picks s' <= 1 ->
        exists ph', phase_after ph ops (ev_colors polled) s' ph' /\
                    holds ph' = None
    | Returned (Some r) s' ops =>
        picks s' <= 1 ->
        exists ph', phase_after ph ops (ev_colors polled) s' ph' /\
                    holds ph' = Some r
    | _ => True
    end.
Proof.
  intros Hgood Hlen. unfold frame.
  destruct (poll_phase polled ph Hgood Hlen) as [(ph1 & -> & Ha1 & Hs1)|[s' ->]];
    [|eexists; split; [reflexivity|exact I]].
  cbn [bind]. pose proof (ui_phase es ph1) as Hui.
  destruct (ui_loop (screen_of ph1) es) as [s2 ops2|r2 s2 ops2|ops2] eqn:E2.
  - eexists; split; [reflexivity|]. simpl app.
    assert (Hres : forall ph2, s2 = screen_of ph2 ->
               resolve s2 = match holds ph2 with
                            | Some r => Returned (Some r) s2 []
                            | None => Continue s2 []
                            end)
      by (intros ph2 ->; apply resolve_phase).
    destruct (resolve_general s2) as [Hg3 _].
    destruct (resolve s2) as [s3 ops3|r3 s3 ops3|ops3] eqn:E3; simpl.
    + intros Hle. destruct Hg3 as [Hp3 _].
      destruct Hui as (ph2 & Hs2 & Ha2 & Hh2); [lia|].
      pose proof (Hres ph2 Hs2) as E.
      destruct (holds ph2) eqn:Ehold; [discriminate|].
      injection E as -> ->. exists ph2. unfold phase_after.
      rewrite app_nil_r, Ha2, Hh2, Ha1, Hs1, app_nil_r. auto.
    + destruct r3 as [r|]; [|exact I].
      intros Hle. destruct Hg3 as [Hp3 _].
      destruct Hui as (ph2 & Hs2 & Ha2 & Hh2); [lia|].
      pose proof (Hres ph2 Hs2) as E.
      destruct (holds ph2) eqn:Ehold; [|discriminate].
      injection E as -> -> ->. exists ph2. unfold phase_after.
      rewrite app_nil_r, Ha2, Hh2, Ha1, Hs1, app_nil_r. auto.
    + exact I.
  - eexists; split; [reflexivity|]. simpl.
    pose proof (ui_loop_returned _ _ _ _ _ E2) as ->. exact I.
  - eexists; split; [reflexivity|]. exact I.
Qed.

(** ** Invariants of the two-peer system *)

#[local] Abbreviation peer := (@Negotiation.peer F).

(** A peer announces at most once. *)
Definition tidy (p : peer) : Prop :=
  List.length (announced p) <= 1 /\
  (stat p = Running -> announced p = [] \/ sent (scr p) = true).

(** What [x] has heard or still has in its inbox is what [y] announced. *)
Definition linked (x y : peer) : Prop :=
  Forall good (heard x ++ inbox x) /\
  ev_colors (heard x ++ inbox x) = announced y.

(** A peer that pressed at most once is in one of the phases. *)
Definition placed (p : peer) : Prop :=
  picks (scr p) <= 1 ->
  match stat p with
  | Running =>
      exists ph, scr p = screen_of ph /\ announced p = ann_of ph /\
                 ev_colors (heard p) = hs_of ph /\ holds ph = None
  | Done (Some r) =>
      exists ph, scr p = screen_of ph /\ announced p = ann_of ph /\
                 ev_colors (heard p) = hs_of ph /\ holds ph = Some r
  | Crashed _ => False
  | _ => True
  end.

Definition sys_inv (sys : peer * peer) : Prop :=
  tidy (fst sys) /\ tidy (snd sys) /\
  linked (fst sys) (snd sys) /\ linked (snd sys) (fst sys) /\
  placed (fst sys) /\ placed (snd sys).

Lemma deliveries_good (ops : list (netop F)) :
  sends_choices ops ->
  Forall good (deliveries ops) /\ ev_colors (deliveries ops) = colors_of ops.
Proof.
  induction ops as [|[d|] ops IH]; intros Hs; simpl.
  - split; [constructor|reflexivity].
  - destruct IH as [Hg Hc].
    { intros d' Hd'. apply Hs. now right. }
    destruct (Hs d (or_introl eq_refl)) as [-> | ->]; simpl; rewrite Hc;
      (split; [constructor; [right|exact Hg]|reflexivity]).
    + now exists White.
    + now exists Black.
  - destruct IH as [Hg Hc].
    { intros d' Hd'. apply Hs. now right. }
    split; [constructor; [now left|exact Hg]|exact Hc].
Qed.

Lemma peer_frame_inv k es (x y : peer) :
  tidy x -> linked x y -> List.length (announced y) <= 1 -> placed x ->
  tidy (fst (peer_frame k es x)) /\
  placed (fst (peer_frame k es x)) /\
  heard (fst (peer_frame k es x)) ++ inbox (fst (peer_frame k es x))
    = heard x ++ inbox x /\
  announced (fst (peer_frame k es x))
    = announced x ++ colors_of (snd (peer_frame k es x)) /\
  sends_choices (snd (peer_frame k es x)).
Proof.
  intros [Hlen Hsent] [Hgood Hlink] Hy Hplaced. unfold peer_frame.
  destruct (stat x) eqn:Estat;
    try (simpl; rewrite app_nil_r; repeat split; auto;
         try (intros; congruence); try apply sends_choices_nil;
         unfold placed; rewrite Estat; exact Hplaced).
  specialize (Hsent eq_refl).
  set (polled := firstn k (inbox x)). set (left := skipn k (inbox x)).
  assert (Hsplit : inbox x = polled ++ left)
    by (symmetry; apply firstn_skipn).
  assert (Hgp : Forall good polled).
  { rewrite Hsplit in Hgood. apply Forall_app in Hgood as [_ Hg].
    now apply Forall_app in Hg as [Hg _]. }
  assert (Hcount : List.length (ev_colors (heard x)) +
                   List.length (ev_colors polled) <= 1).
  { rewrite <- Hlink, Hsplit, !ev_colors_app, !length_app in Hy. lia. }
  assert (Hconserve : (heard x ++ polled) ++ left = heard x ++ inbox x)
    by (now rewrite Hsplit, app_assoc).
  destruct (frame_general (scr x) polled es Hgp) as (o & Ho & Hgrow & Hn & Hl & Hc).
  pose proof (frame_sends _ _ _ _ Ho) as Hsends.
  assert (Hann : List.length (announced x ++ colors_of (ops_of o)) <= 1).
  { destruct Hsent as [-> | Hs]; [exact Hl|].
    now rewrite (Hn Hs), app_nil_r. }
  assert (Hphase : picks (scr x) <= 1 ->
            exists ph, scr x = screen_of ph /\ announced x = ann_of ph /\
                       ev_colors (heard x) = hs_of ph).
  { intros Hp. specialize (Hplaced Hp). rewrite Estat in Hplaced.
    destruct Hplaced as (ph & ? & ? & ? & _). eauto. }
  rewrite Ho.
  destruct o as [s ops|r s ops|ops]; simpl in *.
  - repeat split; auto.
    + intros _. destruct (colors_of ops) as [|c cs] eqn:Ec.
      * rewrite app_nil_r. destruct Hsent as [-> | Hs]; auto.
        right. now apply Hgrow.
      * right. apply Hc. discriminate.
    + unfold placed; simpl. intros Hp. destruct Hgrow as [Hpk _].
      destruct Hphase as (ph & Hs & Ha & Hh); [lia|].
      destruct (frame_phase ph polled es Hgp) as (o' & Ho' & Hres).
      { rewrite <- Hh. lia. }
      rewrite <- Hs, Ho in Ho'. injection Ho' as <-.
      destruct (Hres Hp) as (ph' & (-> & Ha' & Hh') & Hhold).
      exists ph'. rewrite ev_colors_app, Ha, Hh. auto.
  - repeat split; auto; try discriminate.
    unfold placed; simpl. intros Hp. destruct r as [r|]; [|exact I].
    destruct Hgrow as [Hpk _].
    destruct Hphase as (ph & Hs & Ha & Hh); [lia|].
    destruct (frame_phase ph polled es Hgp) as (o' & Ho' & Hres).
    { rewrite <- Hh. lia. }
    rewrite <- Hs, Ho in Ho'. injection Ho' as <-.
    destruct (Hres Hp) as (ph' & (-> & Ha' & Hh') & Hhold).
    exists ph'. rewrite ev_colors_app, Ha, Hh. auto.
  - repeat split; auto; try discriminate; unfold placed; simpl; auto.
Qed.

(** The first peer runs a frame. *)
Definition step_first (k : nat) (es : list ui_event) (sys : peer * peer)
  : peer * peer :=
  (fst (peer_frame k es (fst sys)),
   receive (deliveries (snd (peer_frame k es (fst sys)))) (snd sys)).

Definition swap (sys : peer * peer) : peer * peer := (snd sys, fst sys).

Lemma sys_step_cases who k es sys :
  sys_step (who, k, es) sys =
    if who then step_first k es sys else swap (step_first k es (swap sys)).
Proof.
  destruct sys as [a b], who; unfold sys_step, step_first, swap; simpl.
  - now destruct (peer_frame k es a).
  - now destruct (peer_frame k es b).
Qed.

Lemma sys_inv_swap sys : sys_inv sys -> sys_inv (swap sys).
Proof. unfold sys_inv, swap; simpl. tauto. Qed.

Lemma step_first_inv k es sys : sys_inv sys -> sys_inv (step_first k es sys).
Proof.
  destruct sys as [a b]. unfold sys_inv, step_first; simpl.
  intros (Ta & Tb & Lab & Lba & Pa & Pb).
  destruct (peer_frame_inv k es a b Ta Lab (proj1 Tb) Pa)
    as (Ta' & Pa' & Hcons & Hann & Hsends).
  destruct (deliveries_good _ Hsends) as [Hdg Hdc].
  destruct Lab as [Gab Cab]. destruct Lba as [Gba Cba].
  repeat split; auto.
  - exact (proj1 Ta').
  - exact (proj2 Ta').
  - exact (proj1 Tb).
  - exact (proj2 Tb).
  - now rewrite Hcons.
  - now rewrite Hcons.
  - simpl. rewrite app_assoc. apply Forall_app. auto.
  - simpl. rewrite app_assoc, ev_colors_app, Cba, Hdc. now rewrite Hann.
Qed.

Lemma sys_inv_init : sys_inv (peer_init, peer_init).
Proof.
  unfold sys_inv, tidy, linked, placed; simpl.
  repeat split; auto; intros _; exists (Idle None); auto.
Qed.

Lemma negotiate_inv sched : sys_inv (negotiate sched).
Proof.
  unfold negotiate.
  assert (Hgen : forall sys, sys_inv sys ->
             sys_inv (fold_left (fun sys c => sys_step c sys) sched sys)).
  { induction sched as [|[[who k] es] rest IH]; intros sys Hinv;
      cbn [fold_left].
    - exact Hinv.
    - apply IH. rewrite sys_step_cases. destruct who.
      + now apply step_first_inv.
      + now apply sys_inv_swap, step_first_inv, sys_inv_swap. }
  apply Hgen, sys_inv_init.
Qed.

Lemma collision_on_receipt (s : screen) c :
  local_choice s = Some c -> (c =? EmptyString) = false ->
  exists s',
    poll_loop s [Msg (choose_record c)] = Ok (Continue s' []) /\
    local_choice s' = Some (other_side c) /\
    remote_choice s' = JStr c /\
    sent s' = sent s.
Proof.
  intros Hl Hc. unfold poll_loop, on_msg; simpl.
  rewrite Hl; simpl. rewrite Hc, String.eqb_refl. simpl.
  eexists; repeat split.
Qed.

Lemma settled_pair (a b : peer) ra rb :
  sys_inv (a, b) ->
  picks (scr a) <= 1 -> picks (scr b) <= 1 ->
  stat a = Done (Some ra) -> stat b = Done (Some rb) ->
  ~ race (a, b) ->
  ra <> rb /\ flips a <= 1 /\ flips b <= 1.
Proof.
  intros (_ & _ & [_ Lab] & [_ Lba] & Pa & Pb) Hpa Hpb Ha Hb Hrace.
  simpl in *. specialize (Pa Hpa). specialize (Pb Hpb).
  rewrite Ha in Pa. rewrite Hb in Pb.
  destruct Pa as (pa & Hsa & Hana & Hha & Hra).
  destruct Pb as (pb & Hsb & Hanb & Hhb & Hrb).
  rewrite ev_colors_app, Hha, Hanb in Lab.
  rewrite ev_colors_app, Hhb, Hana in Lba.
  unfold race, flips in *. simpl in Hrace. rewrite Hsa, Hsb in *.
  destruct pa as [ha|aa|ca ava|aa]; try discriminate;
    destruct pb as [hb|ab|cb avb|ab]; try discriminate;
    simpl in *;
    injection Hra as <-; injection Hrb as <-;
    injection Lab as Lab _; injection Lba as Lba _.
  - destruct ca, cb, ava, avb; try discriminate; simpl;
      repeat split; try lia; discriminate.
  - destruct ca, ab; discriminate.
  - destruct aa, cb; discriminate.
  - exfalso. apply Hrace. lia.
Qed.

Lemma waiting_peer (a b : peer) :
  sys_inv (a, b) -> picks (scr a) <= 1 -> stat a = Running ->
  announced a = [] \/ ev_colors (heard a) = [].
Proof.
  intros (_ & _ & _ & _ & Pa & _) Hpa Ha. simpl in *.
  specialize (Pa Hpa). rewrite Ha in Pa.
  destruct Pa as (pa & _ & -> & -> & Hhold).
  destruct pa as [[h|]|a'|c av|a']; try discriminate; simpl; auto.
Qed.

(** C4, as the code has it.  A peer that holds a choice and receives the
    same choice from the other side turns its own choice around and sends
    nothing.  When each peer presses a colour button at most once: a peer
    that has pressed and has received the other announcement has left the
    screen; and if both left it with a colour and the two did not both turn
    around on receipt, the colours differ and each peer turned its choice
    around at most once. *)
Theorem negotiation_with_single_picks :
  (forall (s : screen) c,
     local_choice s = Some c -> (c =? EmptyString) = false ->
     exists s',
       poll_loop s [Msg (choose_record c)] = Ok (Continue s' []) /\
       local_choice s' = Some (other_side c) /\
       remote_choice s' = JStr c /\
       sent s' = sent s) /\
  (forall sched : list choice,
     picks (scr (fst (negotiate (F := F) sched))) <= 1 ->
     picks (scr (snd (negotiate (F := F) sched))) <= 1 ->
     (stat (fst (negotiate sched)) = Running ->
      announced (fst (negotiate sched)) = [] \/
      ev_colors (heard (fst (negotiate sched))) = []) /\
     (stat (snd (negotiate sched)) = Running ->
      announced (snd (negotiate sched)) = [] \/
      ev_colors (heard (snd (negotiate sched))) = []) /\
     (forall ra rb,
        stat (fst (negotiate sched)) = Done (Some ra) ->
        stat (snd (negotiate sched)) = Done (Some rb) ->
        ~ race (negotiate sched) ->
        ra <> rb /\
        flips (fst (negotiate sched)) <= 1 /\
        flips (snd (negotiate sched)) <= 1)).
Proof.
  split; [exact collision_on_receipt|].
  intros sched Hpa Hpb.
  pose proof (negotiate_inv sched) as Hinv.
  destruct (negotiate sched) as [a b]. simpl in *.
  split; [|split].
  - now apply (waiting_peer a b).
  - apply (waiting_peer b a); auto. now apply (sys_inv_swap (a, b)).
  - intros ra rb Ha Hb Hrace. now apply (settled_pair a b).
Qed.

End NegotiationFacts.

(** ** The theorems at work *)

Import Negotiation ColorSelect.

(** The host takes White; the joiner sees that, presses White as well, is
    given Black and answers; the host hears Black. *)
Definition polite : list choice :=
  [(true, 0, [ClickWhite]); (false, 1, [ClickWhite]); (true, 1, [])].

Lemma negotiation_witness :
  stat (fst (negotiate (F := Z) polite)) = Done (Some "white"%string) /\
  stat (snd (negotiate (F := Z) polite)) = Done (Some "black"%string) /\
  "white"%string <> "black"%string /\
  flips (fst (negotiate (F := Z) polite)) <= 1 /\
  flips (snd (negotiate (F := Z) polite)) <= 1.
Proof.
  assert (Hpa : picks (scr (fst (negotiate (F := Z) polite))) <= 1)
    by (vm_compute; lia).
  assert (Hpb : picks (scr (snd (negotiate (F := Z) polite))) <= 1)
    by (vm_compute; lia).
  assert (Hrace : ~ race (negotiate (F := Z) polite))
    by (intros [Hr _]; vm_compute in Hr; lia).
  destruct (proj2 negotiation_with_single_picks polite Hpa Hpb)
    as (_ & _ & Hall).
  split; [reflexivity|]. split; [reflexivity|].
  exact (Hall "white"%string "black"%string eq_refl eq_refl Hrace).
Defined.

(** The first peer presses White and then Black, the second presses White
    before it has heard anything: only the second one turns around on
    receipt, and both leave the screen with Black. *)
Definition second_thoughts : list choice :=
  [(true, 0, [ClickWhite]); (true, 0, [ClickBlack]); (false, 0, [ClickWhite]);
   (true, 1, []); (false, 1, [])].

Lemma same_side_without_race :
  stat (fst (negotiate (F := Z) second_thoughts)) = Done (Some "black"%string) /\
  stat (snd (negotiate (F := Z) second_thoughts)) = Done (Some "black"%string) /\
  rx_flips (scr (fst (negotiate (F := Z) second_thoughts))) = 0 /\
  ~ race (negotiate (F := Z) second_thoughts).
Proof.
  repeat split. intros [Hr _]. vm_compute in Hr. lia.
Qed.

End NegotiationFacts.

(* ===================================================================== *)
(** * What is written to the wire *)
(* ===================================================================== *)

Module WireFacts.
Section WireFacts.
Context {F : Type} `{PyFloat F} {Board : Type} `{RulesEngine Board}.

Lemma tick_sends now inbox es (g : MainGame.game F Board) o :
  MainGame.tick now inbox es g = Ok o ->
  MainGameFacts.sends_moves (MainGameFacts.ops_of o).
Proof.
  intros Htick.
  destruct (MainGameFacts.tick_ok _ _ _ _ _ Htick)
    as (g1 & ops1 & g2 & o2 & Hd & _ & Hu & _ & -> & _).
  apply MainGameFacts.sends_moves_app.
  - exact (proj1 (MainGameFacts.drain_ok _ _ _ _ Hd)).
  - exact (proj1 (MainGameFacts.ui_loop_ok _ _ _ Hu)).
Qed.

(** C3, as the code has it.  The play loop sends nothing but move records
    with the keys [type], [uci], [wtime] and [btime]; the colour screen
    sends nothing but choose records with the keys [type] and [color] and
    the colour ["white"] or ["black"]; [send] writes either nothing or the
    text of [json.dumps] followed by one newline; and that text holds no
    newline itself. *)
Theorem wire_records :
  (forall now inbox es (g : MainGame.game F Board) o d,
     MainGame.tick now inbox es g = Ok o ->
     In (OpSend d) (MainGameFacts.ops_of o) ->
     MainGameFacts.move_shaped d) /\
  (forall (s : ColorSelect.screen F) inbox es o d,
     ColorSelect.frame s inbox es = Ok o ->
     In (OpSend d) (ColorSelectFacts.ops_of o) ->
     ColorSelectFacts.choose_shaped d) /\
  (forall (c : NetPlay.netplay F) d ok,
     NetPlay.wire (NetPlay.send d ok c) = NetPlay.wire c \/
     NetPlay.wire (NetPlay.send d ok c)
       = NetPlay.wire c ++ [(Dumps.dumps d ++ String Dumps.newline EmptyString)%string]) /\
  (forall d : json F, one_line (Dumps.dumps d)).
Proof.
  split; [|split; [|split]].
  - intros now inbox es g o d Htick. exact (tick_sends _ _ _ _ _ Htick d).
  - intros s inbox es o d Hframe.
    exact (ColorSelectFacts.frame_sends _ _ _ _ Hframe d).
  - intros c d ok. unfold NetPlay.send.
    destruct (NetPlay.has_sock c); simpl; auto.
    destruct (negb (NetPlay.sock_closed c) && ok); simpl; auto.
  - exact one_line_dumps.
Qed.

End WireFacts.

(** ** The records next to the shapes the specification gives *)

(** The choose record as the specification writes it, for a side ["A"] or
    ["B"]. *)
Definition spec_choose (side : string) : json Z :=
  JObj [("type", JStr "choose"); ("color", JStr side)]%string.

(** The move record as the specification writes it. *)
Definition spec_move (notation : string) (clockA clockB : pynum Z) : json Z :=
  JObj [("type", JStr "move"); ("notation", JStr notation);
        ("clockA", JNum clockA); ("clockB", JNum clockB)]%string.

Definition spec_shaped (d : json Z) : Prop :=
  d = spec_choose "A" \/ d = spec_choose "B" \/
  exists n a b, d = spec_move n a b.

(** White's own board, and the two clicks that play e2e4, one in each of
    two iterations. *)
Definition white_start : MainGame.game Z (list move) :=
  MainGame.new_game 300 300 0%Z true (Some true).

Definition click_on (sq : Z) : MainGame.ui_event :=
  MainGame.MouseDown
    (MainGame.mkClick false false false false false (Some sq) None).

Definition sent_by_play (r : res (MainGame.outcome Z (list move)))
  : list (netop Z) :=
  match r with
  | Ok o => MainGameFacts.ops_of o
  | Raise _ => []
  end.

Definition sent_by_screen (r : res (ColorSelect.outcome Z)) : list (netop Z) :=
  match r with
  | Ok o => ColorSelectFacts.ops_of o
  | Raise _ => []
  end.

Definition e2_selected : MainGame.game Z (list move) :=
  MainGame.mkGame [] (Some 12%Z) [28%Z] false (PFloat 299%Z) (PInt 300) 1%Z
    true None false false true (Some true).

Definition e2e4_record : json Z :=
  JObj [("type", JStr "move"); ("uci", JStr "e2e4");
        ("wtime", JNum (PFloat 298%Z)); ("btime", JNum (PInt 300))]%string.

Definition after_e2e4 : MainGame.game Z (list move) :=
  MainGame.mkGame [Opening.e2e4] None [] false (PFloat 298%Z) (PInt 300) 2%Z
    false (Some (12, 28)%Z) false false true (Some true).

Lemma wire_records_witness :
  MainGame.iteration 1%Z [] [click_on 12] white_start
    = Ok (MainGame.Continue e2_selected []) /\
  MainGame.iteration 2%Z [] [click_on 28] e2_selected
    = Ok (MainGame.Continue after_e2e4 [OpSend e2e4_record]) /\
  MainGame.tick 2%Z [] [click_on 28] e2_selected
    = Ok (MainGame.Continue after_e2e4 [OpSend e2e4_record]) /\
  MainGameFacts.move_shaped e2e4_record.
Proof.
  split; [reflexivity|]. split; [reflexivity|]. split; [reflexivity|].
  exact (proj1 wire_records 2%Z [] [click_on 28] e2_selected
           (MainGame.Continue after_e2e4 [OpSend e2e4_record]) e2e4_record
           eq_refl (or_introl eq_refl)).
Defined.

Lemma written_records_differ_from_spec :
  sent_by_screen
    (ColorSelect.frame ColorSelect.screen_init [] [ColorSelect.ClickWhite])
    = [OpSend (ColorSelect.choose_record "white")] /\
  ~ spec_shaped (ColorSelect.choose_record "white") /\
  sent_by_play
    (MainGame.tick 2%Z [] [click_on 28] e2_selected)
    = [OpSend e2e4_record] /\
  ~ spec_shaped e2e4_record.
Proof.
  split; [reflexivity|]. split; [|split; [reflexivity|]].
  - intros [E|[E|(n & a & b & E)]]; discriminate.
  - intros [E|[E|(n & a & b & E)]]; discriminate.
Qed.

End WireFacts.


(* ===================================================================== *)
(** * Squares and pixels: [board_to_screen_rc] and [mouse_to_square] *)
(* ===================================================================== *)

Module Layout.

Local Open Scope Z_scope.

Definition BOARD_SIZE : Z := 640.
Definition SQUARE_SIZE : Z := BOARD_SIZE / 8.

(** [chess.square(file_index, rank_index)] *)
Definition chess_square (file rank : Z) : Z := rank * 8 + file.

(** [board_to_screen_rc(square, white_bottom)]: screen row and column. *)
Definition board_to_screen_rc (square : Z) (white_bottom : bool) : Z * Z :=
  let rank := square / 8 in
  let file := square mod 8 in
  if white_bottom then (7 - rank, file) else (rank, 7 - file).

(** [mouse_to_square(mx, my, white_bottom)]; [//] rounds down, also for
    negative coordinates. *)
Definition mouse_to_square (mx my : Z) (white_bottom : bool) : option Z :=
  let col := mx / SQUARE_SIZE in
  let row := my / SQUARE_SIZE in
  let file := if white_bottom then col else 7 - col in
  let rank := if white_bottom then 7 - row else row in
  if (0 <=? file) && (file <? 8) && (0 <=? rank) && (rank <? 8)
  then Some (chess_square file rank)
  else None.

(** Where [draw_board] puts the top left corner of a square:
    [(c * SQUARE_SIZE, r * SQUARE_SIZE)]. *)
Definition corner (square : Z) (white_bottom : bool) : Z * Z :=
  let '(r, c) := board_to_screen_rc square white_bottom in
  (c * SQUARE_SIZE, r * SQUARE_SIZE).

(** The colour test of [draw_board] for the cell in row [r], column [c]:
    [LIGHT_BROWN if (r + c) % 2 == 0 else DARK_BROWN]. *)
Definition cell_is_light (r c : Z) : bool := (r + c) mod 2 =? 0.

Lemma cell_div a d : 0 <= d < 80 -> (a * 80 + d) / 80 = a.
Proof. intros H. symmetry. apply (Z.div_unique _ _ a d); lia. Qed.

Lemma in_range a : 0 <= a < 8 -> (0 <=? a) && (a <? 8) = true.
Proof. intros H. rewrite andb_true_iff, Z.leb_le, Z.ltb_lt. lia. Qed.

Lemma in_range_inv a : (0 <=? a) && (a <? 8) = true -> 0 <= a < 8.
Proof. rewrite andb_true_iff, Z.leb_le, Z.ltb_lt. lia. Qed.

(** X1.  A click anywhere inside the cell in which a square is drawn is
    mapped back to that square, in both orientations. *)
Theorem click_in_cell_finds_square square white_bottom dx dy :
  0 <= square < 64 ->
  0 <= dx < SQUARE_SIZE ->
  0 <= dy < SQUARE_SIZE ->
  mouse_to_square (fst (corner square white_bottom) + dx)
                  (snd (corner square white_bottom) + dy) white_bottom
  = Some square.
Proof.
  intros Hsq Hdx Hdy.
  change SQUARE_SIZE with 80 in Hdx, Hdy.
  assert (Hq : 0 <= square / 8 < 8) by (Z.to_euclidean_division_equations; lia).
  assert (Hr : 0 <= square mod 8 < 8) by (Z.to_euclidean_division_equations; lia).
  assert (He : square = square / 8 * 8 + square mod 8)
    by (Z.to_euclidean_division_equations; lia).
  unfold corner, board_to_screen_rc, mouse_to_square, chess_square.
  change SQUARE_SIZE with 80.
  destruct white_bottom; cbn [fst snd]; rewrite !cell_div by assumption.
  - rewrite <- andb_assoc, (in_range (square mod 8)) by assumption.
    rewrite (in_range (7 - (7 - square / 8))) by lia.
    cbn [andb]. f_equal. lia.
  - rewrite <- andb_assoc, (in_range (7 - (7 - square mod 8))) by lia.
    rewrite (in_range (square / 8)) by assumption.
    cbn [andb]. f_equal. lia.
Qed.

Lemma click_in_cell_witness :
  mouse_to_square (fst (corner 12 true) + 79) (snd (corner 12 true) + 0) true
    = Some 12 /\
  mouse_to_square (fst (corner 12 false) + 79) (snd (corner 12 false) + 0) false
    = Some 12.
Proof.
  split.
  - apply (click_in_cell_finds_square 12 true 79 0); change SQUARE_SIZE with 80; lia.
  - apply (click_in_cell_finds_square 12 false 79 0); change SQUARE_SIZE with 80; lia.
Defined.

(** X2.  [mouse_to_square] answers with a square exactly for the pixels of
    the board; the square is between 0 and 63 and is the one drawn in the
    cell that holds the pixel.  Every other position, negative coordinates
    and the sidebar included, gives [None]. *)
Theorem mouse_to_square_range mx my white_bottom :
  match mouse_to_square mx my white_bottom with
  | Some square =>
      0 <= mx < BOARD_SIZE /\ 0 <= my < BOARD_SIZE /\
      0 <= square < 64 /\
      board_to_screen_rc square white_bottom = (my / SQUARE_SIZE, mx / SQUARE_SIZE)
  | None => ~ (0 <= mx < BOARD_SIZE /\ 0 <= my < BOARD_SIZE)
  end.
Proof.
  unfold mouse_to_square, board_to_screen_rc, chess_square.
  change SQUARE_SIZE with 80. change BOARD_SIZE with 640.
  set (col := mx / 80). set (row := my / 80).
  assert (Hc : 0 <= col < 8 <-> 0 <= mx < 640)
    by (subst col; Z.to_euclidean_division_equations; lia).
  assert (Hw : 0 <= row < 8 <-> 0 <= my < 640)
    by (subst row; Z.to_euclidean_division_equations; lia).
  clearbody col row.
  destruct white_bottom; rewrite <- andb_assoc.
  - destruct ((0 <=? col) && (col <? 8)) eqn:E1;
      [apply in_range_inv in E1
      |cbn [andb]; intros [Hx _]; apply Hc in Hx; apply in_range in Hx; congruence].
    destruct ((0 <=? 7 - row) && (7 - row <? 8)) eqn:E2; cbn [andb];
      [apply in_range_inv in E2
      |intros [_ Hy]; apply Hw in Hy;
       assert (H7 : 0 <= 7 - row < 8) by lia; apply in_range in H7; congruence].
    split; [tauto|]. split; [apply Hw; lia|]. split; [lia|].
    f_equal; Z.to_euclidean_division_equations; lia.
  - destruct ((0 <=? 7 - col) && (7 - col <? 8)) eqn:E1;
      [apply in_range_inv in E1
      |cbn [andb]; intros [Hx _]; apply Hc in Hx;
       assert (H7 : 0 <= 7 - col < 8) by lia; apply in_range in H7; congruence].
    destruct ((0 <=? row) && (row <? 8)) eqn:E2; cbn [andb];
      [apply in_range_inv in E2
      |intros [_ Hy]; apply Hw in Hy; apply in_range in Hy; congruence].
    split; [apply Hc; lia|]. split; [tauto|]. split; [lia|].
    f_equal; Z.to_euclidean_division_equations; lia.
Qed.

(** X23.  Every square is drawn on a cell of its own colour in both
    orientations: the cell that shows a square is light exactly when rank
    plus file of the square is odd, so a1 is dark and h1 is light whether
    White or Black sits at the bottom. *)
Theorem squares_keep_their_colour square white_bottom :
  cell_is_light (fst (board_to_screen_rc square white_bottom))
                (snd (board_to_screen_rc square white_bottom))
  = Z.odd (square / 8 + square mod 8).
Proof.
  unfold cell_is_light, board_to_screen_rc.
  set (rank := square / 8). set (file := square mod 8).
  assert (Hflip : forall n, ((7 + n) mod 2 =? 0) = Z.odd n).
  { intros n. rewrite Zmod_odd, Z.odd_add. simpl.
    destruct (Z.odd n); reflexivity. }
  destruct white_bottom; cbn [fst snd].
  - replace (7 - rank + file) with (7 + (rank + file - 2 * rank)) by lia.
    rewrite Hflip. replace (rank + file - 2 * rank) with (rank + file + 2 * (- rank)) by lia.
    rewrite Z.odd_add_mul_2. reflexivity.
  - replace (rank + (7 - file)) with (7 + (rank + file - 2 * file)) by lia.
    rewrite Hflip. replace (rank + file - 2 * file) with (rank + file + 2 * (- file)) by lia.
    rewrite Z.odd_add_mul_2. reflexivity.
Qed.

End Layout.


(* ===================================================================== *)
(** * The channel as a transport: order, framing, delivery *)
(* ===================================================================== *)

Module Transport.
Section Transport.
Context {F : Type} `{PyFloat F}.
Variable loads : list byte -> option (json F).
Import NetPlay NetPlayFacts.

#[local] Abbreviation netplay := (NetPlay.netplay F).
#[local] Abbreviation event := (NetPlay.event F).
#[local] Abbreviation action := (NetPlay.action F).

(** An execution that also keeps what each [poll] handed to the caller. *)
Fixpoint run_polled (acts : list action) (c : netplay)
  : option (netplay * list event) :=
  match acts with
  | [] => Some (c, [])
  | a :: rest =>
      match a with
      | APoll =>
          let '(e, c1) := poll c in
          match run_polled rest c1 with
          | Some (c', l) =>
              Some (c', match e with Some x => x :: l | None => l end)
          | None => None
          end
      | _ =>
          match step loads a c with
          | Some c1 => run_polled rest c1
          | None => None
          end
      end
  end.

Definition is_connected (e : event) : bool :=
  match e with Connected _ => true | _ => false end.

Definition no_connected (l : list (producer * event)) : bool :=
  forallb (fun p => negb (is_connected (snd p))) l.

(** The read thread alone: [recv] returns the chunks one after the other,
    the loop test in between. *)
Definition feed (chunks : list (list byte)) : list action :=
  flat_map (fun data => [AHead; ARecv (Some data)]) chunks.

(** [raw = (json.dumps(d) + "\n").encode("utf-8")]; the text is ASCII. *)
Definition raw_bytes (d : json F) : list byte :=
  list_byte_of_string (Dumps.frame_record d).

(** The calls [send(d)] for each message of a list, every write accepted
    by the socket. *)
Definition send_all (ds : list (json F)) (c : netplay) : netplay :=
  fold_left (fun c d => send d true c) ds c.

Definition is_object (d : json F) : bool :=
  match d with JObj _ => true | _ => false end.

(** ** Helper lemmas *)

Lemma run_polled_run acts : forall c,
  option_map fst (run_polled acts c) = run loads acts c.
Proof.
  induction acts as [|a acts IH]; intros c; [reflexivity|].
  destruct a; cbn [run_polled run step];
    try (destruct (step loads _ c); [apply IH|reflexivity]).
  - apply IH.
  - destruct (poll c) as [e c1] eqn:E. cbn [snd].
    rewrite <- IH. destruct (run_polled acts c1) as [[c' l]|]; reflexivity.
  - apply IH.
  - cbn [step] in *. destruct (accept_step r c); [apply IH|reflexivity].
  - destruct (reader_head c); [apply IH|reflexivity].
  - destruct (reader_recv loads r c); [apply IH|reflexivity].
Qed.

Lemma step_appends a (c c' : netplay) :
  step loads a c = Some c' ->
  a <> APoll ->
  exists new, puts c' = puts c ++ new /\ q c' = q c ++ map snd new.
Proof.
  intros Hstep Hnp.
  destruct a as [d ok| | |r| |r]; simpl in Hstep; try congruence.
  - inversion Hstep; subst c'. unfold send.
    destruct (negb (has_sock c)); [exists []; now rewrite !app_nil_r|].
    destruct (negb (sock_closed c) && ok);
      [exists []; simpl; now rewrite !app_nil_r|].
    exists [(Sender, Closed)]. split; reflexivity.
  - inversion Hstep; subst c'. exists []. simpl. now rewrite !app_nil_r.
  - unfold accept_step in Hstep. destruct (accepting c); [|discriminate].
    destruct r as [addr|]; inversion Hstep; subst c'; simpl.
    + exists [(Acceptor, Connected addr)]. split; reflexivity.
    + exists [(Acceptor, Closed)]. split; reflexivity.
  - unfold reader_head in Hstep. destruct (reader c); try discriminate.
    destruct (alive c); inversion Hstep; subst c'; simpl.
    + exists []. now rewrite !app_nil_r.
    + exists [(Reader, Closed)]. split; reflexivity.
  - unfold reader_recv in Hstep. destruct (reader c); try discriminate.
    destruct r as [[|b data]|];
      try (inversion Hstep; subst c'; simpl;
           exists [(Reader, Closed)]; split; reflexivity).
    destruct (take_records loads (buf ++ b :: data)) as [buf' out].
    inversion Hstep; subst c'.
    exists (map (pair Reader) out).
    rewrite puts_put_all, q_put_all, map_map. simpl. rewrite map_id.
    split; reflexivity.
Qed.

Lemma fifo_general acts : forall (c c' : netplay) hist polled,
  map snd (puts c) = hist ++ q c ->
  run_polled acts c = Some (c', polled) ->
  map snd (puts c') = hist ++ polled ++ q c'.
Proof.
  induction acts as [|a acts IH]; intros c c' hist polled Hc Hrun.
  - simpl in Hrun. inversion Hrun; subst. exact Hc.
  - assert (Hother : a <> APoll ->
              match step loads a c with
              | Some c1 => run_polled acts c1
              | None => None
              end = Some (c', polled) ->
              map snd (puts c') = hist ++ polled ++ q c').
    { intros Hnp Hr.
      destruct (step loads a c) as [c1|] eqn:E; [|discriminate].
      destruct (step_appends a c c1 E Hnp) as (new & Hp & Hq).
      apply (IH c1 c' hist polled); [|exact Hr].
      rewrite Hp, Hq, map_app, Hc. now rewrite app_assoc. }
    destruct a; cbn [run_polled] in Hrun;
      try (apply Hother; [discriminate|exact Hrun]).
    unfold poll in Hrun. destruct (q c) as [|e r] eqn:Eq.
    + destruct (run_polled acts c) as [[c2 l]|] eqn:E; [|discriminate].
      inversion Hrun; subst c2 l.
      apply (IH c c' hist polled); [now rewrite Eq|exact E].
    + destruct (run_polled acts (set_q c r)) as [[c2 l]|] eqn:E; [|discriminate].
      inversion Hrun; subst c2 polled.
      pose proof (IH (set_q c r) c' (hist ++ [e]) l) as IH'.
      simpl in IH'. rewrite <- !app_assoc in IH'. simpl in IH'.
      apply IH'; [exact Hc|exact E].
Qed.

(** X3.  The inbox is first in, first out, and nothing gets lost or
    duplicated: at every moment the events that were enqueued are, in the
    order of their [put]s, the events that [poll] has returned so far
    followed by the events that are still queued. *)
Theorem inbox_is_fifo host acts (c : netplay) polled :
  run_polled acts (init host) = Some (c, polled) ->
  map snd (puts c) = polled ++ q c.
Proof.
  intros Hrun.
  apply (fifo_general acts (init host) c [] polled); [|exact Hrun].
  destruct host; reflexivity.
Qed.

(** ** The connected event

    [_accept] as the main thread can observe it: [self.sock = conn] is one
    step, the [put] of ['connected'] with the start of the read thread the
    next, and a [send] or [close] of the main thread may fall in between. *)
Inductive fine_action : Type :=
| Coarse (a : action)
| ATake                               (* self.sock = conn *)
| AAnnounce (addr : string * Z).      (* q.put(('connected', ...)); start _recv *)

Definition accept_take (c : netplay) : option netplay :=
  if accepting c && negb (has_sock c)
  then Some (mkNetPlay (host_mode c) (q c) (alive c) true false
               (listener_closed c) (accepting c) (reader c) (wire c) (puts c))
  else None.

Definition accept_announce (addr : string * Z) (c : netplay) : option netplay :=
  if accepting c && has_sock c
  then let c1 := put Acceptor (Connected addr) c in
       Some (mkNetPlay (host_mode c1) (q c1) (alive c1) (has_sock c1)
               (sock_closed c1) (listener_closed c1) false (AtLoopHead [])
               (wire c1) (puts c1))
  else None.

Definition fine_step (a : fine_action) (c : netplay) : option netplay :=
  match a with
  | Coarse (AAccept (Some _)) => None
  | Coarse a => step loads a c
  | ATake => accept_take c
  | AAnnounce addr => accept_announce addr c
  end.

Fixpoint run_fine (acts : list fine_action) (c : netplay) : option netplay :=
  match acts with
  | [] => Some c
  | a :: rest =>
      match fine_step a c with
      | Some c' => run_fine rest c'
      | None => None
      end
  end.

(** The one-step [accept] of the channel model is the two steps with
    nothing in between. *)
Lemma accept_in_two_steps addr (c : netplay) :
  has_sock c = false ->
  accept_step (Some addr) c = run_fine [ATake; AAnnounce addr] c.
Proof.
  intros Hs. unfold accept_step. simpl. unfold accept_take. rewrite Hs.
  destruct (accepting c) eqn:Ha; simpl; reflexivity.
Qed.

Definition early_closed (p : producer * event) : bool :=
  sender_closed p || acceptor_closed p.

Definition announced (l : list (producer * event)) : Prop :=
  exists pre addr rest,
    l = pre ++ (Acceptor, Connected addr) :: rest /\
    forallb sender_closed pre = true /\
    no_connected rest = true.

Definition connected_inv (host : bool) (c : netplay) : Prop :=
  match reader c with
  | NotStarted =>
      host = true /\
      if accepting c then forallb sender_closed (puts c) = true
      else forallb early_closed (puts c) = true
  | _ =>
      accepting c = false /\
      if host then announced (puts c) else no_connected (puts c) = true
  end.

Lemma no_connected_app (l m : list (producer * event)) :
  no_connected (l ++ m) = no_connected l && no_connected m.
Proof. apply forallb_app. Qed.

Lemma no_connected_msgs who (es : list event) :
  forallb is_msg es = true -> no_connected (map (pair who) es) = true.
Proof.
  induction es as [|e es IH]; simpl; [reflexivity|].
  intros Hes. apply andb_true_iff in Hes as [He Hes].
  destruct e; try discriminate. simpl. now apply IH.
Qed.

Lemma early_no_connected (l : list (producer * event)) :
  forallb early_closed l = true -> no_connected l = true.
Proof.
  induction l as [|[w e] l IH]; simpl; [reflexivity|].
  intros Hl. apply andb_true_iff in Hl as [Hp Hl]. rewrite (IH Hl).
  destruct w, e; try discriminate; reflexivity.
Qed.

Lemma sender_early (l : list (producer * event)) :
  forallb sender_closed l = true -> forallb early_closed l = true.
Proof.
  induction l as [|p l IH]; simpl; [reflexivity|].
  intros Hl. apply andb_true_iff in Hl as [Hp Hl].
  unfold early_closed at 1. now rewrite Hp, (IH Hl).
Qed.

Lemma announced_grow (l new : list (producer * event)) :
  announced l -> no_connected new = true -> announced (l ++ new).
Proof.
  intros (pre & addr & rest & -> & Hpre & Hrest) Hnew.
  exists pre, addr, (rest ++ new). rewrite <- app_assoc. simpl.
  rewrite no_connected_app, Hrest, Hnew. auto.
Qed.

(** The states with a started read thread grow by events that are not
    ['connected']. *)
Lemma connected_inv_grow host (c c' : netplay) new :
  reader c <> NotStarted -> reader c' <> NotStarted ->
  accepting c' = accepting c ->
  puts c' = puts c ++ new -> no_connected new = true ->
  connected_inv host c -> connected_inv host c'.
Proof.
  unfold connected_inv. intros Hr Hr' Ha Hp Hnew Hinv.
  destruct (reader c) eqn:E; [congruence| | |];
    (destruct (reader c') eqn:E'; [congruence| | |]);
    destruct Hinv as [Hacc Hinv]; (split; [congruence|]);
    (destruct host;
     [rewrite Hp; now apply announced_grow
     |rewrite Hp, no_connected_app, Hinv, Hnew; reflexivity]).
Qed.

Lemma connected_inv_step host a (c c' : netplay) :
  connected_inv host c -> fine_step a c = Some c' -> connected_inv host c'.
Proof.
  intros Hinv Hstep.
  destruct a as [[d ok| | |[addr|]| |r]| |addr]; simpl in Hstep;
    try discriminate.
  - (* send *)
    inversion Hstep; subst c'; clear Hstep. unfold send.
    destruct (negb (has_sock c)); [exact Hinv|].
    destruct (negb (sock_closed c) && ok); [exact Hinv|].
    unfold connected_inv in *. simpl.
    destruct (reader c) eqn:Hr.
    + destruct Hinv as [Hh Hp]. split; [exact Hh|].
      destruct (accepting c); rewrite forallb_app, Hp; reflexivity.
    + destruct Hinv as [Ha Hp]. split; [exact Ha|].
      destruct host; [now apply announced_grow|].
      now rewrite no_connected_app, Hp.
    + destruct Hinv as [Ha Hp]. split; [exact Ha|].
      destruct host; [now apply announced_grow|].
      now rewrite no_connected_app, Hp.
    + destruct Hinv as [Ha Hp]. split; [exact Ha|].
      destruct host; [now apply announced_grow|].
      now rewrite no_connected_app, Hp.
  - (* poll *)
    inversion Hstep; subst c'. unfold poll. destruct (q c); exact Hinv.
  - (* close *)
    inversion Hstep; subst c'. exact Hinv.
  - (* accept fails *)
    unfold accept_step in Hstep. destruct (accepting c) eqn:Ha; [|discriminate].
    inversion Hstep; subst c'; clear Hstep.
    unfold connected_inv in *. simpl.
    destruct (reader c) eqn:Hr; try (destruct Hinv; congruence).
    rewrite Ha in Hinv. destruct Hinv as [Hh Hp]. split; [exact Hh|].
    rewrite forallb_app, (sender_early _ Hp). reflexivity.
  - (* loop head *)
    unfold reader_head in Hstep. destruct (reader c) eqn:Hr; try discriminate.
    destruct (alive c); inversion Hstep; subst c'; clear Hstep.
    + unfold connected_inv in *. rewrite Hr in Hinv. exact Hinv.
    + apply (connected_inv_grow host c _ [(Reader, Closed)]);
        simpl; auto; congruence.
  - (* recv *)
    unfold reader_recv in Hstep. destruct (reader c) eqn:Hr; try discriminate.
    assert (Hfin : connected_inv host (put Reader Closed (set_reader c Finished))).
    { apply (connected_inv_grow host c _ [(Reader, Closed)]);
        simpl; auto; congruence. }
    destruct r as [[|b data]|]; try (inversion Hstep; subst c'; exact Hfin).
    pose proof (take_records_msgs loads (buf ++ b :: data)) as Hmsgs.
    destruct (take_records loads (buf ++ b :: data)) as [buf' out].
    inversion Hstep; subst c'; clear Hstep. simpl in Hmsgs.
    destruct (put_all_frame Reader out (set_reader c (AtLoopHead buf')))
      as (Hr' & _ & Ha' & _).
    apply (connected_inv_grow host c _ (map (pair Reader) out)).
    + congruence.
    + rewrite Hr'. simpl. discriminate.
    + rewrite Ha'. reflexivity.
    + now rewrite puts_put_all.
    + now apply no_connected_msgs.
    + exact Hinv.
  - (* self.sock = conn *)
    unfold accept_take in Hstep.
    destruct (accepting c && negb (has_sock c)); [|discriminate].
    inversion Hstep; subst c'. exact Hinv.
  - (* put connected, start the read thread *)
    unfold accept_announce in Hstep.
    destruct (accepting c) eqn:Ha; [|discriminate].
    destruct (has_sock c); [|discriminate]. simpl in Hstep.
    inversion Hstep; subst c'; clear Hstep.
    unfold connected_inv in *. simpl.
    destruct (reader c) eqn:Hr; try (destruct Hinv; congruence).
    rewrite Ha in Hinv. destruct Hinv as [-> Hp]. split; [reflexivity|].
    exists (puts c), addr, []. auto.
Qed.

Lemma connected_inv_run host acts : forall c c' : netplay,
  connected_inv host c -> run_fine acts c = Some c' -> connected_inv host c'.
Proof.
  induction acts as [|a acts IH]; intros c c' Hinv; simpl.
  - now intros [= <-].
  - destruct (fine_step a c) as [c1|] eqn:E; [|discriminate].
    apply IH. eapply connected_inv_step; eauto.
Qed.

(** X4.  On the joining side no ['connected'] event is ever enqueued.  On
    the listening side it is enqueued at most once, always by the accept
    thread, and every message and every ['closed'] of the read thread
    comes after it: the only events that can come before it are ['closed']
    events of a [send] that failed between [self.sock = conn] and the
    [put].  As long as it is missing the channel has enqueued nothing but
    ['closed'] events. *)
Theorem connected_event_comes_first host acts (c : netplay) :
  run_fine acts (init host) = Some c ->
  if host
  then forallb early_closed (puts c) = true \/
       exists pre addr rest,
         puts c = pre ++ (Acceptor, Connected addr) :: rest /\
         forallb sender_closed pre = true /\
         no_connected rest = true
  else no_connected (puts c) = true.
Proof.
  intros Hrun.
  assert (H0 : connected_inv host (init host))
    by (destruct host; cbv; auto).
  pose proof (connected_inv_run host acts _ _ H0 Hrun) as Hinv.
  unfold connected_inv in Hinv.
  destruct (reader c).
  - destruct Hinv as [-> Hp]. left.
    destruct (accepting c); [now apply sender_early|exact Hp].
  - destruct Hinv as [_ Hp]. destruct host; [right|]; exact Hp.
  - destruct Hinv as [_ Hp]. destruct host; [right|]; exact Hp.
  - destruct Hinv as [_ Hp]. destruct host; [right|]; exact Hp.
Qed.

(** ** Reads and records *)

Lemma take_records_prefix rs tail :
  Forall record_bytes rs ->
  take_records loads (flat_map (fun r => r ++ [x0a]) rs ++ tail) =
    (fst (take_records loads tail),
     flat_map (decoded loads) rs ++ snd (take_records loads tail)).
Proof.
  intros Hrs. induction Hrs as [|r rs Hr Hrs IH]; simpl.
  - now destruct (take_records loads tail).
  - rewrite take_records_unfold. rewrite <- !app_assoc. simpl.
    rewrite (split_nl_record _ _ Hr), IH.
    destruct r as [|b r]; [reflexivity|].
    change (decoded loads (b :: r))
      with (match loads (b :: r) with Some msg => [Msg msg] | None => [] end).
    destruct (loads (b :: r)); reflexivity.
Qed.

(** Reading [a] and then [b] leaves the same buffer and the same messages
    as reading [a ++ b] at once. *)
Lemma take_records_app a b :
  take_records loads (a ++ b) =
    (fst (take_records loads (fst (take_records loads a) ++ b)),
     snd (take_records loads a) ++
     snd (take_records loads (fst (take_records loads a) ++ b))).
Proof.
  destruct (buffered_total a) as (rs & partial & -> & Hrs & Hp).
  rewrite (take_records_buffered loads rs partial Hrs Hp). cbn [fst snd].
  unfold buffered. rewrite <- app_assoc.
  apply take_records_prefix. exact Hrs.
Qed.

Lemma take_records_rest buf :
  record_bytes (fst (take_records loads buf)).
Proof.
  destruct (buffered_total buf) as (rs & partial & -> & Hrs & Hp).
  now rewrite (take_records_buffered loads rs partial Hrs Hp).
Qed.

Lemma take_records_partial buf :
  record_bytes buf -> take_records loads buf = (buf, []).
Proof.
  intros Hb. rewrite take_records_unfold. now rewrite (split_nl_partial _ Hb).
Qed.

Lemma feed_run chunks : forall (c : netplay) buf,
  alive c = true ->
  reader c = AtLoopHead buf ->
  record_bytes buf ->
  Forall (fun data => data <> []) chunks ->
  exists c',
    run loads (feed chunks) c = Some c' /\
    alive c' = true /\
    reader c' =
      AtLoopHead (fst (take_records loads (buf ++ List.concat chunks))) /\
    q c' = q c ++ snd (take_records loads (buf ++ List.concat chunks)) /\
    puts c' =
      puts c ++
      map (pair Reader) (snd (take_records loads (buf ++ List.concat chunks))) /\
    wire c' = wire c.
Proof.
  induction chunks as [|data chunks IH]; intros c buf Ha Hr Hb Hne.
  - exists c. simpl. rewrite !app_nil_r, (take_records_partial buf Hb). simpl.
    rewrite !app_nil_r. repeat split; assumption.
  - inversion Hne as [|? ? Hd Hne']; subst.
    cbn [feed flat_map app run step].
    unfold reader_head. rewrite Hr, Ha.
    unfold reader_recv. cbn [reader set_reader].
    destruct data as [|b data]; [congruence|].
    pose proof (take_records_rest (buf ++ b :: data)) as Hrest.
    destruct (take_records loads (buf ++ b :: data)) as [buf1 out1] eqn:E1.
    cbn [fst] in Hrest.
    set (c1 := put_all Reader out1
                 (set_reader (set_reader c (InRecv buf)) (AtLoopHead buf1))).
    destruct (put_all_frame Reader out1
                (set_reader (set_reader c (InRecv buf)) (AtLoopHead buf1)))
      as (Hr1 & _ & _ & Ha1 & _ & Hw1).
    fold c1 in Hr1, Ha1, Hw1. cbn in Hr1, Ha1, Hw1.
    destruct (IH c1 buf1) as (c' & Hrun & Ha' & Hr' & Hq' & Hp' & Hw');
      [congruence|exact Hr1|exact Hrest|exact Hne'|].
    exists c'. split; [exact Hrun|]. split; [exact Ha'|].
    cbn [List.concat].
    rewrite app_assoc, (take_records_app (buf ++ b :: data)), E1. cbn [fst snd].
    split; [exact Hr'|].
    split; [|split].
    + rewrite Hq'. unfold c1. rewrite q_put_all. cbn. now rewrite app_assoc.
    + rewrite Hp'. unfold c1. rewrite puts_put_all. cbn.
      now rewrite map_app, app_assoc.
    + congruence.
Qed.

(** X5.  How the byte stream is cut into reads makes no difference: the
    read thread that gets the bytes in any number of non-empty chunks ends
    with the same inbox, the same buffer and the same [put]s as the one
    that gets them all in a single read, and it never enqueues ['closed']
    on the way. *)
Theorem chunking_is_invisible (c : netplay) buf chunks :
  alive c = true ->
  reader c = AtLoopHead buf ->
  record_bytes buf ->
  Forall (fun data => data <> []) chunks ->
  exists c',
    run loads (feed chunks) c = Some c' /\
    reader c' =
      AtLoopHead (fst (take_records loads (buf ++ List.concat chunks))) /\
    q c' = q c ++ snd (take_records loads (buf ++ List.concat chunks)) /\
    puts c' =
      puts c ++
      map (pair Reader) (snd (take_records loads (buf ++ List.concat chunks))) /\
    forallb is_msg (snd (take_records loads (buf ++ List.concat chunks))) = true.
Proof.
  intros Ha Hr Hb Hne.
  destruct (feed_run chunks c buf Ha Hr Hb Hne)
    as (c' & Hrun & _ & Hr' & Hq' & Hp' & _).
  exists c'. repeat (split; [assumption|]). apply take_records_msgs.
Qed.

(** ** From [send] on one side to the inbox on the other *)

Lemma bytes_app s t :
  list_byte_of_string (s ++ t) = list_byte_of_string s ++ list_byte_of_string t.
Proof.
  unfold list_byte_of_string.
  induction s as [|a s IH]; simpl; [reflexivity|now rewrite IH].
Qed.

Lemma record_bytes_of_line s :
  one_line s -> record_bytes (list_byte_of_string s).
Proof.
  unfold record_bytes, list_byte_of_string.
  induction s as [|a s IH]; intros Hs; simpl; [reflexivity|].
  rewrite IH.
  - rewrite andb_true_r.
    destruct (Byte.eqb (byte_of_ascii a) x0a) eqn:E; [|reflexivity].
    apply Byte.byte_dec_bl in E. exfalso. apply (Hs a); [now left|].
    rewrite <- (ascii_of_byte_of_ascii a), E. reflexivity.
  - intros c Hc. apply Hs. now right.
Qed.

Lemma raw_bytes_record d :
  raw_bytes d = list_byte_of_string (Dumps.dumps d) ++ [x0a].
Proof. unfold raw_bytes, Dumps.frame_record. now rewrite bytes_app. Qed.

Lemma decoded_object d :
  is_object d = true ->
  loads (list_byte_of_string (Dumps.dumps d)) = Some d ->
  decoded loads (list_byte_of_string (Dumps.dumps d)) = [Msg d].
Proof.
  intros Ho Hl. destruct d; try discriminate.
  unfold decoded. rewrite Hl.
  cbn [Dumps.dumps]. reflexivity.
Qed.

Lemma send_written d (a : netplay) :
  has_sock a = true -> sock_closed a = false ->
  has_sock (send d true a) = true /\
  sock_closed (send d true a) = false /\
  wire (send d true a) = wire a ++ [Dumps.frame_record d] /\
  q (send d true a) = q a /\
  puts (send d true a) = puts a.
Proof.
  intros Hs Hc. unfold send. rewrite Hs, Hc. simpl. auto.
Qed.

Lemma send_all_wire ds : forall a : netplay,
  has_sock a = true -> sock_closed a = false ->
  wire (send_all ds a) = wire a ++ map Dumps.frame_record ds /\
  q (send_all ds a) = q a /\
  puts (send_all ds a) = puts a.
Proof.
  induction ds as [|d ds IH]; intros a Hs Hc.
  - simpl. now rewrite app_nil_r.
  - destruct (send_written d a Hs Hc) as (Hs1 & Hc1 & Hw1 & Hq1 & Hp1).
    change (send_all (d :: ds) a) with (send_all ds (send d true a)).
    destruct (IH _ Hs1 Hc1) as (-> & -> & ->).
    rewrite Hw1, Hq1, Hp1. simpl. rewrite <- app_assoc. auto.
Qed.

(** X6.  What one peer sends is what the other peer finds in its inbox:
    when every write succeeds and the decoder reads back what [json.dumps]
    printed, the messages handed to [send] arrive as ['msg'] events, each
    once and in the order sent, however the network cuts the byte stream
    into reads, and the read buffer is empty again at the end. *)
Theorem sent_messages_arrive (a b : netplay) ds chunks :
  has_sock a = true -> sock_closed a = false ->
  alive b = true -> reader b = AtLoopHead [] ->
  forallb is_object ds = true ->
  (forall d, In d ds -> loads (list_byte_of_string (Dumps.dumps d)) = Some d) ->
  Forall (fun data => data <> []) chunks ->
  List.concat chunks =
    flat_map list_byte_of_string
      (skipn (List.length (wire a)) (wire (send_all ds a))) ->
  exists b',
    run loads (feed chunks) b = Some b' /\
    q b' = q b ++ map Msg ds /\
    reader b' = AtLoopHead [].
Proof.
  intros Hs Hc Ha Hr Hobj Hloads Hne Hcut.
  destruct (send_all_wire ds a Hs Hc) as (Hw & _ & _).
  rewrite Hw, skipn_app, Nat.sub_diag, skipn_all in Hcut. simpl in Hcut.
  assert (Hbytes : List.concat chunks =
            buffered (map (fun d => list_byte_of_string (Dumps.dumps d)) ds) []).
  { rewrite Hcut. unfold buffered. rewrite app_nil_r. clear.
    induction ds as [|d ds IH]; simpl; [reflexivity|].
    rewrite IH. f_equal. apply raw_bytes_record. }
  assert (Hrs : Forall record_bytes
                  (map (fun d => list_byte_of_string (Dumps.dumps d)) ds)).
  { apply Forall_forall. intros r Hin. apply in_map_iff in Hin as (d & <- & _).
    apply record_bytes_of_line, one_line_dumps. }
  assert (Hdec : flat_map (decoded loads)
                   (map (fun d => list_byte_of_string (Dumps.dumps d)) ds)
                 = map Msg ds).
  { clear Hcut Hbytes Hrs Hw. induction ds as [|d ds IH]; simpl; [reflexivity|].
    simpl in Hobj. apply andb_true_iff in Hobj as [Ho Hobj].
    rewrite (decoded_object d Ho (Hloads d (or_introl eq_refl))).
    simpl. f_equal. apply IH; auto. intros d' Hd'. apply Hloads. now right. }
  destruct (feed_run chunks b [] Ha Hr eq_refl Hne)
    as (b' & Hrun & _ & Hr' & Hq' & _).
  simpl in Hr', Hq'.
  rewrite Hbytes, (take_records_buffered loads _ [] Hrs eq_refl) in Hr', Hq'.
  simpl in Hr', Hq'. rewrite Hdec in Hq'.
  exists b'. auto.
Qed.

End Transport.

(** ** The theorems at work *)

Import NetPlayFacts.

(** A read of two records, a poll, a failed write and two more polls. *)
Definition busy : list (NetPlay.action Z) :=
  [NetPlay.AHead; NetPlay.ARecv (Some (two_records ++ two_records));
   NetPlay.APoll; NetPlay.ASend e2e4_msg false; NetPlay.APoll].

Definition after_busy : NetPlay.netplay Z * list (NetPlay.event Z) :=
  Eval vm_compute in
    match run_polled sample_loads busy (init false) with
    | Some r => r
    | None => (NetPlay.join_init, [])
    end.

Lemma inbox_is_fifo_witness :
  run_polled sample_loads busy (init false) = Some after_busy /\
  map snd (NetPlay.puts (fst after_busy)) =
    snd after_busy ++ NetPlay.q (fst after_busy) /\
  List.length (snd after_busy) = 2 /\
  NetPlay.q (fst after_busy) = [NetPlay.Closed].
Proof.
  split; [reflexivity|]. split; [|split; reflexivity].
  exact (inbox_is_fifo sample_loads false busy (fst after_busy) (snd after_busy)
           eq_refl).
Defined.

Definition peer_addr : string * Z := ("192.168.1.20"%string, 50312%Z).

(** A peer connects; a write fails before ['connected'] is enqueued; then
    two records arrive. *)
Definition hosted : list (fine_action (F := Z)) :=
  [Coarse (NetPlay.ASend e2e4_msg true); ATake;
   Coarse (NetPlay.ASend e2e4_msg false); AAnnounce peer_addr;
   Coarse NetPlay.AHead; Coarse (NetPlay.ARecv (Some two_records))].

Definition after_hosted : NetPlay.netplay Z :=
  Eval vm_compute in
    match run_fine sample_loads hosted (init true) with
    | Some c => c
    | None => NetPlay.host_init
    end.

Lemma connected_event_witness :
  run_fine sample_loads hosted (init true) = Some after_hosted /\
  NetPlay.puts after_hosted =
    [(NetPlay.Sender, NetPlay.Closed);
     (NetPlay.Acceptor, NetPlay.Connected peer_addr);
     (NetPlay.Reader, NetPlay.Msg e2e4_msg)] /\
  (forallb early_closed (NetPlay.puts after_hosted) = true \/
   exists pre addr rest,
     NetPlay.puts after_hosted =
       pre ++ (NetPlay.Acceptor, NetPlay.Connected addr) :: rest /\
     forallb sender_closed pre = true /\
     no_connected rest = true).
Proof.
  split; [reflexivity|]. split; [reflexivity|].
  exact (connected_event_comes_first sample_loads true hosted after_hosted eq_refl).
Defined.

(** Two records cut in the middle of the first and of the second. *)
Definition cut_up : list (list byte) :=
  [firstn 3 (two_records ++ two_records);
   firstn 40 (skipn 3 (two_records ++ two_records));
   skipn 43 (two_records ++ two_records)].

Lemma chunking_witness :
  exists c',
    NetPlay.run sample_loads (feed cut_up) NetPlay.join_init = Some c' /\
    NetPlay.reader c' =
      NetPlay.AtLoopHead
        (fst (NetPlay.take_records sample_loads ([] ++ List.concat cut_up))) /\
    NetPlay.q c' =
      NetPlay.q (@NetPlay.join_init Z) ++
      snd (NetPlay.take_records sample_loads ([] ++ List.concat cut_up)) /\
    NetPlay.puts c' =
      NetPlay.puts (@NetPlay.join_init Z) ++
      map (pair NetPlay.Reader)
        (snd (NetPlay.take_records sample_loads ([] ++ List.concat cut_up))) /\
    forallb is_msg
      (snd (NetPlay.take_records sample_loads ([] ++ List.concat cut_up))) = true.
Proof.
  apply (chunking_is_invisible sample_loads NetPlay.join_init [] cut_up);
    try reflexivity.
  repeat constructor; discriminate.
Defined.

(** The bytes of two moves, cut after 5 and after 70 bytes. *)
Definition two_moves : list byte :=
  raw_bytes e2e4_msg ++ raw_bytes e2e4_msg.

Definition segments : list (list byte) :=
  [firstn 5 two_moves; firstn 65 (skipn 5 two_moves); skipn 70 two_moves].

Lemma sent_messages_witness :
  exists b',
    NetPlay.run sample_loads (feed segments) NetPlay.join_init = Some b' /\
    NetPlay.q b' =
      NetPlay.q (@NetPlay.join_init Z) ++
      map (@NetPlay.Msg Z) [e2e4_msg; e2e4_msg] /\
    NetPlay.reader b' = NetPlay.AtLoopHead [].
Proof.
  apply (sent_messages_arrive sample_loads NetPlay.join_init NetPlay.join_init
           [e2e4_msg; e2e4_msg] segments); try reflexivity.
  - intros d [<-|[<-|[]]]; reflexivity.
  - repeat constructor; discriminate.
Defined.

End Transport.


(* ===================================================================== *)
(** * The play loop over whole sessions *)
(* ===================================================================== *)

Module PlayLoop.
Section PlayLoop.
Context {F : Type} `{PyFloat F} {Board : Type} `{RulesEngine Board}.
Import NetPlay MainGame MainGameFacts.

#[local] Abbreviation game := (MainGame.game F Board).
#[local] Abbreviation outcome := (MainGame.outcome F Board).

(** The test under [# Online: only your turn]. *)
Definition waiting_for_peer (g : game) : bool :=
  match local_color g with
  | Some col => negb (Bool.eqb (turn (board g)) col)
  | None => false
  end.

(** The three tests that keep a click away from the board. *)
Definition input_locked (g : game) : bool :=
  peer_left g || game_over g || waiting_for_peer g.

(** Positions reached from a position by legal moves only. *)
Inductive legal_path : Board -> Board -> Prop :=
| path_stay b : legal_path b b
| path_move b m b' :
    is_legal b m = true -> legal_path (push b m) b' -> legal_path b b'.

Definition is_send (op : netop F) : bool :=
  match op with OpSend _ => true | OpClose => false end.

Definition all_sends (ops : list (netop F)) : Prop :=
  forallb is_send ops = true.

(** Sends, then one [close] as the last operation. *)
Definition closed_once (ops : list (netop F)) : Prop :=
  exists pre, ops = pre ++ [OpClose] /\ all_sends pre.

(** [net] is [None] once the peer has left. *)
Definition net_dropped (g : game) : Prop :=
  peer_left g = true -> net_on g = false.

(** ** A proof rule for the loop

    A relation between the state before and the state after that holds
    across each assignment group of the loop holds across any number of
    iterations. *)
Section Rule.
Variable R : game -> game -> Prop.
Hypothesis R_refl : forall g, R g g.
Hypothesis R_trans : forall a b c, R a b -> R b c -> R a c.
Hypothesis R_remote : forall g kv m g',
  is_legal (board g) m = true -> apply_remote g kv m = Ok g' -> R g g'.
Hypothesis R_closed : forall g, R g (on_closed g).
Hypothesis R_now : forall g now, R g (set_last_tick g now).
Hypothesis R_clock : forall g dt g', clock_step dt g = Ok g' -> R g g'.
Hypothesis R_local : forall g m sel sq g' ops,
  input_locked g = false -> is_legal (board g) m = true ->
  play_local g m sel sq = Ok (g', ops) -> R g g'.
Hypothesis R_select : forall g sel vm, R g (set_selection g sel vm).
Hypothesis R_hint : forall g, R g (toggle_hint g).

Lemma on_msg_rule (g : game) payload g' :
  on_msg g payload = Ok g' -> R g g'.
Proof.
  unfold on_msg.
  destruct (py_get payload "type") as [ty|]; simpl; [|discriminate].
  destruct (eq_str ty "move"); [|intros [= <-]; apply R_refl].
  destruct payload as [ | | | | |kv]; try discriminate.
  destruct (lookup "uci" kv) as [[ | | |u| | ]|]; try discriminate.
  destruct (from_uci u) as [m|]; [|discriminate].
  destruct (is_legal (board g) m) eqn:E; [now apply R_remote|].
  intros [= <-]; apply R_refl.
Qed.

Lemma on_event_rule (g : game) evt g' ops :
  on_event g evt = Ok (g', ops) -> R g g'.
Proof.
  destruct evt as [addr|payload|]; simpl.
  - intros [= <- _]. apply R_refl.
  - destruct (on_msg g payload) as [g1|] eqn:E; simpl; [|discriminate].
    intros [= <- _]. eapply on_msg_rule; eauto.
  - intros [= <- _]. apply R_closed.
Qed.

Lemma drain_loop_rule inbox : forall (g : game) g' ops,
  drain_loop g inbox = Ok (g', ops) -> R g g'.
Proof.
  induction inbox as [|evt rest IH]; intros g g' ops; simpl.
  - destruct (net_on g); intros [= <- _]; apply R_refl.
  - destruct (net_on g); [|intros [= <- _]; apply R_refl].
    destruct (on_event g evt) as [[g1 ops1]|] eqn:E1; simpl; [|discriminate].
    destruct (drain_loop g1 rest) as [[g2 ops2]|] eqn:E2; simpl; [|discriminate].
    intros [= <- _].
    eapply R_trans; [eapply on_event_rule; eauto|eapply IH; eauto].
Qed.

Lemma drain_rule (g : game) inbox g' ops :
  drain g inbox = Ok (g', ops) -> R g g'.
Proof.
  unfold drain. destruct (net_on g && negb (peer_left g)).
  - apply drain_loop_rule.
  - intros [= <- _]. apply R_refl.
Qed.

Lemma on_square_rule (g : game) c sq g' ops :
  input_locked g = false ->
  on_square g c sq = Ok (Continue g' ops) -> R g g'.
Proof.
  intros Hfree. unfold on_square.
  assert (Htry : forall m sel,
             (if is_legal (board g) m
              then bind (play_local g m sel sq) (fun '(g1, ops1) =>
                   Ok (Continue g1 ops1))
              else Ok (Continue g [])) = Ok (Continue g' ops) -> R g g').
  { intros m sel. destruct (is_legal (board g) m) eqn:E.
    - destruct (play_local g m sel sq) as [[g1 ops1]|] eqn:El; simpl;
        [|discriminate].
      intros [= <- _]. now apply (R_local g m sel sq g1 ops1).
    - intros [= <- _]. apply R_refl. }
  destruct (selected_square g) as [sel|].
  - destruct (existsb (Z.eqb sq) (valid_moves g));
      [|intros [= <- _]; apply R_select].
    destruct (piece_at (board g) sel) as [[ptype col]|]; [|discriminate].
    destruct ((ptype =? 1)%Z && ((sq / 8 =? 0)%Z || (sq / 8 =? 7)%Z)).
    + destruct (promo c) as [p|]; [apply Htry|discriminate].
    + apply Htry.
  - destruct (piece_at (board g) sq) as [[ptype col]|];
      [|intros [= <- _]; apply R_refl].
    destruct (Bool.eqb col (turn (board g))); intros [= <- _];
      [apply R_select|apply R_refl].
Qed.

Lemma on_ui_rule (g : game) e g' ops :
  on_ui g e = Ok (Continue g' ops) -> R g g'.
Proof.
  destruct e as [|c|]; simpl; try discriminate.
  - unfold input_locked in *.
    destruct (peer_left g) eqn:Hp.
    { destruct (in_leave c || in_exit c); [discriminate|].
      intros [= <- _]; apply R_refl. }
    destruct (in_new c); [discriminate|].
    destruct (in_hint c); [intros [= <- _]; apply R_hint|].
    destruct (in_exit c); [discriminate|].
    destruct (in_sidebar c); [intros [= <- _]; apply R_refl|].
    destruct (game_over g) eqn:Hg; [intros [= <- _]; apply R_refl|].
    fold (waiting_for_peer g).
    destruct (waiting_for_peer g) eqn:Hw; [intros [= <- _]; apply R_refl|].
    destruct (square c) as [sq|]; [|intros [= <- _]; apply R_refl].
    apply on_square_rule. unfold input_locked. now rewrite Hp, Hg, Hw.
  - intros [= <- _]; apply R_refl.
Qed.

Lemma ui_loop_rule es : forall (g : game) g' ops,
  ui_loop g es = Ok (Continue g' ops) -> R g g'.
Proof.
  induction es as [|e es IH]; intros g g' ops; simpl.
  - intros [= <- _]. apply R_refl.
  - destruct (on_ui g e) as [o1|] eqn:E1; simpl; [|discriminate].
    destruct o1 as [g1 ops1|r ops1|ops1]; try discriminate.
    destruct (ui_loop g1 es) as [o2|] eqn:E2; simpl; [|discriminate].
    destruct o2 as [g2 ops2|r ops2|ops2]; try discriminate.
    intros [= <- _].
    eapply R_trans; [eapply on_ui_rule; eauto|eapply IH; eauto].
Qed.

Lemma tick_rule now inbox es (g : game) g' ops :
  tick now inbox es g = Ok (Continue g' ops) -> R g g'.
Proof.
  intros Htick.
  destruct (tick_ok _ _ _ _ _ Htick)
    as (g1 & ops1 & g2 & o2 & Hd & Hcs & Hu & _ & _ & Hc).
  destruct (Hc _ _ eq_refl) as [ops2 ->].
  eapply R_trans; [apply R_now|].
  eapply R_trans; [eapply drain_rule; eauto|].
  eapply R_trans; [eapply R_clock; eauto|].
  eapply ui_loop_rule; eauto.
Qed.

Lemma ticks_rule frames : forall (g : game) g' ops,
  ticks frames g = Ok (Continue g' ops) -> R g g'.
Proof.
  induction frames as [|[[now inbox] es] rest IH]; intros g g' ops; simpl.
  - intros [= <- _]. apply R_refl.
  - destruct (tick now inbox es g) as [o|] eqn:E; simpl; [|discriminate].
    destruct o as [g1 ops1|r ops1|ops1]; try discriminate.
    destruct (ticks rest g1) as [o'|] eqn:E'; simpl; [|discriminate].
    destruct o' as [g2 ops2|r ops2|ops2]; try discriminate.
    intros [= <- _].
    eapply R_trans; [eapply tick_rule; eauto|eapply IH; eauto].
Qed.

End Rule.

Lemma apply_remote_fields (g : game) kv m g' :
  apply_remote g kv m = Ok g' ->
  board g' = push (board g) m /\
  white_to_move g' = turn (push (board g) m) /\
  net_on g' = net_on g /\ peer_left g' = peer_left g /\
  local_color g' = local_color g.
Proof.
  unfold apply_remote.
  destruct (animate_move g (from_square m)); simpl; [|discriminate].
  destruct (match lookup "wtime" kv with
            | Some v => py_float v
            | None => float_of (white_time g)
            end) as [wt|]; simpl; [|discriminate].
  destruct (match lookup "btime" kv with
            | Some v => py_float v
            | None => float_of (black_time g)
            end) as [bt|]; simpl; [|discriminate].
  intros [= <-]. simpl. auto.
Qed.

Lemma clock_step_fields dt (g g' : game) :
  clock_step dt g = Ok g' ->
  board g' = board g /\
  white_to_move g' = white_to_move g /\
  net_on g' = net_on g /\
  peer_left g' = peer_left g /\
  local_color g' = local_color g.
Proof.
  unfold clock_step.
  destruct (negb (game_over g) && negb (peer_left g));
    [|intros [= <-]; auto].
  destruct (white_to_move g);
    [destruct (float_of (white_time g))|destruct (float_of (black_time g))];
    simpl; try discriminate; intros [= <-]; simpl; auto.
Qed.

Lemma play_local_fields (g : game) m sel sq g' ops :
  play_local g m sel sq = Ok (g', ops) ->
  board g' = push (board g) m /\
  white_to_move g' = negb (white_to_move g) /\
  net_on g' = net_on g /\
  peer_left g' = peer_left g /\
  ops = (if net_on g && negb (peer_left g)
         then [OpSend (move_record g m)] else []).
Proof.
  unfold play_local.
  destruct (animate_move g sel); simpl; [|discriminate].
  intros [= <- <-]. simpl. auto.
Qed.

(** X7.  The side whose clock runs is the side to move on the board:
    [white_to_move], which a local move flips and an inbound move reads
    from the board, agrees with [board.turn] after any number of
    iterations, whatever arrives and whatever is clicked. *)
Theorem side_to_move_follows_board frames (g g' : game) ops :
  white_to_move g = turn (board g) ->
  ticks frames g = Ok (Continue g' ops) ->
  white_to_move g' = turn (board g').
Proof.
  intros Hsync Hrun. revert Hsync.
  apply (ticks_rule
           (fun a b => white_to_move a = turn (board a) ->
                       white_to_move b = turn (board b)))
    with (frames := frames) (ops := ops); auto.
  - intros a kv m b _ E _.
    destruct (apply_remote_fields _ _ _ _ E) as (-> & -> & _). reflexivity.
  - intros a dt b E. destruct (clock_step_fields _ _ _ E) as (-> & -> & _).
    auto.
  - intros a m sel sq b ops' _ _ El E.
    destruct (play_local_fields _ _ _ _ _ _ El) as (-> & -> & _).
    rewrite push_turn, E. reflexivity.
Qed.

Lemma legal_path_trans a b c :
  legal_path a b -> legal_path b c -> legal_path a c.
Proof.
  induction 1 as [|a m b Hm Hab IH]; [auto|].
  intros Hbc. eapply path_move; eauto.
Qed.

(** X8.  The position only ever changes by legal moves: the board after
    any number of iterations is reached from the board before by a
    sequence of moves each of which was legal where it was played, be it
    a local move or one that came in over the network. *)
Theorem position_moves_legally frames (g g' : game) ops :
  ticks frames g = Ok (Continue g' ops) ->
  legal_path (board g) (board g').
Proof.
  apply (ticks_rule (fun a b => legal_path (board a) (board b))).
  - intros a. apply path_stay.
  - intros a b c. apply legal_path_trans.
  - intros a kv m b Hm E.
    destruct (apply_remote_fields _ _ _ _ E) as (-> & _).
    eapply path_move; [exact Hm|apply path_stay].
  - intros a. apply path_stay.
  - intros a now. apply path_stay.
  - intros a dt b E. destruct (clock_step_fields _ _ _ E) as (-> & _).
    apply path_stay.
  - intros a m sel sq b ops' _ Hm El.
    destruct (play_local_fields _ _ _ _ _ _ El) as (-> & _).
    eapply path_move; [exact Hm|apply path_stay].
  - intros a sel vm. apply path_stay.
  - intros a. apply path_stay.
Qed.

(** ** Local input while it is not the local side's turn to act *)

Lemma toggle_hint_twice (g : game) : toggle_hint (toggle_hint g) = g.
Proof. destruct g. unfold toggle_hint. simpl. now rewrite negb_involutive. Qed.

Lemma on_ui_locked (g : game) e :
  input_locked g = true ->
  exists o,
    on_ui g e = Ok o /\
    forallb (fun op => negb (is_send op)) (ops_of o) = true /\
    forall g' ops, o = Continue g' ops ->
      ops = [] /\ (g' = g \/ g' = toggle_hint g).
Proof.
  intros Hlock.
  assert (Hclose : forallb (fun op : netop F => negb (is_send op))
                     (close_if_net g) = true)
    by (unfold close_if_net; destruct (net_on g); reflexivity).
  assert (Hstay : exists o,
             Ok (Continue g []) = Ok o /\
             forallb (fun op => negb (is_send op)) (ops_of o) = true /\
             forall g' ops, o = Continue g' ops ->
               ops = [] /\ (g' = g \/ g' = toggle_hint g)).
  { eexists; split; [reflexivity|]. split; [reflexivity|].
    intros g' ops [= <- <-]. auto. }
  destruct e as [|c|]; simpl.
  - eexists; split; [reflexivity|]. split; [exact Hclose|discriminate].
  - unfold input_locked in Hlock.
    destruct (peer_left g).
    { destruct (in_leave c || in_exit c); [|exact Hstay].
      eexists; split; [reflexivity|]. split; [reflexivity|discriminate]. }
    destruct (in_new c).
    { eexists; split; [reflexivity|]. split; [exact Hclose|discriminate]. }
    destruct (in_hint c).
    { eexists; split; [reflexivity|]. split; [reflexivity|].
      intros g' ops [= <- <-]. auto. }
    destruct (in_exit c).
    { eexists; split; [reflexivity|]. split; [exact Hclose|discriminate]. }
    destruct (in_sidebar c); [exact Hstay|].
    destruct (game_over g); [exact Hstay|].
    simpl in Hlock. unfold waiting_for_peer in Hlock. rewrite Hlock.
    exact Hstay.
  - exact Hstay.
Qed.

Lemma input_locked_hint (g : game) :
  input_locked (toggle_hint g) = input_locked g.
Proof. reflexivity. Qed.

(** X9.  While input is locked (the peer has left, the game is over, or
    it is the other side's turn in a network game) no sequence of input
    events raises, plays a move or sends anything: the state that comes
    out is the state that went in, up to the hint switch. *)
Theorem locked_input_changes_nothing (g : game) es :
  input_locked g = true ->
  exists o,
    ui_loop g es = Ok o /\
    forallb (fun op => negb (is_send op)) (ops_of o) = true /\
    forall g' ops, o = Continue g' ops ->
      ops = [] /\ (g' = g \/ g' = toggle_hint g).
Proof.
  revert g. induction es as [|e es IH]; intros g Hlock; simpl.
  - eexists; split; [reflexivity|]. split; [reflexivity|].
    intros g' ops [= <- <-]. auto.
  - destruct (on_ui_locked g e Hlock) as (o1 & E1 & Hs1 & Hc1).
    rewrite E1. simpl.
    destruct o1 as [g1 ops1|r ops1|ops1];
      try (eexists; split; [reflexivity|]; split; [exact Hs1|discriminate]).
    destruct (Hc1 _ _ eq_refl) as [-> Hg1].
    assert (Hlock1 : input_locked g1 = true)
      by (destruct Hg1 as [->| ->]; [exact Hlock|now rewrite input_locked_hint]).
    destruct (IH g1 Hlock1) as (o2 & E2 & Hs2 & Hc2).
    rewrite E2. simpl.
    eexists; split; [reflexivity|].
    destruct o2 as [g2 ops2|r ops2|ops2]; simpl in *;
      (split; [exact Hs2|]); try discriminate.
    intros g' ops [= <- <-].
    destruct (Hc2 _ _ eq_refl) as [-> Hg2]. split; [reflexivity|].
    destruct Hg1 as [->| ->], Hg2 as [->| ->]; auto.
    left. apply toggle_hint_twice.
Qed.

(** ** A move travels from one peer to the other *)

(** X10.  A move played on one side and drained on the other leaves both
    sides with the same position, the same side to move and the same
    verdict on mate and stalemate, and the receiver's clocks are the
    sender's clocks at the moment of the move (as floats, negative values
    raised to zero), provided both sides can display their clocks and
    [float] accepts the two clocks sent.  If [float] does not accept one
    of them, the sender has played and sent the move all the same and the
    receiver raises.  The decoder of moves is assumed to read back what
    [uci()] prints. *)
Theorem relayed_move_keeps_peers_in_step (s r : game) m sel sq :
  net_on s = true -> peer_left s = false ->
  net_on r = true -> peer_left r = false ->
  board r = board s ->
  white_to_move s = turn (board s) ->
  is_legal (board s) m = true ->
  from_uci (uci m) = Some m ->
  animate_move s sel = Ok tt ->
  draw_sidebar r = Ok tt ->
  exists s',
    play_local s m sel sq = Ok (s', [OpSend (move_record s m)]) /\
    (forall wt bt,
       float_of (max0 (white_time s)) = Ok wt ->
       float_of (max0 (black_time s)) = Ok bt ->
       exists r',
         drain r [Msg (move_record s m)] = Ok (r', []) /\
         board r' = board s' /\
         white_to_move r' = white_to_move s' /\
         white_time r' = PFloat wt /\
         black_time r' = PFloat bt /\
         (is_checkmate (board r') || is_stalemate (board r') = true ->
          game_over r' = true /\ game_over s' = true)) /\
    (forall e,
       float_of (max0 (white_time s)) = Raise e \/
       (exists wt, float_of (max0 (white_time s)) = Ok wt /\
                   float_of (max0 (black_time s)) = Raise e) ->
       drain r [Msg (move_record s m)] = Raise e).
Proof.
  intros Hns Hps Hnr Hpr Hb Hsync Hm Huci Han Hdr.
  assert (Hdrain : drain r [Msg (move_record s m)] =
            bind (float_of (max0 (white_time s))) (fun wt =>
            bind (float_of (max0 (black_time s))) (fun bt =>
            Ok (mkGame (push (board s) m) (selected_square r) (valid_moves r)
                  (if is_checkmate (push (board s) m)
                      || is_stalemate (push (board s) m)
                   then true else game_over r)
                  (PFloat wt) (PFloat bt) (last_tick r)
                  (turn (push (board s) m))
                  (Some (from_square m, to_square m))
                  (peer_left r) (hint_enabled r) (net_on r) (local_color r),
                [])))).
  { assert (Hmr : is_legal (board r) m = true) by (now rewrite Hb).
    pose proof (legal_move_event r
                  [("type", JStr "move"); ("uci", JStr (uci m));
                   ("wtime", JNum (max0 (white_time s)));
                   ("btime", JNum (max0 (black_time s)))]
                  (uci m) m eq_refl eq_refl Huci Hmr) as Hev.
    unfold drain. rewrite Hnr, Hpr. cbn [andb negb drain_loop].
    rewrite Hnr. unfold move_record. rewrite Hev.
    rewrite Hdr. unfold transmitted. simpl. rewrite Hb.
    destruct (float_of (max0 (white_time s))) as [wt|]; simpl; [|reflexivity].
    destruct (float_of (max0 (black_time s))) as [bt|]; simpl; [|reflexivity].
    rewrite ?Hnr, ?Hpr. reflexivity. }
  unfold play_local. rewrite Han, Hns, Hps. simpl.
  eexists; split; [reflexivity|]. split.
  - intros wt bt Hw Hbt. rewrite Hdrain, Hw, Hbt. simpl.
    eexists; split; [reflexivity|]. simpl.
    repeat split; try reflexivity.
    + now rewrite push_turn, Hsync.
    + destruct (is_checkmate (push (board s) m) || is_stalemate (push (board s) m));
        [reflexivity|discriminate].
    + destruct (is_checkmate (push (board s) m)); [reflexivity|].
      simpl in *. destruct (is_stalemate (push (board s) m));
        [reflexivity|discriminate].
  - intros e [Hw|(wt & Hw & Hbt)]; rewrite Hdrain, Hw; [reflexivity|].
    simpl. now rewrite Hbt.
Qed.

(** X11.  Once the game is over, clicks on the board are ignored, but a
    move that comes in from the peer is still played: the drain loop is
    guarded by [peer_left] only.  When the local clocks can be displayed
    and [float] accepts the two transmitted clocks, the iteration reaches
    its drawing with the position advanced, both clocks at the transmitted
    values and not run down, and the game still over; the drawing then
    displays the two new clocks, and the iteration raises what that
    raises. *)
Theorem inbound_move_after_game_over now (g : game) kv u m wt bt c :
  game_over g = true ->
  net_on g = true -> peer_left g = false ->
  eq_str (dict_get "type" kv) "move" = true ->
  lookup "uci" kv = Some (JStr u) ->
  from_uci u = Some m ->
  is_legal (board g) m = true ->
  draw_sidebar g = Ok tt ->
  transmitted "wtime" kv (white_time g) = Ok wt ->
  transmitted "btime" kv (black_time g) = Ok bt ->
  in_new c = false -> in_hint c = false -> in_exit c = false ->
  exists g',
    tick now [Msg (JObj kv)] [MouseDown c] g = Ok (Continue g' []) /\
    board g' = push (board g) m /\
    clocks g' = (PFloat wt, PFloat bt) /\
    game_over g' = true /\
    iteration now [Msg (JObj kv)] [MouseDown c] g =
      bind (fmt (PFloat wt)) (fun _ =>
      bind (fmt (PFloat bt)) (fun _ => Ok (Continue g' []))).
Proof.
  intros Hover Hn Hp Hty Huci Hm Hlegal Hd Hw Hb Hnew Hhint Hexit.
  pose proof (legal_move_event (set_last_tick g now) kv u m Hty Huci Hm Hlegal)
    as Hev.
  change (draw_sidebar (set_last_tick g now)) with (draw_sidebar g) in Hev.
  cbn [set_last_tick white_time black_time] in Hev.
  rewrite Hd, Hw, Hb in Hev.
  cbn [bind set_last_tick board selected_square valid_moves game_over
       last_tick peer_left hint_enabled net_on local_color] in Hev.
  assert (Hend : (if is_checkmate (push (board g) m) || is_stalemate (push (board g) m)
                  then true else game_over g) = true)
    by (rewrite Hover; destruct (is_checkmate (push (board g) m) ||
                                 is_stalemate (push (board g) m)); reflexivity).
  assert (Htick : exists g',
            tick now [Msg (JObj kv)] [MouseDown c] g = Ok (Continue g' []) /\
            board g' = push (board g) m /\
            clocks g' = (PFloat wt, PFloat bt) /\
            game_over g' = true).
  { unfold tick, drain. cbn [set_last_tick net_on peer_left].
    rewrite Hn, Hp. cbn [andb negb drain_loop net_on set_last_tick].
    rewrite Hn, Hev. simpl. rewrite Hn. simpl.
    unfold clock_step. simpl.
    rewrite ?Hend, ?Hover, ?Hp. simpl.
    rewrite ?Hend, ?Hover, ?Hp, ?Hnew, ?Hhint, ?Hexit. simpl.
    destruct (in_sidebar c); simpl;
      (eexists; split; [reflexivity|]; repeat split; simpl; auto). }
  destruct Htick as (g' & Ht & Hbd & Hclk & Hgo).
  exists g'. repeat split; auto.
  unfold iteration. rewrite Ht. cbn [bind]. unfold draw_frame, draw_sidebar.
  injection Hclk as -> ->.
  destruct (fmt (PFloat wt)); cbn [bind]; [|reflexivity].
  destruct (fmt (PFloat bt)); reflexivity.
Qed.

(** ** What the loop does to its channel *)

(** The channel operations of a run, seen from its first state. *)
Definition channel_use (g : game) (o : outcome) : Prop :=
  match o with
  | Continue g' ops =>
      net_dropped g' /\
      if net_on g' then net_on g = true /\ all_sends ops
      else if net_on g then closed_once ops else ops = []
  | Returned _ ops => if net_on g then closed_once ops else ops = []
  | Exited ops =>
      if net_on g then all_sends ops \/ closed_once ops else ops = []
  end.

Lemma all_sends_app a b : all_sends a -> all_sends b -> all_sends (a ++ b).
Proof. unfold all_sends. intros Ha Hb. now rewrite forallb_app, Ha, Hb. Qed.

Lemma closed_once_app a b : all_sends a -> closed_once b -> closed_once (a ++ b).
Proof.
  intros Ha (pre & -> & Hpre). exists (a ++ pre).
  split; [now rewrite app_assoc|now apply all_sends_app].
Qed.

Lemma closed_once_close : closed_once [OpClose].
Proof. exists []. split; reflexivity. Qed.

Lemma on_msg_net (g : game) payload g' :
  on_msg g payload = Ok g' ->
  net_on g' = net_on g /\ peer_left g' = peer_left g.
Proof.
  unfold on_msg.
  destruct (py_get payload "type") as [ty|]; simpl; [|discriminate].
  destruct (eq_str ty "move"); [|intros [= <-]; auto].
  destruct payload as [ | | | | |kv]; try discriminate.
  destruct (lookup "uci" kv) as [[ | | |u| | ]|]; try discriminate.
  destruct (from_uci u) as [m|]; [|discriminate].
  destruct (is_legal (board g) m); [|intros [= <-]; auto].
  intros E. destruct (apply_remote_fields _ _ _ _ E) as (_ & _ & -> & -> & _).
  auto.
Qed.

Lemma drain_loop_off (g : game) inbox :
  net_on g = false -> drain_loop g inbox = Ok (g, []).
Proof. intros Hn. destruct inbox; simpl; now rewrite Hn. Qed.

Lemma drain_loop_use inbox : forall (g : game) g' ops,
  net_on g = true -> peer_left g = false ->
  drain_loop g inbox = Ok (g', ops) ->
  (ops = [] /\ net_on g' = true /\ peer_left g' = false) \/
  (ops = [OpClose] /\ net_on g' = false).
Proof.
  induction inbox as [|evt rest IH]; intros g g' ops Hn Hp; simpl; rewrite Hn.
  - intros [= <- <-]. auto.
  - destruct evt as [addr|payload|]; simpl.
    + destruct (drain_loop g rest) as [[g2 ops2]|] eqn:E2; simpl; [|discriminate].
      intros [= <- <-]. eapply IH; eauto.
    + destruct (on_msg g payload) as [g1|] eqn:E1; simpl; [|discriminate].
      destruct (on_msg_net _ _ _ E1) as [Hn1 Hp1].
      destruct (drain_loop g1 rest) as [[g2 ops2]|] eqn:E2; simpl; [|discriminate].
      intros [= <- <-]. eapply IH; [| |exact E2]; congruence.
    + rewrite drain_loop_off by reflexivity. simpl.
      intros [= <- <-]. right. auto.
Qed.

Lemma drain_use (g : game) inbox g' ops :
  net_dropped g ->
  drain g inbox = Ok (g', ops) ->
  net_dropped g' /\
  ((ops = [] /\ net_on g' = net_on g) \/
   (ops = [OpClose] /\ net_on g = true /\ net_on g' = false)).
Proof.
  intros Hd. unfold drain.
  destruct (net_on g) eqn:Hn; simpl;
    [|intros [= <- <-]; split; [exact Hd|left; auto]].
  destruct (peer_left g) eqn:Hp; simpl;
    [intros [= <- <-]; split; [exact Hd|left; auto]|].
  intros E. destruct (drain_loop_use _ _ _ _ Hn Hp E)
    as [(-> & Hn' & Hp')|(-> & Hn')].
  - split; [intros Hp''; congruence|left; auto].
  - split; [intros _; exact Hn'|right; auto].
Qed.

Lemma close_if_net_use (g : game) :
  if net_on g then closed_once (close_if_net g) else close_if_net g = [].
Proof.
  unfold close_if_net. destruct (net_on g); [apply closed_once_close|reflexivity].
Qed.

(** One input event: the state goes on with sends only, or the loop is
    left. *)
Definition input_use (g : game) (o : outcome) : Prop :=
  match o with
  | Continue g' ops =>
      net_dropped g' /\ net_on g' = net_on g /\ all_sends ops /\
      (net_on g = false -> ops = [])
  | Returned _ ops => if net_on g then closed_once ops else ops = []
  | Exited ops =>
      if net_on g then all_sends ops \/ closed_once ops else ops = []
  end.

Lemma input_use_stay (g : game) : net_dropped g -> input_use g (Continue g []).
Proof. intros Hd. simpl. repeat split; auto. Qed.

Lemma on_square_use (g : game) c sq o :
  net_dropped g -> on_square g c sq = Ok o -> input_use g o.
Proof.
  intros Hd. unfold on_square.
  assert (Hsel : forall sel vm, input_use g (Continue (set_selection g sel vm) []))
    by (intros sel vm; simpl; repeat split; auto).
  assert (Htry : forall m sel,
             (if is_legal (board g) m
              then bind (play_local g m sel sq) (fun '(g1, ops1) =>
                   Ok (Continue g1 ops1))
              else Ok (Continue g [])) = Ok o -> input_use g o).
  { intros m sel. destruct (is_legal (board g) m).
    - destruct (play_local g m sel sq) as [[g1 ops1]|] eqn:El; simpl;
        [|discriminate].
      destruct (play_local_fields _ _ _ _ _ _ El) as (_ & _ & Hn1 & Hp1 & ->).
      intros [= <-]. simpl.
      split; [unfold net_dropped; now rewrite Hn1, Hp1|]. split; [exact Hn1|].
      destruct (net_on g); simpl; [|split; reflexivity].
      destruct (negb (peer_left g)); (split; [reflexivity|discriminate]).
    - intros [= <-]. now apply input_use_stay. }
  destruct (selected_square g) as [sel|].
  - destruct (existsb (Z.eqb sq) (valid_moves g));
      [|intros [= <-]; apply Hsel].
    destruct (piece_at (board g) sel) as [[ptype col]|]; [|discriminate].
    destruct ((ptype =? 1)%Z && ((sq / 8 =? 0)%Z || (sq / 8 =? 7)%Z)).
    + destruct (promo c) as [p|]; [apply Htry|].
      intros [= <-]. simpl. destruct (net_on g); [left|]; reflexivity.
    + apply Htry.
  - destruct (piece_at (board g) sq) as [[ptype col]|];
      [|intros [= <-]; now apply input_use_stay].
    destruct (Bool.eqb col (turn (board g))); intros [= <-];
      [apply Hsel|now apply input_use_stay].
Qed.

Lemma on_ui_use (g : game) e o :
  net_dropped g -> on_ui g e = Ok o -> input_use g o.
Proof.
  intros Hd.
  pose proof (close_if_net_use g) as Hclose.
  destruct e as [|c|]; simpl.
  - intros [= <-]. simpl. destruct (net_on g); [right|]; exact Hclose.
  - destruct (peer_left g) eqn:Hp.
    { destruct (in_leave c || in_exit c); intros [= <-];
        [|now apply input_use_stay].
      simpl. now rewrite (Hd Hp). }
    destruct (in_new c); [intros [= <-]; exact Hclose|].
    destruct (in_hint c);
      [intros [= <-]; simpl; repeat split; auto|].
    destruct (in_exit c); [intros [= <-]; exact Hclose|].
    destruct (in_sidebar c); [intros [= <-]; now apply input_use_stay|].
    destruct (game_over g); [intros [= <-]; now apply input_use_stay|].
    destruct (match local_color g with
              | Some col => negb (Bool.eqb (turn (board g)) col)
              | None => false
              end); [intros [= <-]; now apply input_use_stay|].
    destruct (square c) as [sq|]; [|intros [= <-]; now apply input_use_stay].
    now apply on_square_use.
  - intros [= <-]. now apply input_use_stay.
Qed.

Lemma input_use_seq (g g1 : game) ops1 o2 :
  input_use g (Continue g1 ops1) -> input_use g1 o2 ->
  input_use g
    match o2 with
    | Continue g2 ops2 => Continue g2 (ops1 ++ ops2)
    | Returned r ops2 => Returned r (ops1 ++ ops2)
    | Exited ops2 => Exited (ops1 ++ ops2)
    end.
Proof.
  intros (Hd1 & Hn1 & Hs1 & He1) H2.
  destruct o2 as [g2 ops2|r ops2|ops2]; simpl in *.
  - destruct H2 as (Hd2 & Hn2 & Hs2 & He2).
    split; [exact Hd2|]. split; [congruence|].
    split; [now apply all_sends_app|].
    intros Hn. rewrite (He1 Hn), He2; [reflexivity|congruence].
  - rewrite Hn1 in H2. destruct (net_on g).
    + now apply closed_once_app.
    + now rewrite H2, (He1 eq_refl).
  - rewrite Hn1 in H2. destruct (net_on g).
    + destruct H2 as [H2|H2];
        [left; now apply all_sends_app|right; now apply closed_once_app].
    + now rewrite H2, (He1 eq_refl).
Qed.

Lemma ui_loop_use es : forall (g : game) o,
  net_dropped g -> ui_loop g es = Ok o -> input_use g o.
Proof.
  induction es as [|e es IH]; intros g o Hd; simpl.
  - intros [= <-]. now apply input_use_stay.
  - destruct (on_ui g e) as [o1|] eqn:E1; simpl; [|discriminate].
    pose proof (on_ui_use _ _ _ Hd E1) as H1.
    destruct o1 as [g1 ops1|r ops1|ops1]; try (intros [= <-]; exact H1).
    destruct (ui_loop g1 es) as [o2|] eqn:E2; simpl; [|discriminate].
    intros [= <-].
    apply (input_use_seq g g1 ops1 o2 H1).
    apply IH; [apply H1|exact E2].
Qed.

Lemma tick_use now inbox es (g : game) o :
  net_dropped g -> tick now inbox es g = Ok o -> channel_use g o.
Proof.
  intros Hd Htick. unfold tick in Htick.
  destruct (drain (set_last_tick g now) inbox) as [[g1 ops1]|] eqn:E1;
    simpl in Htick; [|discriminate].
  destruct (drain_use (set_last_tick g now) _ _ _ Hd E1) as (Hd1 & Hops1).
  simpl in Hops1.
  destruct (clock_step (f_sub now (last_tick g)) g1) as [g2|] eqn:Ec;
    simpl in Htick; [|discriminate].
  destruct (clock_step_fields _ _ _ Ec) as (_ & _ & Hn2 & Hp2 & _).
  assert (Hd2 : net_dropped g2) by (unfold net_dropped; rewrite Hn2, Hp2; exact Hd1).
  destruct (ui_loop g2 es) as [o2|] eqn:E2; simpl in Htick; [|discriminate].
  pose proof (ui_loop_use _ _ _ Hd2 E2) as H2.
  inversion Htick; subst o; clear Htick.
  assert (Hn21 : net_on g2 = net_on g1) by exact Hn2.
  destruct Hops1 as [(-> & Hn1)|(-> & Hn & Hn1)];
    destruct o2 as [g3 ops3|r ops3|ops3]; simpl in *.
  - destruct H2 as (Hd3 & Hn3 & Hs3 & He3). split; [exact Hd3|].
    rewrite Hn3, Hn21, Hn1. rewrite Hn21, Hn1 in He3.
    destruct (net_on g); [auto|]. now apply He3.
  - rewrite Hn21, Hn1 in H2. exact H2.
  - rewrite Hn21, Hn1 in H2. exact H2.
  - destruct H2 as (Hd3 & Hn3 & Hs3 & He3). split; [exact Hd3|].
    rewrite Hn3, Hn21, Hn1, Hn. rewrite Hn21, Hn1 in He3.
    rewrite (He3 eq_refl). apply closed_once_close.
  - rewrite Hn21, Hn1 in H2. rewrite Hn, H2. apply closed_once_close.
  - rewrite Hn21, Hn1 in H2. rewrite Hn, H2. right. apply closed_once_close.
Qed.

Lemma channel_use_seq (g g1 : game) ops1 o2 :
  channel_use g (Continue g1 ops1) -> channel_use g1 o2 ->
  channel_use g
    match o2 with
    | Continue g2 ops2 => Continue g2 (ops1 ++ ops2)
    | Returned r ops2 => Returned r (ops1 ++ ops2)
    | Exited ops2 => Exited (ops1 ++ ops2)
    end.
Proof.
  intros (Hd1 & H1) H2.
  destruct (net_on g1) eqn:Hn1.
  - destruct H1 as [Hn Hs1].
    destruct o2 as [g2 ops2|r ops2|ops2]; simpl in *; rewrite Hn1 in H2.
    + destruct H2 as (Hd2 & H2). split; [exact Hd2|].
      destruct (net_on g2).
      * destruct H2 as [_ Hs2]. split; [exact Hn|now apply all_sends_app].
      * rewrite Hn. now apply closed_once_app.
    + rewrite Hn. now apply closed_once_app.
    + rewrite Hn. destruct H2 as [H2|H2];
        [left; now apply all_sends_app|right; now apply closed_once_app].
  - destruct o2 as [g2 ops2|r ops2|ops2]; simpl in *; rewrite Hn1 in H2.
    + destruct H2 as (Hd2 & H2). split; [exact Hd2|].
      destruct (net_on g2); [destruct H2; discriminate|].
      rewrite H2, app_nil_r. exact H1.
    + rewrite H2, app_nil_r. exact H1.
    + rewrite H2, app_nil_r. destruct (net_on g); [right|]; exact H1.
Qed.

Lemma ticks_use frames : forall (g : game) o,
  net_dropped g -> ticks frames g = Ok o -> channel_use g o.
Proof.
  induction frames as [|[[now inbox] es] rest IH]; intros g o Hd; simpl.
  - intros [= <-]. simpl. split; [exact Hd|].
    destruct (net_on g); [split; reflexivity|reflexivity].
  - destruct (tick now inbox es g) as [o1|] eqn:E; simpl; [|discriminate].
    pose proof (tick_use _ _ _ _ _ Hd E) as H1.
    destruct o1 as [g1 ops1|r ops1|ops1]; try (intros [= <-]; exact H1).
    destruct (ticks rest g1) as [o2|] eqn:E'; simpl; [|discriminate].
    intros [= <-].
    apply (channel_use_seq g g1 ops1 o2 H1).
    apply IH; [apply H1|exact E'].
Qed.

(** X12.  The play loop and its channel.  A game without a channel (solo,
    or after the peer left) performs no channel operation at all.  With a
    channel, as long as the loop goes on with it, it has only sent; once
    the channel is given up (the peer's ['closed'] event, New Game or Exit)
    the operations are sends followed by exactly one [close], and nothing
    is sent or closed after that.  Every [return] of the loop has closed
    the channel; [sys.exit()] may leave it open (the promotion dialog
    exits without closing). *)
Theorem channel_closed_once_and_last frames (g : game) o :
  (peer_left g = true -> net_on g = false) ->
  ticks frames g = Ok o ->
  match o with
  | Continue g' ops =>
      if net_on g' then net_on g = true /\ all_sends ops
      else if net_on g then closed_once ops else ops = []
  | Returned _ ops => if net_on g then closed_once ops else ops = []
  | Exited ops =>
      if net_on g then all_sends ops \/ closed_once ops else ops = []
  end.
Proof.
  intros Hd Hrun. pose proof (ticks_use frames g o Hd Hrun) as Huse.
  destruct o; simpl in Huse; tauto.
Qed.

(** ** How the loop is left *)

Definition exit_or_new (o : outcome) : Prop :=
  match o with
  | Returned r _ => r = "exit" \/ r = "new"
  | _ => True
  end%string.

Lemma on_square_returns (g : game) c sq o :
  on_square g c sq = Ok o -> exit_or_new o.
Proof.
  unfold on_square.
  assert (Htry : forall m sel,
             (if is_legal (board g) m
              then bind (play_local g m sel sq) (fun '(g1, ops1) =>
                   Ok (Continue g1 ops1))
              else Ok (Continue g [])) = Ok o -> exit_or_new o).
  { intros m sel. destruct (is_legal (board g) m);
      [destruct (play_local g m sel sq) as [[g1 ops1]|]; simpl;
       [|discriminate]|]; intros [= <-]; exact I. }
  destruct (selected_square g) as [sel|].
  - destruct (existsb (Z.eqb sq) (valid_moves g)); [|intros [= <-]; exact I].
    destruct (piece_at (board g) sel) as [[ptype col]|]; [|discriminate].
    destruct ((ptype =? 1)%Z && ((sq / 8 =? 0)%Z || (sq / 8 =? 7)%Z)).
    + destruct (promo c) as [p|]; [apply Htry|intros [= <-]; exact I].
    + apply Htry.
  - destruct (piece_at (board g) sq) as [[ptype col]|]; [|intros [= <-]; exact I].
    destruct (Bool.eqb col (turn (board g))); intros [= <-]; exact I.
Qed.

Lemma on_ui_returns (g : game) e o :
  on_ui g e = Ok o -> exit_or_new o.
Proof.
  destruct e as [|c|]; simpl; try (intros [= <-]; exact I).
  destruct (peer_left g).
  { destruct (in_leave c || in_exit c); intros [= <-]; simpl; auto. }
  destruct (in_new c); [intros [= <-]; simpl; auto|].
  destruct (in_hint c); [intros [= <-]; exact I|].
  destruct (in_exit c); [intros [= <-]; simpl; auto|].
  destruct (in_sidebar c); [intros [= <-]; exact I|].
  destruct (game_over g); [intros [= <-]; exact I|].
  destruct (match local_color g with
            | Some col => negb (Bool.eqb (turn (board g)) col)
            | None => false
            end); [intros [= <-]; exact I|].
  destruct (square c) as [sq|]; [|intros [= <-]; exact I].
  apply on_square_returns.
Qed.

Lemma ui_loop_returns es : forall (g : game) o,
  ui_loop g es = Ok o -> exit_or_new o.
Proof.
  induction es as [|e es IH]; intros g o; simpl.
  - intros [= <-]. exact I.
  - destruct (on_ui g e) as [o1|] eqn:E1; simpl; [|discriminate].
    pose proof (on_ui_returns _ _ _ E1) as H1.
    destruct o1 as [g1 ops1|r ops1|ops1]; try (intros [= <-]; exact H1).
    destruct (ui_loop g1 es) as [o2|] eqn:E2; simpl; [|discriminate].
    pose proof (IH _ _ E2) as H2.
    intros [= <-]. destruct o2; exact H2.
Qed.

(** X24.  [main_game] hands only two values back to the program's outer
    loop: whatever happens in the play loop, a [return] carries ["exit"]
    or ["new"]. *)
Theorem play_loop_returns_exit_or_new frames (g : game) r ops :
  ticks frames g = Ok (Returned r ops) ->
  r = "exit"%string \/ r = "new"%string.
Proof.
  revert g r ops.
  induction frames as [|[[now inbox] es] rest IH]; intros g r ops; simpl.
  - discriminate.
  - destruct (tick now inbox es g) as [o1|] eqn:E; simpl; [|discriminate].
    assert (H1 : exit_or_new o1).
    { unfold tick in E.
      destruct (drain (set_last_tick g now) inbox) as [[g1' ops1']|];
        simpl in E; [|discriminate].
      destruct (clock_step (f_sub now (last_tick g)) g1') as [g2'|];
        simpl in E; [|discriminate].
      destruct (ui_loop g2' es) as [o2'|] eqn:Hu'; simpl in E; [|discriminate].
      pose proof (ui_loop_returns _ _ _ Hu') as H3.
      inversion E; subst o1. destruct o2'; exact H3. }
    destruct o1 as [g1 ops1|r1 ops1|ops1]; try (intros [= <- _]; exact H1);
      try discriminate.
    destruct (ticks rest g1) as [o2|] eqn:E'; simpl; [|discriminate].
    destruct o2 as [g2 ops2|r2 ops2|ops2]; try discriminate.
    intros [= <- _]. eapply IH; eauto.
Qed.

(** ** After the peer has left *)

Lemma set_last_tick_twice (g : game) t t' :
  set_last_tick (set_last_tick g t) t' = set_last_tick g t'.
Proof. reflexivity. Qed.

Lemma on_ui_left (g : game) e :
  peer_left g = true -> net_on g = false ->
  on_ui g e = Ok (Continue g []) \/
  on_ui g e = Ok (Returned "exit" []) \/
  on_ui g e = Ok (Exited []).
Proof.
  intros Hp Hn. destruct e as [|c|]; simpl.
  - right. right. unfold close_if_net. now rewrite Hn.
  - rewrite Hp. destruct (in_leave c || in_exit c); auto.
  - auto.
Qed.

Lemma ui_loop_left es (g : game) :
  peer_left g = true -> net_on g = false ->
  ui_loop g es = Ok (Continue g []) \/
  ui_loop g es = Ok (Returned "exit" []) \/
  ui_loop g es = Ok (Exited []).
Proof.
  intros Hp Hn. induction es as [|e es IH]; simpl; [auto|].
  destruct (on_ui_left g e Hp Hn) as [-> |[-> | ->]]; simpl; auto.
  destruct IH as [-> |[-> | ->]]; simpl; auto.
Qed.

Lemma tick_left now inbox es (g : game) :
  peer_left g = true -> net_on g = false ->
  tick now inbox es g = Ok (Continue (set_last_tick g now) []) \/
  tick now inbox es g = Ok (Returned "exit" []) \/
  tick now inbox es g = Ok (Exited []).
Proof.
  intros Hp Hn. unfold tick, drain. simpl. rewrite Hn. simpl.
  unfold clock_step. simpl. rewrite Hp, andb_false_r. cbn [bind].
  destruct (ui_loop_left es (set_last_tick g now) Hp Hn) as [-> |[-> | ->]];
    simpl; auto.
Qed.

(** X25.  Once the peer has left the game is frozen.  No number of
    iterations raises, plays a move, changes a clock or a flag, or touches
    the channel: the state stays what it was but for [last_tick], clicks
    on New Game and Hint are ignored, and the loop is left only by
    returning ["exit"] or by closing the window. *)
Theorem frozen_after_peer_left frames (g : game) :
  peer_left g = true -> net_on g = false ->
  ticks frames g = Ok (Continue g []) \/
  (exists now, ticks frames g = Ok (Continue (set_last_tick g now) [])) \/
  ticks frames g = Ok (Returned "exit" []) \/
  ticks frames g = Ok (Exited []).
Proof.
  intros Hp Hn.
  assert (Hgen : forall g0 : game,
             peer_left g0 = true -> net_on g0 = false ->
             (exists now, ticks frames g0 = Ok (Continue (set_last_tick g0 now) [])) \/
             ticks frames g0 = Ok (Continue g0 []) \/
             ticks frames g0 = Ok (Returned "exit" []) \/
             ticks frames g0 = Ok (Exited [])).
  { induction frames as [|[[now inbox] es] rest IH]; intros g0 Hp0 Hn0; simpl.
    - auto.
    - destruct (tick_left now inbox es g0 Hp0 Hn0) as [-> |[-> | ->]];
        simpl; auto.
      destruct (IH (set_last_tick g0 now) Hp0 Hn0) as [[t ->]|[-> |[-> | ->]]];
        simpl; auto.
      + left. exists t. reflexivity.
      + left. exists now. reflexivity. }
  destruct (Hgen g Hp Hn) as [H1|[H1|[H1|H1]]]; auto.
Qed.

(** With the drawing: if the clocks could be displayed when the peer left,
    every iteration displays the same clocks again, and the loop with its
    drawing runs as the loop without. *)
Lemma frozen_with_drawing frames : forall g : game,
  peer_left g = true -> net_on g = false -> draw_sidebar g = Ok tt ->
  main_loop frames g = ticks frames g.
Proof.
  induction frames as [|[[now inbox] es] rest IH]; intros g Hp Hn Hd; simpl.
  - reflexivity.
  - unfold iteration.
    destruct (tick_left now inbox es g Hp Hn) as [-> |[-> | ->]];
      cbn [bind]; try reflexivity.
    unfold draw_frame.
    change (draw_sidebar (set_last_tick g now)) with (draw_sidebar g).
    rewrite Hd. cbn [bind].
    now rewrite (IH (set_last_tick g now) Hp Hn Hd).
Qed.

End PlayLoop.

(** ** The theorems at work *)

Import MainGame MainGameFacts.

(** Black's side of a game: White's e2e4 arrives, then Black answers e7e5
    with one click on the pawn and, an iteration later, one on its
    target. *)
Definition reply : list (Z * list (NetPlay.event Z) * list ui_event) :=
  [(1%Z, [NetPlay.Msg (JObj e2e4_kv)], []);
   (2%Z, [], [WireFacts.click_on 52]);
   (3%Z, [], [WireFacts.click_on 36])].

Definition after_reply : game Z (list move) :=
  mkGame [Opening.e2e4; Opening.e7e5] None [] true
    (PFloat 299%Z) (PFloat 297%Z) 3%Z true (Some (52, 36)%Z)
    false false true (Some false).

Definition e7e5_record : json Z :=
  JObj [("type", JStr "move"); ("uci", JStr "e7e5");
        ("wtime", JNum (PFloat 299%Z)); ("btime", JNum (PFloat 297%Z))]%string.

Lemma side_to_move_witness :
  main_loop reply black_start
    = Ok (Continue after_reply [OpSend e7e5_record]) /\
  ticks reply black_start = Ok (Continue after_reply [OpSend e7e5_record]) /\
  white_to_move after_reply = turn (board after_reply).
Proof.
  split; [reflexivity|]. split; [reflexivity|].
  exact (side_to_move_follows_board reply black_start after_reply
           [OpSend e7e5_record] eq_refl eq_refl).
Defined.

Lemma position_moves_witness :
  ticks reply black_start = Ok (Continue after_reply [OpSend e7e5_record]) /\
  legal_path (board black_start) (board after_reply).
Proof.
  split; [reflexivity|].
  exact (position_moves_legally reply black_start after_reply
           [OpSend e7e5_record] eq_refl).
Defined.

(** Black presses the hint button twice in a row, with another event in
    between, before White has moved. *)
Definition on_hint : ui_event :=
  MouseDown (mkClick false false false true true None None).

Definition early_clicks : list ui_event := [on_hint; OtherEvent; on_hint].

Lemma locked_input_witness :
  input_locked black_start = true /\
  exists o,
    ui_loop black_start early_clicks = Ok o /\
    forallb (fun op => negb (is_send op)) (ops_of o) = true /\
    forall g' ops, o = Continue g' ops ->
      ops = [] /\ (g' = black_start \/ g' = toggle_hint black_start).
Proof.
  split; [reflexivity|].
  exact (locked_input_changes_nothing black_start early_clicks eq_refl).
Defined.

(** White's state in the iteration of the second click, when the clock
    has run and the click is looked at. *)
Definition e2_in_hand : game Z (list move) :=
  mkGame [] (Some 12%Z) [28%Z] false (PFloat 298%Z) (PInt 300) 2%Z
    true None false false true (Some true).

Definition e2e4_received : game Z (list move) :=
  mkGame [Opening.e2e4] None [] false (PFloat 298%Z) (PFloat 300%Z) 0%Z
    false (Some (12, 28)%Z) false false true (Some false).

(** The same two states in a game that gives Black 10^400 seconds: the
    move is played and sent, and the receiver cannot take the clock. *)
Definition long_e2_in_hand : game Z (list move) :=
  mkGame [] (Some 12%Z) [28%Z] false (PFloat 298%Z) (PInt (10 ^ 400)) 2%Z
    true None false false true (Some true).

Definition long_black_start : game Z (list move) :=
  new_game 300 (10 ^ 400) 0%Z true (Some false).

Lemma relayed_move_witness :
  (play_local e2_in_hand Opening.e2e4 12 28
     = Ok (WireFacts.after_e2e4, [OpSend WireFacts.e2e4_record]) /\
   drain black_start [NetPlay.Msg WireFacts.e2e4_record]
     = Ok (e2e4_received, [])) /\
  (exists s',
     play_local e2_in_hand Opening.e2e4 12 28
       = Ok (s', [OpSend (move_record e2_in_hand Opening.e2e4)]) /\
     exists r',
       drain black_start
         [NetPlay.Msg (move_record e2_in_hand Opening.e2e4)] = Ok (r', []) /\
       board r' = board s' /\
       white_to_move r' = white_to_move s' /\
       white_time r' = PFloat 298%Z /\
       black_time r' = PFloat 300%Z /\
       (is_checkmate (board r') || is_stalemate (board r') = true ->
        game_over r' = true /\ game_over s' = true)) /\
  (exists s',
     play_local long_e2_in_hand Opening.e2e4 12 28
       = Ok (s', [OpSend (move_record long_e2_in_hand Opening.e2e4)])) /\
  drain long_black_start
    [NetPlay.Msg (move_record long_e2_in_hand Opening.e2e4)]
    = Raise OverflowError.
Proof.
  split; [split; reflexivity|].
  destruct (relayed_move_keeps_peers_in_step e2_in_hand black_start
              Opening.e2e4 12 28) as (s' & Hs & Hok & _); try reflexivity.
  destruct (relayed_move_keeps_peers_in_step long_e2_in_hand long_black_start
              Opening.e2e4 12 28) as (l' & Hl & _ & Hraise); try reflexivity.
  split; [|split].
  - exists s'. split; [exact Hs|]. exact (Hok 298%Z 300%Z eq_refl eq_refl).
  - exists l'. exact Hl.
  - apply Hraise. right. exists 298%Z. split; reflexivity.
Defined.

(** Black's view of a game that White lost on time before moving. *)
Definition flag_fell : game Z (list move) :=
  mkGame [] None [] true (PFloat 0%Z) (PInt 300) 300%Z true None
    false false true (Some false).

Lemma inbound_after_game_over_witness :
  exists g',
    tick 301%Z [NetPlay.Msg (JObj e2e4_kv)] [WireFacts.click_on 52] flag_fell
      = Ok (Continue g' []) /\
    board g' = push (board flag_fell) Opening.e2e4 /\
    clocks g' = (PFloat 299%Z, PFloat 300%Z) /\
    game_over g' = true /\
    iteration 301%Z [NetPlay.Msg (JObj e2e4_kv)] [WireFacts.click_on 52]
      flag_fell =
      bind (fmt (PFloat 299%Z)) (fun _ =>
      bind (fmt (PFloat 300%Z)) (fun _ => Ok (Continue g' []))).
Proof.
  exact (inbound_move_after_game_over 301%Z flag_fell e2e4_kv "e2e4"
           Opening.e2e4 299%Z 300%Z
           (mkClick false false false false false (Some 52%Z) None)
           eq_refl eq_refl eq_refl eq_refl eq_refl eq_refl eq_refl eq_refl
           eq_refl eq_refl eq_refl eq_refl eq_refl).
Defined.

(** White plays e2e4, then the peer goes away and White leaves through the
    overlay button. *)
Definition short_session : list (Z * list (NetPlay.event Z) * list ui_event) :=
  [(1%Z, [], [WireFacts.click_on 12]);
   (2%Z, [], [WireFacts.click_on 28]);
   (3%Z, [NetPlay.Closed],
    [MouseDown (mkClick true false false false false None None)])].

Lemma channel_closed_witness :
  main_loop short_session WireFacts.white_start
    = Ok (Returned "exit" [OpSend WireFacts.e2e4_record; OpClose]) /\
  ticks short_session WireFacts.white_start
    = Ok (Returned "exit" [OpSend WireFacts.e2e4_record; OpClose]) /\
  closed_once [OpSend WireFacts.e2e4_record; @OpClose Z].
Proof.
  split; [reflexivity|]. split; [reflexivity|].
  apply (channel_closed_once_and_last short_session WireFacts.white_start
           (Returned "exit" [OpSend WireFacts.e2e4_record; OpClose]));
    [discriminate|reflexivity].
Defined.

(** Black selects a pawn while waiting; not Black's turn, so nothing
    happens; then Black presses New Game. *)
Definition restart : list (Z * list (NetPlay.event Z) * list ui_event) :=
  [(1%Z, [], [WireFacts.click_on 52]);
   (2%Z, [], [MouseDown (mkClick false false true false true None None)])].

Lemma play_loop_returns_witness :
  ticks restart black_start = Ok (Returned "new" [OpClose]) /\
  ("new" = "exit" \/ "new" = "new")%string.
Proof.
  split; [reflexivity|].
  exact (play_loop_returns_exit_or_new restart black_start "new" [OpClose]
           eq_refl).
Defined.

(** White's game after the peer has gone. *)
Definition deserted : game Z (list move) :=
  on_closed WireFacts.after_e2e4.

Definition idle_frames : list (Z * list (NetPlay.event Z) * list ui_event) :=
  [(5%Z, [NetPlay.Msg (JObj e7e5_kv)], [WireFacts.click_on 52]);
   (6%Z, [], [MouseDown (mkClick false false true true true None None)])].

Lemma frozen_after_peer_left_witness :
  ticks idle_frames deserted = Ok (Continue (set_last_tick deserted 6%Z) []) /\
  (ticks idle_frames deserted = Ok (Continue deserted []) \/
   (exists now,
      ticks idle_frames deserted = Ok (Continue (set_last_tick deserted now) [])) \/
   ticks idle_frames deserted = Ok (Returned "exit" []) \/
   ticks idle_frames deserted = Ok (Exited [])).
Proof.
  split; [reflexivity|].
  exact (frozen_after_peer_left idle_frames deserted eq_refl eq_refl).
Defined.

End PlayLoop.


(* ===================================================================== *)
(** * The colour screen from its first frame to its last *)
(* ===================================================================== *)

Module ScreenRun.
Section ScreenRun.
Context {F : Type} `{PyFloat F}.
Import NetPlay ColorSelect.

#[local] Abbreviation screen := (ColorSelect.screen F).
#[local] Abbreviation outcome := (ColorSelect.outcome F).

Definition side (c : string) : Prop := c = "white" \/ c = "black".

(** [local_choice] is [None] before the first pick and one of the two
    colour names after it, and [sent] tells the two apart. *)
Definition coherent (s : screen) : Prop :=
  match local_choice s with
  | None => sent s = false
  | Some c => side c /\ sent s = true
  end.

(** What was sent while [sent] went from [before] to [after]. *)
Definition announced_by (before after : bool) (ops : list (netop F)) : Prop :=
  (ops = [] /\ after = before) \/
  (before = false /\ after = true /\
   exists c, side c /\ ops = [OpSend (choose_record c)]).

(** The channel operations of a run of the screen that started in [s]. *)
Definition leaves (s : screen) (o : outcome) : Prop :=
  match o with
  | Continue s' ops => coherent s' /\ announced_by (sent s) (sent s') ops
  | Returned (Some c) _ ops => side c /\ announced_by (sent s) true ops
  | Returned None _ ops | Exited ops =>
      exists pre after, ops = pre ++ [OpClose] /\ announced_by (sent s) after pre
  end.

Lemma side_other c : side c -> side (other_side c).
Proof. intros [-> | ->]; [right|left]; reflexivity. Qed.

Lemma announced_by_refl b : announced_by b b [].
Proof. left. auto. Qed.

Lemma announced_by_trans a b c (ops1 ops2 : list (netop F)) :
  announced_by a b ops1 -> announced_by b c ops2 ->
  announced_by a c (ops1 ++ ops2).
Proof.
  intros [[-> ->]|(-> & -> & c1 & Hc1 & ->)] [[-> ->]|(Hb & -> & c2 & Hc2 & ->)].
  - left. auto.
  - right. split; [exact Hb|]. split; [reflexivity|]. exists c2. auto.
  - right. repeat split. exists c1. auto.
  - discriminate.
Qed.

Lemma on_msg_coherent (s : screen) payload s' :
  coherent s -> on_msg s payload = Ok s' ->
  coherent s' /\ sent s' = sent s.
Proof.
  unfold on_msg. intros Hs.
  destruct (py_get payload "type") as [ty|]; simpl; [|discriminate].
  destruct (eq_str ty "choose"); [|intros [= <-]; auto].
  destruct (py_get payload "color") as [r|]; simpl; [|discriminate].
  destruct (chosen (local_choice s) && same_choice (local_choice s) r);
    intros [= <-]; (split; [|reflexivity]);
    unfold coherent in *; simpl; destruct (local_choice s) as [c|]; simpl; auto.
  destruct Hs as [Hc Hsent]. split; [now apply side_other|exact Hsent].
Qed.

Lemma poll_loop_leaves inbox : forall (s : screen) o,
  coherent s -> poll_loop s inbox = Ok o -> leaves s o.
Proof.
  induction inbox as [|evt rest IH]; intros s o Hs; simpl.
  - intros [= <-]. split; [exact Hs|apply announced_by_refl].
  - destruct evt as [addr|payload|].
    + now apply IH.
    + destruct (on_msg s payload) as [s1|] eqn:E; simpl; [|discriminate].
      destruct (on_msg_coherent _ _ _ Hs E) as [Hs1 Hsent].
      intros E1. pose proof (IH _ _ Hs1 E1) as Hl.
      unfold leaves in *. rewrite Hsent in Hl. exact Hl.
    + intros [= <-]. exists [], (sent s). split; [reflexivity|].
      apply announced_by_refl.
Qed.

Lemma pick_leaves (s : screen) desired :
  side desired ->
  coherent (fst (pick s desired)) /\
  announced_by (sent s) (sent (fst (pick s desired))) (snd (pick s desired)).
Proof.
  intros Hd. unfold pick, coherent. simpl.
  assert (Hmine : side (if eq_str (remote_choice s) desired
                        then other_side desired else desired))
    by (destruct (eq_str (remote_choice s) desired);
        [now apply side_other|exact Hd]).
  split; [auto|].
  destruct (sent s); [left; auto|].
  right. repeat split. eexists; split; [exact Hmine|reflexivity].
Qed.

Lemma on_ui_leaves (s : screen) e :
  coherent s -> leaves s (on_ui s e).
Proof.
  intros Hs. destruct e; simpl.
  - exists [], (sent s). split; [reflexivity|apply announced_by_refl].
  - apply (pick_leaves s "white"). now left.
  - apply (pick_leaves s "black"). now right.
  - exists [], (sent s). split; [reflexivity|apply announced_by_refl].
  - split; [exact Hs|apply announced_by_refl].
  - split; [exact Hs|apply announced_by_refl].
Qed.

Lemma leaves_prepend (s s1 : screen) ops1 o2 :
  leaves s (Continue s1 ops1) -> leaves s1 o2 -> leaves s (prepend ops1 o2).
Proof.
  intros [Hs1 H1] H2.
  destruct o2 as [s2 ops2|[c|] s2 ops2|ops2]; simpl in *.
  - destruct H2 as [Hs2 H2]. split; [exact Hs2|].
    eapply announced_by_trans; eauto.
  - destruct H2 as [Hc H2]. split; [exact Hc|].
    eapply announced_by_trans; eauto.
  - destruct H2 as (pre & after & -> & H2).
    exists (ops1 ++ pre), after. split; [now rewrite app_assoc|].
    eapply announced_by_trans; eauto.
  - destruct H2 as (pre & after & -> & H2).
    exists (ops1 ++ pre), after. split; [now rewrite app_assoc|].
    eapply announced_by_trans; eauto.
Qed.

Lemma ui_loop_leaves es : forall s : screen,
  coherent s -> leaves s (ui_loop s es).
Proof.
  induction es as [|e es IH]; intros s Hs; simpl.
  - split; [exact Hs|apply announced_by_refl].
  - pose proof (on_ui_leaves s e Hs) as H1.
    destruct (on_ui s e) as [s1 ops1|r s1 ops1|ops1]; try exact H1.
    apply (leaves_prepend s s1); [exact H1|]. apply IH. apply H1.
Qed.

Lemma resolve_leaves (s : screen) :
  coherent s ->
  leaves s (resolve s) /\
  forall s' ops, resolve s = Continue s' ops -> s' = s /\ ops = [].
Proof.
  intros Hs. unfold resolve.
  destruct (chosen (local_choice s) && truthy (remote_choice s)) eqn:E.
  - apply andb_true_iff in E as [Hch _].
    unfold coherent in Hs.
    destruct (local_choice s) as [c|] eqn:El; [|discriminate].
    destruct Hs as [Hc Hsent].
    destruct (same_choice (Some c) (remote_choice s)); simpl;
      (split; [|discriminate]); rewrite ?El; simpl; rewrite Hsent.
    + split; [now apply side_other|apply announced_by_refl].
    + split; [exact Hc|apply announced_by_refl].
  - split; [|intros s' ops [= <- <-]; auto].
    split; [exact Hs|apply announced_by_refl].
Qed.

Lemma prepend_app (a b : list (netop F)) (o : outcome) :
  prepend (a ++ b) o = prepend a (prepend b o).
Proof. destruct o; simpl; now rewrite app_assoc. Qed.

Lemma frame_leaves (s : screen) inbox es o :
  coherent s -> frame s inbox es = Ok o -> leaves s o.
Proof.
  intros Hs. unfold frame.
  destruct (poll_loop s inbox) as [o1|] eqn:E1; simpl; [|discriminate].
  pose proof (poll_loop_leaves _ _ _ Hs E1) as H1.
  destruct o1 as [s1 ops1|r s1 ops1|ops1]; try (intros [= <-]; exact H1).
  pose proof (ui_loop_leaves es s1 (proj1 H1)) as H2.
  destruct (ui_loop s1 es) as [s2 ops2|r s2 ops2|ops2] eqn:E2.
  - intros [= <-]. rewrite prepend_app.
    apply (leaves_prepend s s1); [exact H1|].
    apply (leaves_prepend s1 s2); [exact H2|].
    apply resolve_leaves. apply H2.
  - intros [= <-]. apply (leaves_prepend s s1 ops1 (Returned r s2 ops2) H1 H2).
  - intros [= <-]. apply (leaves_prepend s s1 ops1 (Exited ops2) H1 H2).
Qed.

Lemma screen_leaves frames : forall (s : screen) o,
  coherent s -> color_select_screen s frames = Ok (Some o) ->
  leaves s o /\ forall s' ops, o <> Continue s' ops.
Proof.
  induction frames as [|[inbox es] rest IH]; intros s o Hs; simpl.
  - discriminate.
  - destruct (frame s inbox es) as [o1|] eqn:E1; simpl; [|discriminate].
    pose proof (frame_leaves _ _ _ _ Hs E1) as H1.
    destruct o1 as [s1 ops1|r s1 ops1|ops1];
      try (intros [= <-]; split; [exact H1|discriminate]).
    destruct (color_select_screen s1 rest) as [[o2|]|] eqn:E2; simpl;
      try discriminate.
    intros [= <-].
    destruct (IH _ _ (proj1 H1) E2) as [H2 Hne].
    split; [now apply (leaves_prepend s s1)|].
    intros s' ops. destruct o2; simpl; try discriminate.
    exfalso. eapply Hne; reflexivity.
Qed.

(** X13.  The colour screen from its first frame, whatever the peer sends
    and whatever is clicked.  When it returns a colour, that colour is
    ['white'] or ['black'], and the screen has sent exactly one record, a
    choose record for one of the two colours, and has not closed the
    channel.  When it returns [None] or exits, it has sent at most one
    such record and then closed the channel, exactly once and as its last
    operation. *)
Theorem screen_announces_once frames (o : outcome) :
  color_select_screen screen_init frames = Ok (Some o) ->
  match o with
  | Continue _ _ => False
  | Returned (Some c) _ ops =>
      side c /\ exists c0, side c0 /\ ops = [OpSend (choose_record c0)]
  | Returned None _ ops | Exited ops =>
      ops = [OpClose] \/
      exists c0, side c0 /\ ops = [OpSend (choose_record c0); OpClose]
  end.
Proof.
  intros Hrun.
  destruct (screen_leaves frames screen_init o eq_refl Hrun) as [Hl Hne].
  assert (Hclose : forall ops : list (netop F),
             (exists pre after, ops = pre ++ [OpClose] /\
                                announced_by false after pre) ->
             ops = [OpClose] \/
             exists c0, side c0 /\ ops = [OpSend (choose_record c0); OpClose]).
  { intros ops (pre & after & -> & [[-> _]|(_ & _ & c0 & Hc0 & ->)]);
      [left; reflexivity|right; exists c0; auto]. }
  destruct o as [s' ops|[c|] s' ops|ops]; simpl in Hl.
  - exact (Hne _ _ eq_refl).
  - destruct Hl as [Hc [[_ E]|(_ & _ & c0 & Hc0 & ->)]]; [discriminate|].
    split; [exact Hc|]. exists c0. auto.
  - now apply Hclose.
  - now apply Hclose.
Qed.

End ScreenRun.

(** ** The theorem at work *)

(** The peer's white arrives first; a click on White is turned into
    black, announced, and returned. *)
Definition taken_white : list (list (NetPlay.event Z) * list ColorSelect.ui_event) :=
  [([], [ColorSelect.OtherEvent]);
   ([NetPlay.Msg (ColorSelect.choose_record "white")], [ColorSelect.ClickWhite])].

Definition after_taken_white : ColorSelect.outcome Z :=
  Eval vm_compute in
    match ColorSelect.color_select_screen ColorSelect.screen_init taken_white with
    | Ok (Some o) => o
    | _ => ColorSelect.Exited []
    end.

Lemma screen_announces_witness :
  ColorSelect.color_select_screen ColorSelect.screen_init taken_white
    = Ok (Some after_taken_white) /\
  match after_taken_white with
  | ColorSelect.Continue _ _ => False
  | ColorSelect.Returned (Some c) _ ops =>
      side c /\
      exists c0, side c0 /\ ops = [OpSend (ColorSelect.choose_record c0)]
  | ColorSelect.Returned None _ ops | ColorSelect.Exited ops =>
      ops = [OpClose] \/
      exists c0, side c0 /\
                 ops = [OpSend (ColorSelect.choose_record c0); OpClose]
  end.
Proof.
  split; [reflexivity|].
  exact (screen_announces_once taken_white after_taken_white eq_refl).
Defined.

End ScreenRun.


(* ===================================================================== *)
(** * [main_game]: the host waits for its peer *)
(* ===================================================================== *)

Module HostWait.
Section HostWait.
Context {F : Type} `{PyFloat F}.
Variable loads : list byte -> option (json F).
Import NetPlay NetPlayFacts.

#[local] Abbreviation netplay := (NetPlay.netplay F).
#[local] Abbreviation event := (NetPlay.event F).
#[local] Abbreviation action := (NetPlay.action F).

(** What the waiting loop tells apart among the pending input events. *)
Inductive wait_event : Type :=
| WQuit          (* pygame.QUIT *)
| WCancel        (* MOUSEBUTTONDOWN inside CANCEL_BTN *)
| WOther.

(** How an iteration of [while not connected:] ends. *)
Inductive wait_outcome : Type :=
| Waiting (c : netplay)      (* the loop goes round again *)
| Ready (c : netplay)        (* connected: on to the colour screen *)
| Left (c : netplay)         (* return "exit" *)
| Quitted (c : netplay).     (* sys.exit() *)

(** [for event in pygame.event.get():], [None] when no event leaves the
    loop. *)
Fixpoint wait_events (es : list wait_event) (c : netplay) : option wait_outcome :=
  match es with
  | [] => None
  | WQuit :: _ => Some (Quitted (close c))
  | WCancel :: _ => Some (Left (close c))
  | WOther :: rest => wait_events rest c
  end.

(** One iteration: a single [net.poll()], then the input events. *)
Definition wait_frame (es : list wait_event) (c : netplay) : wait_outcome :=
  let '(evt, c1) := poll c in
  let connected := match evt with Some (Connected _) => true | _ => false end in
  match wait_events es c1 with
  | Some o => o
  | None => if connected then Ready c1 else Waiting c1
  end.

(** The waiting phase: iterations of the loop, and in between them the
    steps of the accept thread and of the read thread. *)
Inductive wait_item : Type :=
| Frame (es : list wait_event)
| Background (a : action).

Definition background (a : action) : bool :=
  match a with
  | AAccept _ | AHead | ARecv _ => true
  | ASend _ _ | APoll | AClose => false
  end.

(** [None]: a background step that its thread cannot take. *)
Fixpoint host_wait (items : list wait_item) (c : netplay) : option wait_outcome :=
  match items with
  | [] => Some (Waiting c)
  | Frame es :: rest =>
      match wait_frame es c with
      | Waiting c' => host_wait rest c'
      | o => Some o
      end
  | Background a :: rest =>
      if background a then
        match step loads a c with
        | Some c' => host_wait rest c'
        | None => None
        end
      else None
  end.

(** ** The three phases of the waiting host *)

Definition listening (c : netplay) : Prop :=
  accepting c = true /\ reader c = NotStarted /\ puts c = [] /\ q c = [].

(** [accept] raised: its ['closed'] is queued or already consumed, and no
    thread is left that could enqueue anything. *)
Definition deaf (c : netplay) : Prop :=
  accepting c = false /\ reader c = NotStarted /\
  puts c = [(Acceptor, Closed)] /\ (q c = [Closed] \/ q c = []).

(** A peer is there and ['connected'] has not been polled yet. *)
Definition greeted (c : netplay) : Prop :=
  accepting c = false /\ reader c <> NotStarted /\ has_sock c = true /\
  exists addr rest,
    puts c = (Acceptor, Connected addr) :: rest /\
    q c = Connected addr :: map snd rest.

Definition wait_inv (c : netplay) : Prop :=
  alive c = true /\ (listening c \/ deaf c \/ greeted c).

(** What the colour screen starts from. *)
Definition handed_over (c : netplay) : Prop :=
  alive c = true /\ has_sock c = true /\
  exists addr, map snd (puts c) = Connected addr :: q c.

Definition shut (c : netplay) : Prop :=
  alive c = false /\ listener_closed c = true.

Lemma wait_events_shut es (c : netplay) o :
  host_mode c = true ->
  wait_events es c = Some o ->
  exists c', (o = Left c' \/ o = Quitted c') /\ shut c'.
Proof.
  intros Hh. induction es as [|e es IH]; simpl; [discriminate|].
  destruct e; try (intros [= <-]; eexists; split; [eauto|];
                   unfold shut, close; simpl; now rewrite Hh).
  exact IH.
Qed.

Lemma background_step a (c c' : netplay) :
  background a = true -> step loads a c = Some c' ->
  alive c' = alive c /\ host_mode c' = host_mode c /\
  exists new, puts c' = puts c ++ new /\ q c' = q c ++ map snd new.
Proof.
  intros Hb Hstep.
  assert (Hnp : a <> APoll) by (intros ->; discriminate).
  split; [|split; [|exact (Transport.step_appends loads a c c' Hstep Hnp)]].
  - destruct a as [d ok| | |r| |r]; try discriminate; simpl in Hstep.
    + unfold accept_step in Hstep. destruct (accepting c); [|discriminate].
      destruct r; inversion Hstep; reflexivity.
    + unfold reader_head in Hstep. destruct (reader c); try discriminate.
      destruct (alive c) eqn:Ea; inversion Hstep; subst c'; simpl; congruence.
    + unfold reader_recv in Hstep. destruct (reader c); try discriminate.
      destruct r as [[|b data]|]; try (inversion Hstep; reflexivity).
      destruct (take_records loads (buf ++ b :: data)) as [buf' out].
      inversion Hstep; subst c'.
      now destruct (put_all_frame Reader out (set_reader c (AtLoopHead buf')))
        as (_ & _ & _ & -> & _).
  - destruct a as [d ok| | |r| |r]; try discriminate; simpl in Hstep.
    + unfold accept_step in Hstep. destruct (accepting c); [|discriminate].
      destruct r; inversion Hstep; reflexivity.
    + unfold reader_head in Hstep. destruct (reader c); try discriminate.
      destruct (alive c) eqn:Ea; inversion Hstep; subst c'; simpl; congruence.
    + unfold reader_recv in Hstep. destruct (reader c); try discriminate.
      destruct r as [[|b data]|]; try (inversion Hstep; reflexivity).
      destruct (take_records loads (buf ++ b :: data)) as [buf' out].
      inversion Hstep; subst c'. clear.
      induction out as [|e out IH] using rev_ind; [reflexivity|].
      unfold put_all in *. rewrite fold_left_app. simpl. exact IH.
Qed.

Lemma deaf_stuck a (c : netplay) :
  deaf c -> background a = true -> step loads a c = None.
Proof.
  intros (Ha & Hr & _) Hb.
  destruct a as [d ok| | |r| |r]; try discriminate; simpl.
  - unfold accept_step. now rewrite Ha.
  - unfold reader_head. now rewrite Hr.
  - unfold reader_recv. now rewrite Hr.
Qed.

Lemma wait_inv_background a (c c' : netplay) :
  wait_inv c -> background a = true -> step loads a c = Some c' ->
  wait_inv c'.
Proof.
  intros [Hal Hph] Hb Hstep.
  destruct (background_step a c c' Hb Hstep) as (Hal' & _ & new & Hp & Hq).
  split; [congruence|].
  destruct Hph as [(Ha & Hr & Hpc & Hqc)|[Hdeaf|(Ha & Hr & Hs & addr & rest & Hpc & Hqc)]].
  - destruct a as [d ok| | |r| |r]; try discriminate; simpl in Hstep.
    + unfold accept_step in Hstep. rewrite Ha in Hstep.
      destruct r as [addr|]; inversion Hstep; subst c'; clear Hstep.
      * right. right. unfold greeted. simpl.
        repeat split; try discriminate.
        exists addr, []. rewrite Hpc, Hqc. auto.
      * right. left. unfold deaf. simpl. rewrite Hpc, Hqc, Hr. auto.
    + unfold reader_head in Hstep. rewrite Hr in Hstep. discriminate.
    + unfold reader_recv in Hstep. rewrite Hr in Hstep. discriminate.
  - rewrite (deaf_stuck a c Hdeaf Hb) in Hstep. discriminate.
  - right. right.
    assert (Hkeep : accepting c' = false /\ reader c' <> NotStarted /\
                    has_sock c' = true).
    { destruct a as [d ok| | |r| |r]; try discriminate; simpl in Hstep.
      - unfold accept_step in Hstep. rewrite Ha in Hstep. discriminate.
      - unfold reader_head in Hstep. destruct (reader c); try discriminate.
        destruct (alive c); inversion Hstep; subst c'; simpl;
          repeat split; auto; discriminate.
      - unfold reader_recv in Hstep. destruct (reader c); try discriminate.
        destruct r as [[|b data]|];
          try (inversion Hstep; subst c'; simpl;
               repeat split; auto; discriminate).
        destruct (take_records loads (buf ++ b :: data)) as [buf' out].
        inversion Hstep; subst c'.
        destruct (put_all_frame Reader out (set_reader c (AtLoopHead buf')))
          as (-> & -> & -> & _). simpl. repeat split; auto; discriminate. }
    destruct Hkeep as (Ha' & Hr' & Hs').
    repeat split; auto.
    exists addr, (rest ++ new). rewrite Hp, Hq, Hpc, Hqc, map_app. auto.
Qed.

Definition wait_result (o : wait_outcome) : Prop :=
  match o with
  | Waiting c => wait_inv c /\ host_mode c = true
  | Ready c => handed_over c
  | Left c | Quitted c => shut c
  end.

Lemma wait_frame_result es (c : netplay) :
  wait_inv c -> host_mode c = true ->
  wait_result (wait_frame es c) /\
  (deaf c -> forall c', wait_frame es c <> Ready c') /\
  (deaf c -> forall c', wait_frame es c = Waiting c' -> deaf c').
Proof.
  intros [Hal Hph] Hh. unfold wait_frame, poll.
  destruct (q c) as [|e r] eqn:Eq.
  - destruct (wait_events es c) as [o|] eqn:Ee.
    + destruct (wait_events_shut es c o Hh Ee) as (c' & [-> | ->] & Hshut);
        (split; [exact Hshut|split; intros; discriminate]).
    + split; [split; [split; assumption|exact Hh]|].
      split; [discriminate|]. intros Hd c' [= <-]. exact Hd.
  - assert (Hh1 : host_mode (set_q c r) = true) by exact Hh.
    destruct (wait_events es (set_q c r)) as [o|] eqn:Ee.
    + destruct (wait_events_shut es _ o Hh1 Ee) as (c' & [-> | ->] & Hshut);
        (split; [exact Hshut|split; intros; discriminate]).
    + destruct Hph as [(_ & _ & _ & Hq)|[(Ha & Hr & Hp & Hq)|(Ha & Hr & Hs & addr & rest & Hp & Hq)]].
      * congruence.
      * destruct Hq as [Hq|Hq]; [|congruence].
        rewrite Eq in Hq. inversion Hq; subst e r.
        assert (Hd' : deaf (set_q c [])) by (unfold deaf; simpl; auto).
        split; [split; [split; [exact Hal|right; left; exact Hd']|exact Hh]|].
        split; [discriminate|]. intros _ c' [= <-]. exact Hd'.
      * rewrite Eq in Hq. inversion Hq; subst e r.
        split; [|split; intros (Ha' & Hr' & _); congruence].
        unfold wait_result, handed_over. simpl.
        split; [exact Hal|]. split; [exact Hs|].
        exists addr. now rewrite Hp.
Qed.

Lemma host_wait_result items : forall (c : netplay) o,
  wait_inv c -> host_mode c = true ->
  host_wait items c = Some o -> wait_result o.
Proof.
  induction items as [|[es|a] rest IH]; intros c o Hinv Hh; simpl.
  - intros [= <-]. split; assumption.
  - destruct (wait_frame_result es c Hinv Hh) as (Hres & _).
    destruct (wait_frame es c) as [c1|c1|c1|c1];
      try (intros [= <-]; exact Hres).
    destruct Hres as [Hinv1 Hh1]. now apply IH.
  - destruct (background a) eqn:Hb; [|discriminate].
    destruct (step loads a c) as [c1|] eqn:E; [|discriminate].
    destruct (background_step a c c1 Hb E) as (_ & Hh1 & _).
    apply IH; [eapply wait_inv_background; eauto|congruence].
Qed.

Lemma host_wait_deaf items : forall (c : netplay) o,
  wait_inv c -> host_mode c = true -> deaf c ->
  host_wait items c = Some o ->
  match o with
  | Waiting c' => deaf c'
  | Ready _ => False
  | Left c' | Quitted c' => shut c'
  end.
Proof.
  induction items as [|[es|a] rest IH]; intros c o Hinv Hh Hd; simpl.
  - intros [= <-]. exact Hd.
  - destruct (wait_frame_result es c Hinv Hh) as (Hres & Hnr & Hdeaf).
    destruct (wait_frame es c) as [c1|c1|c1|c1] eqn:E.
    + destruct Hres as [Hinv1 Hh1]. apply IH; auto.
    + exfalso. exact (Hnr Hd c1 eq_refl).
    + intros [= <-]. exact Hres.
    + intros [= <-]. exact Hres.
  - destruct (background a) eqn:Hb; [|discriminate].
    now rewrite (deaf_stuck a c Hd Hb).
Qed.

Lemma wait_inv_init : wait_inv (@host_init F) /\ host_mode (@host_init F) = true.
Proof. split; [split; [reflexivity|left; repeat split]|reflexivity]. Qed.

(** X14.  The host's waiting loop polls one event per iteration and
    loses nothing that matters: when it goes on to the colour screen the
    channel is alive and connected, the event it consumed last is
    ['connected'], and every event enqueued after it (the peer's choice, a
    ['closed']) is still in the inbox, in order.  When it leaves through
    Cancel or the window's close button, the channel has been closed. *)
Theorem waiting_host_hands_over items o :
  host_wait items host_init = Some o ->
  match o with
  | Waiting c => alive c = true
  | Ready c =>
      alive c = true /\ has_sock c = true /\
      exists addr, map snd (puts c) = Connected addr :: q c
  | Left c | Quitted c => alive c = false /\ listener_closed c = true
  end.
Proof.
  intros Hrun.
  destruct wait_inv_init as [Hinv Hh].
  pose proof (host_wait_result items host_init o Hinv Hh Hrun) as Hres.
  destruct o as [c|c|c|c]; simpl in Hres; try exact Hres.
  apply Hres.
Qed.

(** X15.  When [accept] fails, the waiting loop consumes the ['closed']
    event without looking at it and waits on: from then on no thread can
    enqueue anything, the loop never reaches the colour screen, and the
    only ways out are Cancel and the window's close button. *)
Theorem failed_accept_leaves_host_waiting before (c1 c2 : netplay) items o :
  host_wait before host_init = Some (Waiting c1) ->
  accept_step None c1 = Some c2 ->
  host_wait items c2 = Some o ->
  match o with
  | Waiting c' =>
      puts c' = [(Acceptor, Closed)] /\ (q c' = [Closed] \/ q c' = []) /\
      forall a, background a = true -> step loads a c' = None
  | Ready _ => False
  | Left c' | Quitted c' => alive c' = false /\ listener_closed c' = true
  end.
Proof.
  intros Hbefore Hacc Hrun.
  destruct wait_inv_init as [Hinv Hh].
  destruct (host_wait_result before host_init _ Hinv Hh Hbefore) as [Hinv1 Hh1].
  assert (Hb : background (AAccept None) = true) by reflexivity.
  pose proof (wait_inv_background (AAccept None) c1 c2 Hinv1 Hb Hacc) as Hinv2.
  destruct (background_step (AAccept None) c1 c2 Hb Hacc) as (_ & Hh2 & _).
  assert (Hd2 : deaf c2).
  { unfold accept_step in Hacc. destruct (accepting c1) eqn:Ha; [|discriminate].
    destruct Hinv1 as [_ [(_ & Hr & Hp & Hq)|[(Ha' & _)|(Ha' & _)]]];
      try congruence.
    inversion Hacc; subst c2. unfold deaf. simpl. rewrite Hp, Hq, Hr. auto. }
  pose proof (host_wait_deaf items c2 o Hinv2 (eq_trans Hh2 Hh1) Hd2 Hrun) as Hres.
  destruct o as [c|c|c|c]; try exact Hres.
  destruct Hres as (Ha & Hr & Hp & Hq).
  split; [exact Hp|]. split; [exact Hq|].
  intros a Hba. apply deaf_stuck; [|exact Hba]. unfold deaf. auto.
Qed.

End HostWait.

(** ** The theorems at work *)

Import NetPlayFacts.

(** The peer connects and its first record arrives before the loop
    looks. *)
Definition peer_arrives : list (wait_item (F := Z)) :=
  [Frame [WOther];
   Background (NetPlay.AAccept (Some Transport.peer_addr));
   Background NetPlay.AHead;
   Background (NetPlay.ARecv (Some two_records));
   Frame []].

Definition when_ready : NetPlay.netplay Z :=
  Eval vm_compute in
    match host_wait sample_loads peer_arrives NetPlay.host_init with
    | Some (Ready c) => c
    | _ => NetPlay.host_init
    end.

Lemma waiting_host_witness :
  host_wait sample_loads peer_arrives NetPlay.host_init = Some (Ready when_ready) /\
  NetPlay.q when_ready = [NetPlay.Msg e2e4_msg] /\
  NetPlay.alive when_ready = true /\ NetPlay.has_sock when_ready = true /\
  exists addr,
    map snd (NetPlay.puts when_ready) =
      NetPlay.Connected addr :: NetPlay.q when_ready.
Proof.
  split; [reflexivity|]. split; [reflexivity|].
  exact (waiting_host_hands_over sample_loads peer_arrives (Ready when_ready)
           eq_refl).
Defined.

(** The listener fails after one idle iteration; three more iterations
    follow. *)
Definition stranded : NetPlay.netplay Z :=
  NetPlay.set_q
    (NetPlay.mkNetPlay true [NetPlay.Closed] true false false false false
       NetPlay.NotStarted [] [(NetPlay.Acceptor, NetPlay.Closed)]) [].

Lemma failed_accept_witness :
  host_wait sample_loads [Frame []; Frame [WOther]; Frame []]
    (NetPlay.mkNetPlay true [NetPlay.Closed] true false false false false
       NetPlay.NotStarted [] [(NetPlay.Acceptor, NetPlay.Closed)])
    = Some (Waiting stranded) /\
  NetPlay.puts stranded = [(NetPlay.Acceptor, NetPlay.Closed)] /\
  (NetPlay.q stranded = [NetPlay.Closed] \/ NetPlay.q stranded = []) /\
  forall a, background a = true -> NetPlay.step sample_loads a stranded = None.
Proof.
  split; [reflexivity|].
  exact (failed_accept_leaves_host_waiting sample_loads [Frame []]
           NetPlay.host_init
           (NetPlay.mkNetPlay true [NetPlay.Closed] true false false false false
              NetPlay.NotStarted [] [(NetPlay.Acceptor, NetPlay.Closed)])
           [Frame []; Frame [WOther]; Frame []] (Waiting stranded)
           eq_refl eq_refl eq_refl).
Defined.

End HostWait.


(* ===================================================================== *)
(** * [promotion_dialog] *)
(* ===================================================================== *)

Module Promotion.

Local Open Scope Z_scope.

(** [options = ['q', 'r', 'b', 'n']] *)
Definition options : list ascii := ["q"; "r"; "b"; "n"]%char.

(** [l[i]] on a Python list: negative indices count from the end, [None]
    stands for [IndexError]. *)
Definition py_index {A} (l : list A) (i : Z) : option A :=
  let n := Z.of_nat (List.length l) in
  if (0 <=? i) && (i <? n) then nth_error l (Z.to_nat i)
  else if (- n <=? i) && (i <? 0) then nth_error l (Z.to_nat (i + n))
  else None.

(** [chess.PIECE_SYMBOLS.index(letter)]: [PIECE_SYMBOLS] is
    [[None, 'p', 'n', 'b', 'r', 'q', 'k']]; [None] stands for
    [ValueError]. *)
Definition piece_symbols_index (c : ascii) : option Z :=
  match c with
  | "p" => Some 1 | "n" => Some 2 | "b" => Some 3
  | "r" => Some 4 | "q" => Some 5 | "k" => Some 6
  | _ => None
  end%char.

(** The layout: [gap], [icon = max(52, int(SQUARE_SIZE * 0.90))], which is
    72 for squares of 80 pixels, and the four rectangles. *)
Definition gap : Z := 16.
Definition icon : Z := Z.max 52 (Layout.SQUARE_SIZE * 90 / 100).
Definition total_w : Z := icon * 4 + gap * 3.
Definition start_x : Z := (Layout.BOARD_SIZE - total_w) / 2.
Definition top_y : Z := (Layout.BOARD_SIZE - icon) / 2.

(** [pygame.Rect(left, top, width, height)] and [collidepoint]: the right
    and bottom edges are outside. *)
Record rect : Type := mkRect { left : Z; top : Z; width : Z; height : Z }.

Definition collidepoint (r : rect) (x y : Z) : bool :=
  (left r <=? x) && (x <? left r + width r) &&
  (top r <=? y) && (y <? top r + height r).

Definition rects : list rect :=
  map (fun i => mkRect (start_x + i * (icon + gap)) top_y icon icon) [0; 1; 2; 3].

Inductive key : Type := K_RIGHT | K_LEFT | K_RETURN | K_ESCAPE | K_OTHER.

Inductive dialog_event : Type :=
| Quit                                   (* pygame.QUIT *)
| KeyDown (k : key)
| MouseMotion (x y : Z)
| MouseButtonDown (button : Z) (x y : Z)
| OtherEvent.

Inductive dialog : Type :=
| Open (selected : Z)          (* the dialog is still up *)
| Chosen (letter : ascii)      (* return options[...] *)
| Closed                       (* pygame.quit(); sys.exit() *)
| Failed.                      (* IndexError *)

(** [for i, r in enumerate(rects): if r.collidepoint(pos): selected = i] *)
Fixpoint hover (rs : list rect) (i : Z) (x y : Z) (selected : Z) : Z :=
  match rs with
  | [] => selected
  | r :: rest =>
      hover rest (i + 1) x y (if collidepoint r x y then i else selected)
  end.

(** [for i, r in enumerate(rects): if r.collidepoint(pos): return options[i]] *)
Fixpoint hit (rs : list rect) (i : Z) (x y : Z) : option Z :=
  match rs with
  | [] => None
  | r :: rest => if collidepoint r x y then Some i else hit rest (i + 1) x y
  end.

Definition choose (i : Z) : dialog :=
  match py_index options i with
  | Some letter => Chosen letter
  | None => Failed
  end.

Definition on_event (selected : Z) (e : dialog_event) : dialog :=
  match e with
  | Quit => Closed
  | KeyDown K_RIGHT => Open ((selected + 1) mod 4)
  | KeyDown K_LEFT => Open ((selected - 1) mod 4)
  | KeyDown K_RETURN | KeyDown K_ESCAPE => choose selected
  | KeyDown K_OTHER => Open selected
  | MouseMotion x y => Open (hover rects 0 x y selected)
  | MouseButtonDown button x y =>
      if button =? 1 then
        match hit rects 0 x y with
        | Some i => choose i
        | None => Open selected
        end
      else Open selected
  | OtherEvent => Open selected
  end.

(** The dialog over the events of all its frames; [running] is never
    cleared, so only a [return] or [sys.exit()] ends it. *)
Fixpoint dialog_from (selected : Z) (es : list dialog_event) : dialog :=
  match es with
  | [] => Open selected
  | e :: rest =>
      match on_event selected e with
      | Open selected' => dialog_from selected' rest
      | d => d
      end
  end.

Definition promotion_dialog (es : list dialog_event) : dialog :=
  dialog_from 0 es.

(** ** Properties *)

Lemma hover_range rs : forall i x y selected,
  0 <= i -> i + Z.of_nat (List.length rs) <= 4 -> 0 <= selected < 4 ->
  0 <= hover rs i x y selected < 4.
Proof.
  induction rs as [|r rs IH]; intros i x y selected Hi Hn Hs; simpl in *.
  - exact Hs.
  - apply IH; try lia. destruct (collidepoint r x y); lia.
Qed.

Lemma hit_range rs : forall i x y k,
  0 <= i -> i + Z.of_nat (List.length rs) <= 4 ->
  hit rs i x y = Some k -> 0 <= k < 4.
Proof.
  induction rs as [|r rs IH]; intros i x y k Hi Hn; simpl in *.
  - discriminate.
  - destruct (collidepoint r x y).
    + intros [= <-]. lia.
    + apply IH; lia.
Qed.

Lemma choose_piece i :
  0 <= i < 4 ->
  exists letter p,
    choose i = Chosen letter /\ In letter options /\
    piece_symbols_index letter = Some p /\ 2 <= p <= 5.
Proof.
  intros Hi.
  assert (E : i = 0 \/ i = 1 \/ i = 2 \/ i = 3) by lia.
  destruct E as [-> |[-> |[-> | ->]]].
  - exists "q"%char, 5. cbv. repeat split; auto; discriminate.
  - exists "r"%char, 4. cbv. repeat split; auto; discriminate.
  - exists "b"%char, 3. cbv. repeat split; auto; discriminate.
  - exists "n"%char, 2. cbv. repeat split; auto 6; discriminate.
Qed.

Definition well_ended (d : dialog) : Prop :=
  match d with
  | Open selected => 0 <= selected < 4
  | Chosen letter =>
      In letter options /\
      exists p, piece_symbols_index letter = Some p /\ 2 <= p <= 5
  | Closed => True
  | Failed => False
  end.

Lemma on_event_ended selected e :
  0 <= selected < 4 -> well_ended (on_event selected e).
Proof.
  intros Hs.
  assert (Hch : forall i, 0 <= i < 4 -> well_ended (choose i)).
  { intros i Hi. destruct (choose_piece i Hi) as (l & p & -> & Hin & Hp & Hr).
    simpl. eauto. }
  destruct e as [|k|x y|button x y|]; cbn [on_event well_ended]; auto.
  - destruct k; cbn [well_ended]; auto; apply Z.mod_pos_bound; lia.
  - apply hover_range; [lia|simpl; lia|exact Hs].
  - destruct (button =? 1); [|exact Hs].
    destruct (hit rects 0 x y) as [i|] eqn:E; [|exact Hs].
    apply Hch. apply (hit_range rects 0 x y); [lia|simpl; lia|exact E].
Qed.

(** X16.  Whatever the events, the promotion dialog never indexes outside
    its list of options and the selection stays between 0 and 3; the only
    ways out are a choice and [sys.exit()]: there is no cancel, Escape
    confirms like Return.  The letter returned is one of q, r, b, n, so
    [chess.PIECE_SYMBOLS.index] finds it and the promotion piece is a
    knight, bishop, rook or queen (2..5), never a pawn or a king. *)
Theorem promotion_is_a_piece es :
  match promotion_dialog es with
  | Open selected => 0 <= selected < 4
  | Chosen letter =>
      In letter options /\
      exists p, piece_symbols_index letter = Some p /\ 2 <= p <= 5
  | Closed => True
  | Failed => False
  end.
Proof.
  unfold promotion_dialog.
  assert (Hgen : forall selected, 0 <= selected < 4 ->
                   well_ended (dialog_from selected es)).
  { induction es as [|e es IH]; intros selected Hs; simpl; [exact Hs|].
    pose proof (on_event_ended selected e Hs) as He.
    destruct (on_event selected e); auto. }
  apply (Hgen 0). lia.
Qed.

Lemma hit_cell i dx dy :
  0 <= i < 4 -> 0 <= dx < icon -> 0 <= dy < icon ->
  hit rects 0 (start_x + i * (icon + gap) + dx) (top_y + dy) = Some i.
Proof.
  intros Hi Hdx Hdy.
  change icon with 72 in *. change gap with 16. change start_x with 152.
  change top_y with 284.
  assert (E : i = 0 \/ i = 1 \/ i = 2 \/ i = 3) by lia.
  unfold rects, hit, collidepoint; simpl map; cbn [left top width height].
  change icon with 72. change gap with 16. change start_x with 152.
  change top_y with 284.
  destruct E as [-> |[-> |[-> | ->]]];
    repeat match goal with
           | |- context [?a <=? ?b] =>
               first [ replace (a <=? b) with true by (symmetry; apply Z.leb_le; lia)
                     | replace (a <=? b) with false by (symmetry; apply Z.leb_gt; lia) ]
           | |- context [?a <? ?b] =>
               first [ replace (a <? b) with true by (symmetry; apply Z.ltb_lt; lia)
                     | replace (a <? b) with false by (symmetry; apply Z.ltb_ge; lia) ]
           end; reflexivity.
Qed.

(** X17.  The four pieces are offered from left to right as queen, rook,
    bishop, knight in cells of 72 by 72 pixels, the first at (152, 284)
    and 88 pixels apart.  A left click anywhere inside the cell number
    [i] ends the dialog with the letter [options[i]], whatever is
    selected at that moment; a click with another button changes
    nothing. *)
Theorem click_takes_the_piece_under_it selected i dx dy rest :
  0 <= i < 4 -> 0 <= dx < 72 -> 0 <= dy < 72 ->
  dialog_from selected (MouseButtonDown 1 (152 + 88 * i + dx) (284 + dy) :: rest)
    = match py_index options i with
      | Some letter => Chosen letter
      | None => Failed
      end /\
  py_index options i = nth_error options (Z.to_nat i) /\
  forall button, button <> 1 ->
    dialog_from selected
      (MouseButtonDown button (152 + 88 * i + dx) (284 + dy) :: rest)
    = dialog_from selected rest.
Proof.
  intros Hi Hdx Hdy.
  pose proof (hit_cell i dx dy Hi Hdx Hdy) as Hhit.
  change icon with 72 in Hhit. change gap with 16 in Hhit.
  change start_x with 152 in Hhit. change top_y with 284 in Hhit.
  replace (152 + i * (72 + 16) + dx) with (152 + 88 * i + dx) in Hhit by lia.
  split; [|split].
  - cbn [dialog_from on_event]. change (1 =? 1) with true. cbv iota.
    rewrite Hhit. unfold choose.
    destruct (choose_piece i Hi) as (l & p & E & _). unfold choose in E.
    destruct (py_index options i); [reflexivity|discriminate].
  - unfold py_index. simpl List.length.
    replace ((0 <=? i) && (i <? Z.of_nat 4)) with true; [reflexivity|].
    symmetry. rewrite andb_true_iff, Z.leb_le, Z.ltb_lt. lia.
  - intros button Hb. cbn [dialog_from on_event].
    replace (button =? 1) with false by (symmetry; apply Z.eqb_neq; exact Hb).
    reflexivity.
Qed.

Lemma click_takes_witness :
  dialog_from 0 [MouseButtonDown 1 (152 + 88 * 3 + 71) (284 + 0)]
    = match py_index options 3 with
      | Some letter => Chosen letter
      | None => Failed
      end /\
  py_index options 3 = nth_error options (Z.to_nat 3) /\
  forall button, button <> 1 ->
    dialog_from 0 [MouseButtonDown button (152 + 88 * 3 + 71) (284 + 0)]
    = dialog_from 0 [].
Proof.
  apply (click_takes_the_piece_under_it 0 3 71 0 []); lia.
Defined.

End Promotion.


(* ===================================================================== *)
(** * [splash_screen] *)
(* ===================================================================== *)

Module Splash.

Local Open Scope Z_scope.

(** A Python [str] is a sequence of Unicode code points. *)
Definition pystr : Type := list Z.

Definition dot : Z := 46.                       (* '.' *)
Definition text_10 : pystr := [49; 48].         (* "10" *)
Definition text_5050 : pystr := [53; 48; 53; 48].   (* "5050" *)
Definition localhost : pystr :=
  [49; 50; 55; 46; 48; 46; 48; 46; 49].         (* '127.0.0.1' *)

Inductive field : Type := FWhite | FBlack | FIp | FPort.
Inductive net_mode : Type := Solo | Host | Join.

(** The local variables of the screen. *)
Record splash : Type := mkSplash {
  white_input_text : pystr;
  black_input_text : pystr;
  ip_text : pystr;
  port_text : pystr;
  mode : net_mode;
  input_active : option field;
  running : bool
}.

Definition splash_init : splash :=
  mkSplash text_10 text_10 [] text_5050 Solo None true.

(** A mouse click, as the screen looks at it: which rectangles hold the
    pointer. *)
Record click : Type := mkClick {
  in_white : bool;         (* WHITE_INPUT_RECT *)
  in_black : bool;         (* BLACK_INPUT_RECT *)
  in_solo : bool;          (* SOLO_BTN *)
  in_host : bool;          (* HOST_BTN *)
  in_join : bool;          (* JOIN_BTN *)
  in_ip : bool;            (* IP_RECT *)
  in_port : bool;          (* PORT_RECT *)
  in_start : bool          (* start_btn *)
}.

Inductive key : Type := K_BACKSPACE | K_RETURN | K_OTHER.

Inductive splash_event : Type :=
| Quit                                     (* pygame.QUIT *)
| MouseButtonDown (c : click)
| KeyDown (k : key) (unicode : pystr)
| OtherEvent.

(** [net_cfg]: ['mode'], and ['port'] and ['ip'] when they are set. *)
Record net_cfg : Type := mkCfg {
  cfg_mode : net_mode;
  cfg_port : option Z;
  cfg_ip : option pystr
}.

Inductive splash_outcome : Type :=
| Started (w_time_sec b_time_sec : Z) (cfg : net_cfg)    (* return ... *)
| SysExit                                                (* sys.exit() *)
| StillOpen (st : splash).                               (* no more input *)

Section Splash.

(** What Python knows about characters. *)
Variable is_digit_char : Z -> bool.           (* c.isdigit() *)
Variable decimal_value : Z -> option Z.       (* the digit int() reads in c *)
Variable is_space : Z -> bool.                (* c.isspace() *)
(** [sys.get_int_max_str_digits()]; [None] when there is no limit. *)
Variable max_str_digits : option nat.

Hypothesis decimal_is_digit : forall c v,
  decimal_value c = Some v -> is_digit_char c = true /\ 0 <= v <= 9.
Hypothesis digit_not_space : forall c,
  is_digit_char c = true -> is_space c = false.
Hypothesis dot_not_space : is_space dot = false.
Hypothesis ascii_digits : forall c,
  48 <= c <= 57 -> decimal_value c = Some (c - 48).

(** [s.isdigit()] *)
Definition isdigit (s : pystr) : bool :=
  match s with
  | [] => false
  | _ :: _ => forallb is_digit_char s
  end.

Fixpoint digits_value (acc : Z) (s : pystr) : option Z :=
  match s with
  | [] => Some acc
  | c :: r =>
      match decimal_value c with
      | Some v => digits_value (acc * 10 + v) r
      | None => None
      end
  end.

Definition too_long (s : pystr) : bool :=
  match max_str_digits with
  | Some n => (n <? List.length s)%nat
  | None => false
  end.

(** [int(s)] for a text of digit characters, the only texts the screen
    passes to it: the value when every character is a decimal digit and
    the text is not too long, [ValueError] otherwise. *)
Definition py_int (s : pystr) : res Z :=
  match s with
  | [] => Raise ValueError
  | _ :: _ =>
      if too_long s then Raise ValueError
      else match digits_value 0 s with
           | Some v => Ok v
           | None => Raise ValueError
           end
  end.

Fixpoint lstrip (s : pystr) : pystr :=
  match s with
  | [] => []
  | c :: r => if is_space c then lstrip r else s
  end.

(** [s.strip()] *)
Definition strip (s : pystr) : pystr := rev (lstrip (rev (lstrip s))).

(** [net_mode != 'join' or ip_text.strip()] *)
Definition can_start (st : splash) : bool :=
  match mode st with
  | Join => match strip (ip_text st) with [] => false | _ :: _ => true end
  | _ => true
  end.

Definition set_active (st : splash) (a : option field) : splash :=
  mkSplash (white_input_text st) (black_input_text st) (ip_text st)
    (port_text st) (mode st) a (running st).

Definition set_mode (st : splash) (m : net_mode) (a : option field) : splash :=
  mkSplash (white_input_text st) (black_input_text st) (ip_text st)
    (port_text st) m a (running st).

Definition stop_if_allowed (st : splash) : splash :=
  if can_start st
  then mkSplash (white_input_text st) (black_input_text st) (ip_text st)
         (port_text st) (mode st) (input_active st) false
  else st.

Definition networked (m : net_mode) : bool :=
  match m with Solo => false | _ => true end.

(** The [if ... elif ...] chain of a mouse click. *)
Definition on_mouse (st : splash) (c : click) : splash :=
  if in_white c then set_active st (Some FWhite)
  else if in_black c then set_active st (Some FBlack)
  else if in_solo c then set_mode st Solo None
  else if in_host c then set_mode st Host (Some FPort)
  else if in_join c then set_mode st Join (Some FIp)
  else if networked (mode st) && in_ip c then set_active st (Some FIp)
  else if networked (mode st) && in_port c then set_active st (Some FPort)
  else if in_start c then stop_if_allowed st
  else set_active st None.

Definition get_text (st : splash) (f : field) : pystr :=
  match f with
  | FWhite => white_input_text st
  | FBlack => black_input_text st
  | FIp => ip_text st
  | FPort => port_text st
  end.

Definition set_text (st : splash) (f : field) (t : pystr) : splash :=
  match f with
  | FWhite => mkSplash t (black_input_text st) (ip_text st) (port_text st)
                (mode st) (input_active st) (running st)
  | FBlack => mkSplash (white_input_text st) t (ip_text st) (port_text st)
                (mode st) (input_active st) (running st)
  | FIp => mkSplash (white_input_text st) (black_input_text st) t (port_text st)
             (mode st) (input_active st) (running st)
  | FPort => mkSplash (white_input_text st) (black_input_text st) (ip_text st) t
               (mode st) (input_active st) (running st)
  end.

(** [event.unicode == '.'] *)
Definition is_dot (u : pystr) : bool :=
  match u with
  | [c] => c =? dot
  | _ => false
  end.

(** The body of [if event.type == pygame.KEYDOWN and input_active:] for
    the active field [f]. *)
Definition on_key (st : splash) (f : field) (k : key) (unicode : pystr) : splash :=
  let st1 :=
    match k with
    | K_BACKSPACE => set_text st f (removelast (get_text st f))
    | _ =>
        match f with
        | FIp =>
            if isdigit unicode || is_dot unicode
            then set_text st f (get_text st f ++ unicode) else st
        | _ =>
            if isdigit unicode
            then set_text st f (get_text st f ++ unicode) else st
        end
    end in
  match k with
  | K_RETURN => stop_if_allowed st1
  | _ => st1
  end.

(** One event of [for event in pygame.event.get():]; [None] is
    [sys.exit()]. *)
Definition on_event (st : splash) (e : splash_event) : option splash :=
  match e with
  | Quit => None
  | MouseButtonDown c => Some (on_mouse st c)
  | KeyDown k unicode =>
      match input_active st with
      | Some f => Some (on_key st f k unicode)
      | None => Some st
      end
  | OtherEvent => Some st
  end.

(** All the events of one frame: the loop over them does not look at
    [running]. *)
Fixpoint frame (st : splash) (es : list splash_event) : option splash :=
  match es with
  | [] => Some st
  | e :: rest =>
      match on_event st e with
      | Some st' => frame st' rest
      | None => None
      end
  end.

(** The statements after the loop. *)
Definition finish (st : splash) : res splash_outcome :=
  bind (if isdigit (white_input_text st) then py_int (white_input_text st)
        else Ok 10) (fun w_time =>
  bind (if isdigit (black_input_text st) then py_int (black_input_text st)
        else Ok 10) (fun b_time =>
  let port :=
    match (if isdigit (port_text st) then py_int (port_text st) else Ok 5050) with
    | Ok p => p
    | Raise _ => 5050                   (* except Exception *)
    end in
  Ok (Started (w_time * 60) (b_time * 60)
        (mkCfg (mode st)
           (if networked (mode st) then Some port else None)
           (match mode st with Join => Some (strip (ip_text st)) | _ => None end))))).

(** [while running:] over the events of successive frames. *)
Fixpoint splash_loop (st : splash) (frames : list (list splash_event))
  : res splash_outcome :=
  if running st then
    match frames with
    | [] => Ok (StillOpen st)
    | es :: rest =>
        match frame st es with
        | Some st' => splash_loop st' rest
        | None => Ok SysExit
        end
    end
  else finish st.

Definition splash_screen (frames : list (list splash_event)) : res splash_outcome :=
  splash_loop splash_init frames.

(** [net_cfg.get('ip') or '127.0.0.1'] in [main_game]. *)
Definition server_ip (cfg : net_cfg) : pystr :=
  match cfg_ip cfg with
  | Some (c :: r) => c :: r
  | _ => localhost
  end.

(** ** What the fields can hold *)

Definition digits (s : pystr) : Prop :=
  Forall (fun c => is_digit_char c = true) s.

Definition digits_and_dots (s : pystr) : Prop :=
  Forall (fun c => is_digit_char c = true \/ c = dot) s.

Definition clean (st : splash) : Prop :=
  digits (white_input_text st) /\ digits (black_input_text st) /\
  digits (port_text st) /\ digits_and_dots (ip_text st).

Lemma isdigit_digits u : isdigit u = true -> digits u.
Proof.
  destruct u as [|c u]; [discriminate|]. unfold isdigit, digits.
  intros Hu. apply Forall_forall. intros x Hx.
  rewrite forallb_forall in Hu. now apply Hu.
Qed.

Lemma digits_isdigit u : digits u -> u <> [] -> isdigit u = true.
Proof.
  intros Hu Hne. destruct u as [|c u]; [congruence|].
  unfold isdigit. apply forallb_forall. intros x Hx.
  unfold digits in Hu. rewrite Forall_forall in Hu. now apply Hu.
Qed.

Lemma is_dot_dot u : is_dot u = true -> u = [dot].
Proof.
  destruct u as [|c [|d u]]; try discriminate. simpl.
  intros E. apply Z.eqb_eq in E. now subst.
Qed.

Lemma Forall_removelast {A} (P : A -> Prop) (l : list A) :
  Forall P l -> Forall P (removelast l).
Proof.
  induction 1 as [|x l Hx Hl IH]; simpl; [constructor|].
  destruct l; [constructor|]. constructor; assumption.
Qed.

Lemma digits_weaken s : digits s -> digits_and_dots s.
Proof. apply Forall_impl. auto. Qed.

Lemma ascii_digit c : 48 <= c <= 57 -> is_digit_char c = true.
Proof. intros Hc. exact (proj1 (decimal_is_digit c _ (ascii_digits c Hc))). Qed.

Lemma clean_init : clean splash_init.
Proof.
  unfold clean, splash_init, digits, digits_and_dots, text_10, text_5050; simpl.
  repeat split; repeat constructor; apply ascii_digit; lia.
Qed.

Lemma clean_stop st : clean st -> clean (stop_if_allowed st).
Proof. unfold stop_if_allowed. destruct (can_start st); auto. Qed.

Lemma clean_on_mouse st c : clean st -> clean (on_mouse st c).
Proof.
  intros Hc. unfold on_mouse.
  repeat match goal with
         | |- clean (if ?b then _ else _) => destruct b
         end; try exact Hc.
  now apply clean_stop.
Qed.

Lemma clean_set_text st f t :
  clean st ->
  match f with FIp => digits_and_dots t | _ => digits t end ->
  clean (set_text st f t).
Proof.
  intros (Hw & Hb & Hp & Hi) Ht. unfold clean.
  destruct f; simpl; auto.
Qed.

Lemma clean_get_text st f :
  clean st -> match f with FIp => digits_and_dots (get_text st f)
              | _ => digits (get_text st f) end.
Proof. intros (Hw & Hb & Hp & Hi). destruct f; simpl; auto. Qed.

Lemma clean_on_key st f k u : clean st -> clean (on_key st f k u).
Proof.
  intros Hc. unfold on_key.
  assert (Hdel : clean (set_text st f (removelast (get_text st f)))).
  { apply clean_set_text; [exact Hc|].
    pose proof (clean_get_text st f Hc) as Hg.
    destruct f; now apply Forall_removelast. }
  assert (Hadd : clean (match f with
                        | FIp => if isdigit u || is_dot u
                                 then set_text st f (get_text st f ++ u) else st
                        | _ => if isdigit u
                               then set_text st f (get_text st f ++ u) else st
                        end)).
  { pose proof (clean_get_text st f Hc) as Hg.
    destruct f.
    - destruct (isdigit u) eqn:E; [|exact Hc].
      apply clean_set_text; [exact Hc|].
      apply Forall_app. split; [exact Hg|now apply isdigit_digits].
    - destruct (isdigit u) eqn:E; [|exact Hc].
      apply clean_set_text; [exact Hc|].
      apply Forall_app. split; [exact Hg|now apply isdigit_digits].
    - destruct (isdigit u) eqn:E; cbn [orb].
      + apply clean_set_text; [exact Hc|].
        apply Forall_app. split; [exact Hg|].
        now apply digits_weaken, isdigit_digits.
      + destruct (is_dot u) eqn:E'; [|exact Hc].
        apply clean_set_text; [exact Hc|].
        apply Forall_app. split; [exact Hg|].
        rewrite (is_dot_dot u E'). constructor; [now right|constructor].
    - destruct (isdigit u) eqn:E; [|exact Hc].
      apply clean_set_text; [exact Hc|].
      apply Forall_app. split; [exact Hg|now apply isdigit_digits]. }
  destruct k; try exact Hdel; try exact Hadd.
  now apply clean_stop.
Qed.

Lemma clean_on_event st e st' :
  clean st -> on_event st e = Some st' -> clean st'.
Proof.
  intros Hc. destruct e as [|c|k u|]; simpl; try discriminate.
  - intros [= <-]. now apply clean_on_mouse.
  - destruct (input_active st) as [f|]; intros [= <-];
      [now apply clean_on_key|exact Hc].
  - intros [= <-]. exact Hc.
Qed.

Lemma clean_frame es : forall st st',
  clean st -> frame st es = Some st' -> clean st'.
Proof.
  induction es as [|e es IH]; intros st st' Hc; simpl.
  - now intros [= <-].
  - destruct (on_event st e) as [st1|] eqn:E; [|discriminate].
    apply IH. eapply clean_on_event; eauto.
Qed.

Lemma digits_value_nonneg s : forall acc v,
  0 <= acc -> digits_value acc s = Some v -> 0 <= v.
Proof.
  induction s as [|c s IH]; intros acc v Hacc; simpl.
  - intros [= <-]. exact Hacc.
  - destruct (decimal_value c) as [d|] eqn:E; [|discriminate].
    destruct (decimal_is_digit c d E) as [_ Hd].
    apply IH. lia.
Qed.

Lemma py_int_nonneg s v : py_int s = Ok v -> 0 <= v.
Proof.
  unfold py_int. destruct s as [|c s]; [discriminate|].
  destruct (too_long (c :: s)); [discriminate|].
  destruct (digits_value 0 (c :: s)) as [x|] eqn:E; [|discriminate].
  intros [= <-]. eapply digits_value_nonneg; [|exact E]. lia.
Qed.

Lemma py_int_value_error s e : py_int s = Raise e -> e = ValueError.
Proof.
  unfold py_int. destruct s as [|c s]; [now intros [= <-]|].
  destruct (too_long (c :: s)); [now intros [= <-]|].
  destruct (digits_value 0 (c :: s)); [discriminate|now intros [= <-]].
Qed.

Lemma lstrip_id s :
  Forall (fun c => is_space c = false) s -> lstrip s = s.
Proof.
  destruct s as [|c s]; [reflexivity|]. intros Hs. simpl.
  inversion Hs; subst. now rewrite H1.
Qed.

Lemma strip_id s : digits_and_dots s -> strip s = s.
Proof.
  intros Hs.
  assert (Hn : Forall (fun c => is_space c = false) s).
  { eapply Forall_impl; [|exact Hs]. simpl.
    intros c [Hc| ->]; [now apply digit_not_space|exact dot_not_space]. }
  unfold strip. rewrite (lstrip_id s Hn).
  rewrite lstrip_id; [apply rev_involutive|].
  apply Forall_rev. exact Hn.
Qed.

Definition minutes_ok (w b : Z) : Prop :=
  exists mw mb, 0 <= mw /\ 0 <= mb /\ w = mw * 60 /\ b = mb * 60.

Definition cfg_ok (cfg : net_cfg) : Prop :=
  match cfg_mode cfg with
  | Solo => cfg_port cfg = None /\ cfg_ip cfg = None
  | Host => (exists p, cfg_port cfg = Some p /\ 0 <= p) /\ cfg_ip cfg = None
  | Join => (exists p, cfg_port cfg = Some p /\ 0 <= p) /\
            exists a, cfg_ip cfg = Some a /\ digits_and_dots a
  end.

Lemma finish_ok st w b cfg :
  clean st -> finish st = Ok (Started w b cfg) ->
  minutes_ok w b /\ cfg_ok cfg /\ cfg_mode cfg = mode st /\
  (mode st = Join -> cfg_ip cfg = Some (ip_text st)).
Proof.
  intros (Hw & Hb & Hp & Hi). unfold finish.
  destruct (if isdigit (white_input_text st) then py_int (white_input_text st)
            else Ok 10) as [wt|] eqn:Ew; simpl; [|discriminate].
  destruct (if isdigit (black_input_text st) then py_int (black_input_text st)
            else Ok 10) as [bt|] eqn:Eb; simpl; [|discriminate].
  intros [= <- <- <-].
  assert (Hwt : 0 <= wt).
  { destruct (isdigit (white_input_text st));
      [now apply py_int_nonneg in Ew|inversion Ew; lia]. }
  assert (Hbt : 0 <= bt).
  { destruct (isdigit (black_input_text st));
      [now apply py_int_nonneg in Eb|inversion Eb; lia]. }
  split; [exists wt, bt; auto|].
  assert (Hport : 0 <= match (if isdigit (port_text st)
                              then py_int (port_text st) else Ok 5050) with
                       | Ok p => p
                       | Raise _ => 5050
                       end).
  { destruct (isdigit (port_text st)); [|lia].
    destruct (py_int (port_text st)) as [p|] eqn:E; [|lia].
    now apply py_int_nonneg in E. }
  rewrite (strip_id _ Hi).
  split; [|split; [reflexivity|intros ->; reflexivity]].
  unfold cfg_ok. simpl. destruct (mode st); simpl.
  - auto.
  - split; [eexists; split; [reflexivity|exact Hport]|reflexivity].
  - split; [eexists; split; [reflexivity|exact Hport]|].
    eexists; split; [reflexivity|exact Hi].
Qed.

Lemma splash_loop_ok frames : forall st w b cfg,
  clean st -> splash_loop st frames = Ok (Started w b cfg) ->
  minutes_ok w b /\ cfg_ok cfg.
Proof.
  induction frames as [|es rest IH]; intros st w b cfg Hc; simpl.
  - destruct (running st); [discriminate|].
    intros E. destruct (finish_ok _ _ _ _ Hc E) as (Hm & Hk & _). auto.
  - destruct (running st).
    + destruct (frame st es) as [st'|] eqn:E; [|discriminate].
      apply IH. eapply clean_frame; eauto.
    + intros E. destruct (finish_ok _ _ _ _ Hc E) as (Hm & Hk & _). auto.
Qed.

(** X18.  The fields take digit characters only (the address also dots),
    whatever is typed, so what the screen returns is well formed: both
    times are whole minutes, 60 times a number that is not negative; solo
    has neither port nor address; host and join have a port that is not
    negative; join has an address made of digit characters and dots, and
    host has none. *)
Theorem splash_returns_whole_minutes frames w b cfg :
  splash_screen frames = Ok (Started w b cfg) ->
  (exists mw mb, 0 <= mw /\ 0 <= mb /\ w = mw * 60 /\ b = mb * 60) /\
  match cfg_mode cfg with
  | Solo => cfg_port cfg = None /\ cfg_ip cfg = None
  | Host => (exists p, cfg_port cfg = Some p /\ 0 <= p) /\ cfg_ip cfg = None
  | Join => (exists p, cfg_port cfg = Some p /\ 0 <= p) /\
            exists a, cfg_ip cfg = Some a /\
              Forall (fun c => is_digit_char c = true \/ c = dot) a
  end.
Proof.
  intros Hrun.
  exact (splash_loop_ok frames splash_init w b cfg clean_init Hrun).
Qed.

(** ** Starting a joined game *)

Lemma stop_if_allowed_stops st :
  running st = true -> running (stop_if_allowed st) = false ->
  can_start st = true /\
  mode (stop_if_allowed st) = mode st /\
  ip_text (stop_if_allowed st) = ip_text st.
Proof.
  unfold stop_if_allowed. destruct (can_start st); simpl; [auto|congruence].
Qed.

Lemma on_event_stops st e st' :
  running st = true -> on_event st e = Some st' -> running st' = false ->
  can_start st' = true.
Proof.
  intros Hr He Hstop.
  assert (Hcan : forall s, running s = true ->
                   running (stop_if_allowed s) = false ->
                   can_start (stop_if_allowed s) = true).
  { intros s Hs Hs'. destruct (stop_if_allowed_stops s Hs Hs') as (Hc & Hm & Hi).
    unfold can_start in *. now rewrite Hm, Hi. }
  destruct e as [|c|k u|]; simpl in He; try discriminate.
  - inversion He; subst st'; clear He. unfold on_mouse in *.
    repeat match goal with
           | H : running (if ?b then _ else _) = false |- _ => destruct b
           end; simpl in Hstop; try congruence.
    now apply Hcan.
  - destruct (input_active st) as [f|]; inversion He; subst st'; [|congruence].
    unfold on_key in *.
    destruct k.
    + destruct f; simpl in Hstop; congruence.
    + apply Hcan; [|exact Hstop].
      destruct f; simpl;
        repeat match goal with
               | |- running (if ?b then _ else _) = true => destruct b
               end; simpl; assumption.
    + destruct f; simpl in Hstop;
        repeat match goal with
               | H : running (if ?b then _ else _) = false |- _ => destruct b
               end; simpl in Hstop; congruence.
  - inversion He; subst st'. congruence.
Qed.

(** X19.  "Require IP for Join": when the event that clears [running] is
    the last one handled before the loop test, a joined game is started
    with an address that is not empty, and [main_game] connects to that
    address and not to its fallback 127.0.0.1. *)
Theorem join_starts_with_an_address st e st' w b cfg :
  clean st ->
  running st = true ->
  on_event st e = Some st' ->
  running st' = false ->
  finish st' = Ok (Started w b cfg) ->
  cfg_mode cfg = Join ->
  exists a, cfg_ip cfg = Some a /\ a <> [] /\ server_ip cfg = a.
Proof.
  intros Hc Hr He Hstop Hfin Hjoin.
  pose proof (clean_on_event _ _ _ Hc He) as Hc'.
  pose proof (on_event_stops _ _ _ Hr He Hstop) as Hcan.
  destruct (finish_ok _ _ _ _ Hc' Hfin) as (_ & _ & Hm & Hip).
  rewrite Hjoin in Hm. symmetry in Hm.
  unfold can_start in Hcan. rewrite Hm in Hcan.
  destruct Hc' as (_ & _ & _ & Hi). rewrite (strip_id _ Hi) in Hcan.
  exists (ip_text st'). split; [now apply Hip|].
  unfold server_ip. rewrite (Hip Hm).
  destruct (ip_text st'); [discriminate|]. split; [discriminate|reflexivity].
Qed.

Definition start_click : click :=
  mkClick false false false false false false false true.

Definition join_click : click :=
  mkClick false false false false true false false false.

(** X20.  The test is made when Start is pressed, not when the loop ends:
    the events that follow in the same frame are still handled.  A click
    on Start in solo or host mode followed in the same frame by a click on
    Join starts a joined game with whatever the address field holds; with
    an empty field the address is the empty string and [main_game]
    connects to 127.0.0.1. *)
Theorem join_after_start_skips_the_test st later w b cfg :
  running st = true ->
  mode st <> Join ->
  ip_text st = [] ->
  finish st = Ok (Started w b cfg) ->
  exists port,
    splash_loop st
      ([MouseButtonDown start_click; MouseButtonDown join_click] :: later)
    = Ok (Started w b (mkCfg Join (Some port) (Some []))) /\
    server_ip (mkCfg Join (Some port) (Some [])) = localhost.
Proof.
  intros Hr Hm Hip Hfin.
  assert (Hcan : can_start st = true)
    by (unfold can_start; destruct (mode st); congruence).
  exists (match (if isdigit (port_text st) then py_int (port_text st)
                 else Ok 5050) with
          | Ok p => p
          | Raise _ => 5050
          end).
  split; [|reflexivity].
  assert (Hloop : forall st1, running st1 = false ->
                    splash_loop st1 later = finish st1)
    by (intros st1 H1; destruct later; simpl; now rewrite H1).
  cbn [splash_loop]. rewrite Hr.
  cbn [frame on_event on_mouse start_click join_click in_white in_black
       in_solo in_host in_join in_ip in_port in_start].
  rewrite andb_false_r. cbn [andb].
  unfold stop_if_allowed. rewrite Hcan.
  rewrite Hloop by reflexivity.
  unfold finish in *. cbn [set_mode white_input_text black_input_text port_text
                           ip_text mode networked] in *.
  rewrite Hip.
  destruct (if isdigit (white_input_text st)
            then py_int (white_input_text st) else Ok 10) as [wt|];
    simpl in *; [|discriminate].
  destruct (if isdigit (black_input_text st)
            then py_int (black_input_text st) else Ok 10) as [bt|];
    simpl in *; [|discriminate].
  inversion Hfin; subst. reflexivity.
Qed.

(** ** The Return key *)

Definition is_key_event (e : splash_event) : bool :=
  match e with
  | KeyDown _ _ | OtherEvent => true
  | Quit | MouseButtonDown _ => false
  end.

Lemma frame_keys_idle st es :
  input_active st = None ->
  forallb is_key_event es = true ->
  frame st es = Some st.
Proof.
  intros Ha. induction es as [|e es IH]; simpl; [reflexivity|].
  intros Hes. apply andb_true_iff in Hes as [He Hes].
  destruct e; try discriminate; simpl; rewrite ?Ha; now apply IH.
Qed.

(** X21.  Keys count only while a field is active.  As long as no field
    has been clicked (the state the screen opens in) the keyboard does
    nothing at all: Return does not start the game and nothing typed
    reaches a field, for any number of frames. *)
Theorem keys_need_an_active_field st frames :
  input_active st = None ->
  running st = true ->
  forallb (forallb is_key_event) frames = true ->
  splash_loop st frames = Ok (StillOpen st).
Proof.
  intros Ha Hr. induction frames as [|es rest IH]; simpl; rewrite Hr.
  - reflexivity.
  - intros Hall. apply andb_true_iff in Hall as [Hes Hrest].
    rewrite (frame_keys_idle st es Ha Hes). now apply IH.
Qed.

(** ** Digits that [int] does not read *)

Lemma digits_value_bad s c : forall acc,
  decimal_value c = None -> digits_value acc (s ++ [c]) = None.
Proof.
  induction s as [|d s IH]; intros acc Hc; simpl.
  - now rewrite Hc.
  - destruct (decimal_value d); [now apply IH|reflexivity].
Qed.

Lemma py_int_bad s c :
  decimal_value c = None -> py_int (s ++ [c]) = Raise ValueError.
Proof.
  intros Hc. unfold py_int.
  destruct (s ++ [c]) as [|x l] eqn:E; [reflexivity|].
  destruct (too_long (x :: l)); [reflexivity|].
  rewrite <- E, (digits_value_bad s c 0 Hc). reflexivity.
Qed.

Lemma isdigit_snoc s c :
  digits s -> is_digit_char c = true -> isdigit (s ++ [c]) = true.
Proof.
  intros Hs Hc. apply digits_isdigit.
  - apply Forall_app. split; [exact Hs|]. constructor; [exact Hc|constructor].
  - destruct s; discriminate.
Qed.

(** X22.  [str.isdigit] accepts characters that [int] does not read (a
    superscript two, say).  In a state from which Start would succeed,
    typing one such character into a time field and pressing Return makes
    the screen raise [ValueError]: the conversion of the times is not
    guarded.  Typed into the port field the same character is harmless:
    the conversion of the port is guarded and the port becomes 5050. *)
Theorem undecimal_digit_in_a_field st f c u later w b cfg :
  clean st ->
  running st = true ->
  can_start st = true ->
  finish st = Ok (Started w b cfg) ->
  input_active st = Some f ->
  f <> FIp ->
  is_digit_char c = true ->
  decimal_value c = None ->
  isdigit u = false ->
  splash_loop st ([KeyDown K_OTHER [c]; KeyDown K_RETURN u] :: later) =
    match f with
    | FWhite | FBlack => Raise ValueError
    | _ =>
        Ok (Started w b
              (mkCfg (cfg_mode cfg)
                 (if networked (mode st) then Some 5050 else None)
                 (cfg_ip cfg)))
    end.
Proof.
  intros Hc Hr Hcan Hfin Ha Hf Hd Hbad Hu.
  assert (Hone : isdigit [c] = true) by (simpl; now rewrite Hd).
  destruct Hc as (Hw & Hb & Hp & Hi).
  assert (Hloop : forall st1, running st1 = false ->
                    splash_loop st1 later = finish st1)
    by (intros st1 H1; destruct later; simpl; now rewrite H1).
  set (st1 := set_text st f (get_text st f ++ [c])).
  assert (E1 : on_event st (KeyDown K_OTHER [c]) = Some st1).
  { unfold on_event. rewrite Ha. unfold on_key, st1.
    destruct f; rewrite Hone; reflexivity. }
  assert (Ha1 : input_active st1 = Some f) by (unfold st1; destruct f; exact Ha).
  assert (E2 : on_event st1 (KeyDown K_RETURN u) = Some (stop_if_allowed st1)).
  { unfold on_event. rewrite Ha1. unfold on_key.
    destruct f; try congruence; rewrite Hu; reflexivity. }
  assert (Hcan1 : can_start st1 = true)
    by (unfold st1; destruct f; try congruence; exact Hcan).
  assert (Hrun : splash_loop st
                   ([KeyDown K_OTHER [c]; KeyDown K_RETURN u] :: later)
                 = finish (stop_if_allowed st1)).
  { cbn [splash_loop]. rewrite Hr. cbn [frame]. rewrite E1, E2.
    apply Hloop. unfold stop_if_allowed. now rewrite Hcan1. }
  rewrite Hrun. unfold stop_if_allowed. rewrite Hcan1, ?Hcan.
  unfold finish in *. unfold st1.
  destruct f; cbn [set_text get_text white_input_text black_input_text
                   port_text ip_text mode] in *.
  - rewrite (isdigit_snoc _ _ Hw Hd), (py_int_bad _ _ Hbad). reflexivity.
  - destruct (if isdigit (white_input_text st)
              then py_int (white_input_text st) else Ok 10) as [wt|e] eqn:Ew;
      simpl in *; [|discriminate].
    rewrite (isdigit_snoc _ _ Hb Hd), (py_int_bad _ _ Hbad). reflexivity.
  - congruence.
  - destruct (if isdigit (white_input_text st)
              then py_int (white_input_text st) else Ok 10) as [wt|e] eqn:Ew;
      simpl in *; [|discriminate].
    destruct (if isdigit (black_input_text st)
              then py_int (black_input_text st) else Ok 10) as [bt|e] eqn:Eb;
      simpl in *; [|discriminate].
    rewrite (isdigit_snoc _ _ Hp Hd), (py_int_bad _ _ Hbad).
    inversion Hfin; subst. reflexivity.
Qed.

End Splash.

(** ** The theorems at work, for the characters below 256 *)

(** The digit characters: 0 to 9 and the superscripts two, three, one. *)
Definition latin1_is_digit (c : Z) : bool :=
  ((48 <=? c) && (c <=? 57)) || (c =? 178) || (c =? 179) || (c =? 185).

Definition latin1_decimal (c : Z) : option Z :=
  if (48 <=? c) && (c <=? 57) then Some (c - 48) else None.

Definition latin1_is_space (c : Z) : bool :=
  ((9 <=? c) && (c <=? 13)) || ((28 <=? c) && (c <=? 32)) ||
  (c =? 133) || (c =? 160).

Definition default_limit : option nat := Some 4300%nat.

Lemma latin1_decimal_is_digit c v :
  latin1_decimal c = Some v -> latin1_is_digit c = true /\ 0 <= v <= 9.
Proof.
  unfold latin1_decimal, latin1_is_digit.
  destruct ((48 <=? c) && (c <=? 57)) eqn:E; [|discriminate].
  intros [= <-]. split; [reflexivity|].
  apply andb_true_iff in E as [E1 E2].
  apply Z.leb_le in E1. apply Z.leb_le in E2. lia.
Qed.

Lemma latin1_digit_not_space c :
  latin1_is_digit c = true -> latin1_is_space c = false.
Proof.
  unfold latin1_is_digit, latin1_is_space. intros Hd.
  repeat rewrite orb_true_iff in Hd. rewrite andb_true_iff in Hd.
  repeat rewrite Z.leb_le in Hd. repeat rewrite Z.eqb_eq in Hd.
  repeat rewrite orb_false_iff. repeat rewrite andb_false_iff.
  repeat rewrite Z.leb_gt. repeat rewrite Z.eqb_neq. lia.
Qed.

Lemma latin1_dot_not_space : latin1_is_space dot = false.
Proof. reflexivity. Qed.

Lemma latin1_ascii_digits c :
  48 <= c <= 57 -> latin1_decimal c = Some (c - 48).
Proof.
  intros Hc. unfold latin1_decimal.
  replace ((48 <=? c) && (c <=? 57)) with true; [reflexivity|].
  symmetry. rewrite andb_true_iff, !Z.leb_le. lia.
Qed.

Definition click_white_field : click :=
  mkClick true false false false false false false false.

Definition click_ip_field : click :=
  mkClick false false false false false true false false.

(** The white field is cleared and set to 3; Start. *)
Definition three_minutes : list (list splash_event) :=
  [[MouseButtonDown click_white_field];
   [KeyDown K_BACKSPACE [8]; KeyDown K_BACKSPACE [8]; KeyDown K_OTHER [51]];
   [MouseButtonDown start_click]].

Lemma splash_returns_witness :
  splash_screen latin1_is_digit latin1_decimal latin1_is_space default_limit
    three_minutes
    = Ok (Started 180 600 (mkCfg Solo None None)) /\
  (exists mw mb, 0 <= mw /\ 0 <= mb /\ 180 = mw * 60 /\ 600 = mb * 60) /\
  cfg_port (mkCfg Solo None None) = None /\
  cfg_ip (mkCfg Solo None None) = None.
Proof.
  split; [reflexivity|].
  exact (splash_returns_whole_minutes latin1_is_digit latin1_decimal
           latin1_is_space default_limit
           latin1_decimal_is_digit latin1_digit_not_space latin1_dot_not_space
           latin1_ascii_digits three_minutes 180 600 (mkCfg Solo None None)
           eq_refl).
Defined.

(** Join is chosen and the address 1.2 typed; the state before Return. *)
Definition address_typed : splash :=
  mkSplash text_10 text_10 [49; 46; 50] text_5050 Join (Some FIp) true.

Definition address_entered : splash :=
  mkSplash text_10 text_10 [49; 46; 50] text_5050 Join (Some FIp) false.

Lemma join_address_witness :
  exists a,
    cfg_ip (mkCfg Join (Some 5050) (Some [49; 46; 50])) = Some a /\
    a <> [] /\
    server_ip (mkCfg Join (Some 5050) (Some [49; 46; 50])) = a.
Proof.
  apply (join_starts_with_an_address latin1_is_digit latin1_decimal
           latin1_is_space default_limit
           latin1_decimal_is_digit latin1_digit_not_space latin1_dot_not_space
           address_typed (KeyDown K_RETURN [13]) address_entered 600 600
           (mkCfg Join (Some 5050) (Some [49; 46; 50]))); try reflexivity.
  unfold clean, address_typed, text_10, text_5050; simpl.
  split; [repeat constructor|]. split; [repeat constructor|].
  split; [repeat constructor|].
  constructor; [left; reflexivity|].
  constructor; [right; reflexivity|].
  constructor; [left; reflexivity|constructor].
Defined.

Lemma join_after_start_witness :
  exists port,
    splash_loop latin1_is_digit latin1_decimal latin1_is_space default_limit
      splash_init
      ([MouseButtonDown start_click; MouseButtonDown join_click] :: [])
    = Ok (Started 600 600 (mkCfg Join (Some port) (Some []))) /\
    server_ip (mkCfg Join (Some port) (Some [])) = localhost.
Proof.
  apply (join_after_start_skips_the_test latin1_is_digit latin1_decimal
           latin1_is_space default_limit splash_init [] 600 600
           (mkCfg Solo None None)); try reflexivity.
  discriminate.
Defined.

Lemma keys_need_witness :
  splash_loop latin1_is_digit latin1_decimal latin1_is_space default_limit
    splash_init [[KeyDown K_OTHER [53]]; [KeyDown K_RETURN [13]; OtherEvent]]
  = Ok (StillOpen splash_init).
Proof.
  apply (keys_need_an_active_field latin1_is_digit latin1_decimal
           latin1_is_space default_limit splash_init); reflexivity.
Defined.

(** The white field is active and holds 10. *)
Definition white_active : splash :=
  mkSplash text_10 text_10 [] text_5050 Solo (Some FWhite) true.

Lemma undecimal_digit_witness :
  splash_loop latin1_is_digit latin1_decimal latin1_is_space default_limit
    white_active ([KeyDown K_OTHER [178]; KeyDown K_RETURN [13]] :: [])
  = Raise ValueError.
Proof.
  apply (undecimal_digit_in_a_field latin1_is_digit latin1_decimal
           latin1_is_space default_limit white_active FWhite 178 [13] []
           600 600 (mkCfg Solo None None)); try reflexivity.
  - unfold clean, white_active, text_10, text_5050; simpl.
    repeat split; repeat constructor.
  - discriminate.
Defined.

End Splash.
